(** * Document-to-quiz pipeline of script.js: a shallow embedding

    Strings are sequences of 8-bit code units ([list ascii]).  The text the
    quiz generator works on has passed [extractReadableText], which leaves
    only printable ASCII and newlines, and the PDF salvage builds its text
    with [String.fromCharCode] on single bytes, so there one code unit per
    character is what the program itself sees.  A pasted text or a typed
    answer with characters beyond U+00FF is outside the model.

    Regular expressions are written as syntax trees and run by a
    backtracking matcher that follows the ECMAScript rules (ordered
    alternation, greedy and lazy quantifiers, leftmost match).  Numbers are
    [nat] where the program counts and [Q] where it adds halves. *)

From Stdlib Require Import Ascii String DecimalString DecimalNat.
From Stdlib Require Import List Arith ZArith Lia Bool QArith Qminmax Lqa.
From Stdlib Require Import Permutation Sorted.
Import ListNotations.

Local Open Scope string_scope.
Local Open Scope nat_scope.
Local Open Scope list_scope.

(** ** Strings *)

Definition str := list ascii.

Definition lit (s : string) : str := list_ascii_of_string s.
Coercion lit : string >-> str.

Definition code (c : ascii) : nat := nat_of_ascii c.

Definition between (lo hi : nat) (c : ascii) : bool :=
  (lo <=? code c) && (code c <=? hi).

Definition is_upper (c : ascii) : bool := between 65 90 c.
Definition is_lower (c : ascii) : bool := between 97 122 c.
Definition is_alpha (c : ascii) : bool := is_upper c || is_lower c.
Definition is_digit (c : ascii) : bool := between 48 57 c.

(** [\w] is [[A-Za-z0-9_]]. *)
Definition is_word (c : ascii) : bool :=
  is_alpha c || is_digit c || (code c =? 95).

(** [\s], and the characters [trim] removes: tab, line feed, vertical tab,
    form feed, carriage return, space and the no-break space. *)
Definition is_space (c : ascii) : bool :=
  between 9 13 c || (code c =? 32) || (code c =? 160).

(** Line terminators, which [.] does not match without the [s] flag. *)
Definition is_newline (c : ascii) : bool :=
  (code c =? 10) || (code c =? 13).

(** The character [c], as a class. *)
Definition is_char (c x : ascii) : bool :=
  if ascii_dec x c then true else false.

Definition str_dec : forall a b : str, {a = b} + {a <> b} :=
  list_eq_dec ascii_dec.

Definition str_eqb (a b : str) : bool :=
  if str_dec a b then true else false.

(** [String.prototype.toLowerCase] on one code unit: A-Z, and the Latin-1
    capitals 0xC0-0xDE other than the multiplication sign. *)
Definition lower_char (c : ascii) : ascii :=
  if is_upper c then ascii_of_nat (code c + 32)
  else if between 192 222 c && negb (code c =? 215)
       then ascii_of_nat (code c + 32)
       else c.

Definition toLowerCase (s : str) : str := map lower_char s.

Fixpoint dropWhile (p : ascii -> bool) (s : str) : str :=
  match s with
  | [] => []
  | c :: t => if p c then dropWhile p t else s
  end.

Definition trimStart (s : str) : str := dropWhile is_space s.
Definition trimEnd (s : str) : str := rev (dropWhile is_space (rev s)).
Definition trim (s : str) : str := trimEnd (trimStart s).

Fixpoint startsWith (s w : str) : bool :=
  match w, s with
  | [], _ => true
  | _ :: _, [] => false
  | a :: w', b :: s' => if ascii_dec a b then startsWith s' w' else false
  end.

(** [String.prototype.includes]: [w] occurs somewhere in [s]. *)
Fixpoint includes (s w : str) : bool :=
  startsWith s w ||
  match s with
  | [] => false
  | _ :: t => includes t w
  end.

(** [Array.prototype.join]. *)
Fixpoint join (sep : str) (l : list str) : str :=
  match l with
  | [] => []
  | [x] => x
  | x :: t => x ++ sep ++ join sep t
  end.

(** ** Regular expressions *)

Inductive regex : Type :=
| Chr (p : ascii -> bool)
| Seq (a b : regex)
| Alt (a b : regex)
| Rep (a : regex) (lo : nat) (hi : option nat) (greedy : bool)
| Grp (n : nat) (a : regex)
| WordB
| Bol
| Eol
| Ahead (a : regex).

(** A position in the subject: the characters before it (nearest first), the
    characters after it, and the captures made so far. *)
Record mstate : Type := MState {
  before : str;
  after : str;
  caps : list (nat * str)
}.

Definition pos (st : mstate) : nat := length (before st).

Definition word_before (st : mstate) : bool :=
  match before st with c :: _ => is_word c | [] => false end.
Definition word_after (st : mstate) : bool :=
  match after st with c :: _ => is_word c | [] => false end.

Definition set_cap (n : nat) (v : str) (cs : list (nat * str)) :=
  (n, v) :: filter (fun e => negb (fst e =? n)) cs.

Fixpoint get_cap (n : nat) (cs : list (nat * str)) : str :=
  match cs with
  | [] => []
  | (k, v) :: t => if k =? n then v else get_cap n t
  end.

(** One quantifier, [a{lo,hi}] or its lazy form, given the matcher [ma] of
    its body: [fuel] iterations may still be made and [i] have been made.
    Past its lower bound a quantifier refuses an iteration that consumed
    nothing, as the language does. *)
Section Quantifier.
Variable ma : mstate -> (mstate -> option mstate) -> option mstate.
Variables (lo : nat) (greedy : bool).
Variable k : mstate -> option mstate.

Fixpoint repIter (fuel i : nat) (st : mstate) {struct fuel}
  : option mstate :=
  match fuel with
  | 0 => if lo <=? i then k st else None
  | S fuel' =>
      let again (_ : unit) :=
        ma st (fun st' =>
          if (lo <=? i) && (pos st' =? pos st) then None
          else repIter fuel' (S i) st') in
      if i <? lo then again tt
      else if greedy
           then match again tt with
                | Some res => Some res
                | None => k st
                end
           else match k st with
                | Some res => Some res
                | None => again tt
                end
  end.
End Quantifier.

(** The matcher, in continuation-passing style: [k] is what has to match
    after [r].  An unbounded quantifier can make no more than
    [lo + length (after st)] iterations, since each one past the lower
    bound consumes a character. *)
Fixpoint mrun (r : regex) (st : mstate) (k : mstate -> option mstate)
  {struct r} : option mstate :=
  match r with
  | Chr p =>
      match after st with
      | c :: t => if p c then k (MState (c :: before st) t (caps st)) else None
      | [] => None
      end
  | Seq a b => mrun a st (fun st' => mrun b st' k)
  | Alt a b =>
      match mrun a st k with
      | Some res => Some res
      | None => mrun b st k
      end
  | Rep a lo hi greedy =>
      repIter (mrun a) lo greedy k
        (match hi with Some h => h | None => lo + length (after st) end) 0 st
  | Grp n a =>
      mrun a st (fun st' =>
        k (MState (before st') (after st')
             (set_cap n (rev (firstn (pos st' - pos st) (before st')))
                (caps st'))))
  | WordB => if xorb (word_before st) (word_after st) then k st else None
  | Bol => match before st with [] => k st | _ => None end
  | Eol => match after st with [] => k st | _ => None end
  | Ahead a =>
      match mrun a st (fun st' => Some st') with
      | Some st' => k (MState (before st) (after st) (caps st'))
      | None => None
      end
  end.

(** One match: where it starts, the matched text and the captures. *)
Record rmatch : Type := RMatch {
  m_index : nat;
  m_text : str;
  m_caps : list (nat * str)
}.

Definition group (n : nat) (m : rmatch) : str := get_cap n (m_caps m).

(** A match attempt at one position ([bef] is the text before it). *)
Definition match_at (r : regex) (bef aft : str) : option rmatch :=
  match mrun r (MState bef aft []) (fun st => Some st) with
  | Some st =>
      Some (RMatch (length bef)
              (rev (firstn (pos st - length bef) (before st))) (caps st))
  | None => None
  end.

(** [RegExp.prototype.exec] from the start of the subject, and [test]. *)
Fixpoint exec_from (r : regex) (bef aft : str) : option rmatch :=
  match match_at r bef aft with
  | Some m => Some m
  | None =>
      match aft with
      | [] => None
      | c :: t => exec_from r (c :: bef) t
      end
  end.

Definition test (r : regex) (s : str) : bool :=
  match exec_from r [] s with Some _ => true | None => false end.

(** All matches of a [g] regex, left to right: after a match the search
    resumes where it ended ([skip] counts the characters of the match still
    to be passed), one character further after an empty match. *)
Fixpoint scan (r : regex) (skip : nat) (bef aft : str) : list rmatch :=
  match skip with
  | S skip' =>
      match aft with
      | [] => []
      | c :: t => scan r skip' (c :: bef) t
      end
  | 0 =>
      match match_at r bef aft, aft with
      | Some m, c :: t => m :: scan r (length (m_text m) - 1) (c :: bef) t
      | Some m, [] => [m]
      | None, c :: t => scan r 0 (c :: bef) t
      | None, [] => []
      end
  end.

Definition matchAll (r : regex) (s : str) : list rmatch := scan r 0 [] s.

(** [s.match(r)] for a [g] regex gives the matched texts, or null. *)
Definition match_g (r : regex) (s : str) : option (list str) :=
  match matchAll r s with
  | [] => None
  | ms => Some (map m_text ms)
  end.

(** [s.replace(r, f)] for a [g] regex: every match is replaced by what [f]
    makes of it. *)
Fixpoint replace_go (r : regex) (f : rmatch -> str) (skip : nat)
  (bef aft : str) : str :=
  match skip with
  | S skip' =>
      match aft with
      | [] => []
      | c :: t => replace_go r f skip' (c :: bef) t
      end
  | 0 =>
      match match_at r bef aft, aft with
      | Some m, c :: t =>
          match length (m_text m) with
          | 0 => f m ++ c :: replace_go r f 0 (c :: bef) t
          | S n => f m ++ replace_go r f n (c :: bef) t
          end
      | Some m, [] => f m
      | None, c :: t => c :: replace_go r f 0 (c :: bef) t
      | None, [] => []
      end
  end.

Definition replace (r : regex) (f : rmatch -> str) (s : str) : str :=
  replace_go r f 0 [] s.

(** [s.split(r)]: a separator is looked for at each position in turn; a
    match that ends where the current piece starts is passed over. *)
Fixpoint split_go (r : regex) (skip : nat) (cur bef aft : str) : list str :=
  match aft with
  | [] => [rev cur]
  | c :: t =>
      match skip with
      | S skip' => split_go r skip' cur (c :: bef) t
      | 0 =>
          match match_at r bef aft with
          | Some m =>
              match length (m_text m) with
              | 0 =>
                  match cur with
                  | [] => split_go r 0 [c] (c :: bef) t
                  | _ => rev cur :: split_go r 0 [c] (c :: bef) t
                  end
              | S n => rev cur :: split_go r n [] (c :: bef) t
              end
          | None => split_go r 0 (c :: cur) (c :: bef) t
          end
      end
  end.

(** Of the empty string nothing is left when the pattern matches it, and
    the empty string itself when it does not. *)
Definition split (r : regex) (s : str) : list str :=
  match s, match_at r [] [] with
  | [], Some _ => []
  | _, _ => split_go r 0 [] [] s
  end.

(** Shorthands for the patterns of the program. *)
Definition nothing : regex := Rep (Chr (fun _ => true)) 0 (Some 0) true.
Definition plus (a : regex) : regex := Rep a 1 None true.
Definition star (a : regex) : regex := Rep a 0 None true.
Definition atLeast (n : nat) (a : regex) : regex := Rep a n None true.

Fixpoint seq (l : list regex) : regex :=
  match l with
  | [] => nothing
  | [a] => a
  | a :: t => Seq a (seq t)
  end.

Fixpoint alt (l : list regex) : regex :=
  match l with
  | [] => Chr (fun _ => false)
  | [a] => a
  | a :: t => Alt a (alt t)
  end.

(** Literal text, and one literal character given as a string. *)
Definition word (s : str) : regex := seq (map (fun c => Chr (is_char c)) s).
Definition chr (c : string) : regex := word (lit c).

(** A character class given by its members. *)
Definition oneOf (s : string) : ascii -> bool :=
  fun x => existsb (fun y => is_char y x) (lit s).

(** [\s+] *)
Definition ws_plus : regex := plus (Chr is_space).

(** ** Numbers and arrays *)

Definition Qltb (a b : Q) : bool := negb (Qle_bool b a).
Definition ofNat (n : nat) : Q := inject_Z (Z.of_nat n).

(** [`${n}`] for a number. *)
Definition numToString (n : nat) : str :=
  lit (NilZero.string_of_uint (Nat.to_uint n)).

(** [(s.match(r) || [])]. *)
Definition matchesOrEmpty (r : regex) (s : str) : list str :=
  match match_g r s with Some l => l | None => [] end.

(** A parameter with a default value: the default stands in when the
    caller passes nothing. *)
Definition orDefault (d : nat) (arg : option nat) : nat :=
  match arg with Some n => n | None => d end.

(** [Array.prototype.sort] with a comparator [(a, b) => key(b) - key(a)]:
    descending by key, elements with equal keys in their original order. *)
Section Sorting.
Context {A : Type} (before_ : A -> A -> bool).

Fixpoint insertSorted (x : A) (l : list A) : list A :=
  match l with
  | [] => [x]
  | y :: l' => if before_ y x then y :: insertSorted x l' else x :: l
  end.

Definition sortBy (l : list A) : list A := fold_right insertSorted [] l.

(** [a] may stand before [b] in a sorted array. *)
Definition inOrder (a b : A) : Prop := before_ b a = false.
End Sorting.

(** Elements paired with their index, as the callbacks of [map] and
    [forEach] receive them. *)
Fixpoint indexedFrom {A : Type} (i : nat) (l : list A) : list (nat * A) :=
  match l with
  | [] => []
  | x :: t => (i, x) :: indexedFrom (S i) t
  end.
Definition indexed {A : Type} (l : list A) : list (nat * A) :=
  indexedFrom 0 l.

(** [l[i] = v] for an index inside the array. *)
Fixpoint setNth {A : Type} (i : nat) (v : A) (l : list A) : list A :=
  match l, i with
  | [], _ => []
  | _ :: t, 0 => v :: t
  | x :: t, S i' => x :: setNth i' v t
  end.

(** ** TextProcessor *)

Definition newline : ascii := ascii_of_nat 10.
Definition quote : ascii := ascii_of_nat 34.
Definition backslash : ascii := ascii_of_nat 92.

(** Matching under the [i] flag: characters are compared after being put
    in upper case; for the ASCII characters of the patterns only the two
    cases of a letter come to the same. *)
Definition upper_char (c : ascii) : ascii :=
  if is_lower c then ascii_of_nat (code c - 32) else c.

Definition iword (s : str) : regex :=
  seq (map (fun c => Chr (fun x => is_char (upper_char c) (upper_char x))) s).

(** [.] without the [s] flag. *)
Definition dot : regex := Chr (fun c => negb (is_newline c)).

Definition constant (s : str) : rmatch -> str := fun _ => s.

Definition cleanPDFText (rawText : str) : str :=
  let cleaned := rawText in
  (* /\s+/g *)
  let cleaned := replace ws_plus (constant (lit " ")) cleaned in
  (* /\b(\w)\s+(?=\w\b)/g, '$1' *)
  let cleaned :=
    replace (seq [ WordB; Grp 1 (Chr is_word); ws_plus;
                   Ahead (Seq (Chr is_word) WordB) ])
      (fun m => group 1 m) cleaned in
  (* /\b\d+\s*R\s*/g *)
  let cleaned :=
    replace (seq [ WordB; plus (Chr is_digit); star (Chr is_space); chr "R";
                   star (Chr is_space) ])
      (constant (lit " ")) cleaned in
  (* /\/Type\s*\/Pages?/gi *)
  let cleaned :=
    replace (seq [ iword "/Type"; star (Chr is_space); iword "/Page";
                   Rep (iword "s") 0 (Some 1) true ])
      (constant (lit "")) cleaned in
  (* /\/Kids\s*\[.*?\]/gi *)
  let cleaned :=
    replace (seq [ iword "/Kids"; star (Chr is_space); chr "[";
                   Rep dot 0 None false; chr "]" ])
      (constant (lit "")) cleaned in
  (* /\/Count\s*\d+/gi *)
  let cleaned :=
    replace (seq [ iword "/Count"; star (Chr is_space); plus (Chr is_digit) ])
      (constant (lit "")) cleaned in
  (* /<<|>>/g *)
  let cleaned :=
    replace (Alt (word "<<") (word ">>")) (constant (lit "")) cleaned in
  (* /endobj/g *)
  let cleaned := replace (word "endobj") (constant (lit "")) cleaned in
  (* /\/[A-Z][a-zA-Z0-9]*/g *)
  let cleaned :=
    replace (seq [ chr "/"; Chr is_upper;
                   star (Chr (fun c => is_alpha c || is_digit c)) ])
      (constant (lit " ")) cleaned in
  (* /([a-z])([A-Z])/g, '$1. $2' *)
  let cleaned :=
    replace (Seq (Grp 1 (Chr is_lower)) (Grp 2 (Chr is_upper)))
      (fun m => group 1 m ++ lit ". " ++ group 2 m) cleaned in
  (* /[.!?]{2,}/g *)
  let cleaned :=
    replace (atLeast 2 (Chr (oneOf ".!?"))) (constant (lit ".")) cleaned in
  trim cleaned.

Definition extractReadableText (text : str) : str :=
  let readable := text in
  (* /\$\$[^$]+\$\$/g *)
  let readable :=
    replace (seq [ chr "$"; chr "$"; plus (Chr (fun c => negb (oneOf "$" c)));
                   chr "$"; chr "$" ])
      (constant (lit " [math] ")) readable in
  (* /\$[^$]+\$/g *)
  let readable :=
    replace (seq [ chr "$"; plus (Chr (fun c => negb (oneOf "$" c)));
                   chr "$" ])
      (constant (lit " [formula] ")) readable in
  (* /\\[a-z]+\{[^}]*\}/gi *)
  let readable :=
    replace (seq [ Chr (is_char backslash); plus (Chr is_alpha); chr "{";
                   star (Chr (fun c => negb (oneOf "}" c))); chr "}" ])
      (constant (lit "")) readable in
  (* /\\[a-z]+/gi *)
  let readable :=
    replace (Seq (Chr (is_char backslash)) (plus (Chr is_alpha)))
      (constant (lit "")) readable in
  (* three or more characters outside [\w\s.,!?;:()\-'/] and the double
     quote *)
  let readable :=
    replace (atLeast 3
               (Chr (fun c => negb (is_word c || is_space c
                                    || oneOf ".,!?;:()-'/" c
                                    || is_char quote c))))
      (constant (lit " ")) readable in
  (* /[^\x20-\x7E\n]/g *)
  let readable :=
    replace (Chr (fun c => negb (between 32 126 c || is_char newline c)))
      (constant (lit " ")) readable in
  (* /\b\d+\b/g *)
  let readable :=
    replace (seq [WordB; plus (Chr is_digit); WordB]) (constant (lit ""))
      readable in
  trim readable.

Definition improveStructure (text : str) : str :=
  let structured := text in
  (* /\.\s*([A-Z])/g, '.\n\n$1' *)
  let structured :=
    replace (seq [chr "."; star (Chr is_space); Grp 1 (Chr is_upper)])
      (fun m => lit "." ++ [newline; newline] ++ group 1 m) structured in
  (* /([a-z])\s*([A-Z][A-Z\s]+):/g, '$1\n\n$2:' *)
  let structured :=
    replace (seq [ Grp 1 (Chr is_lower); star (Chr is_space);
                   Grp 2 (Seq (Chr is_upper)
                            (plus (Chr (fun c => is_upper c || is_space c))));
                   chr ":" ])
      (fun m => group 1 m ++ [newline; newline] ++ group 2 m ++ lit ":")
      structured in
  (* /\n{3,}/g *)
  let structured :=
    replace (atLeast 3 (Chr (is_char newline)))
      (constant [newline; newline]) structured in
  trim structured.

(** ** QuizGenerator *)

(** [/[.!?]+\s+/] *)
Definition sentenceEnd : regex := Seq (plus (Chr (oneOf ".!?"))) ws_plus.
(** [/[a-zA-Z]{3,}/] *)
Definition threeLetters : regex := atLeast 3 (Chr is_alpha).
(** [/\d/g] and [/\d+/g] *)
Definition oneDigit : regex := Chr is_digit.
Definition digitRun : regex := plus (Chr is_digit).
(** [/\b[A-Z][a-z]+\b/g] *)
Definition properNoun : regex :=
  seq [WordB; Chr is_upper; plus (Chr is_lower); WordB].
(** [/\b[A-Z][a-z]{2,}\b/g] *)
Definition capitalWord : regex :=
  seq [WordB; Chr is_upper; atLeast 2 (Chr is_lower); WordB].
(** [/^[a-zA-Z]+$/] *)
Definition lettersOnly : regex := seq [Bol; plus (Chr is_alpha); Eol].
(** [/[^a-z]/g] *)
Definition notLower : regex := Chr (fun c => negb (is_lower c)).

(** The definition pattern: [([A-Z][a-z]+(?:\s+[A-Z][a-z]+){0,3})], then
    [\s+(?:is|are|refers to|means|defines?)\s+], then [([^.!?]{10,100})],
    with the [g] flag. *)
Definition definitionPattern : regex :=
  seq [ Grp 1 (seq [ Chr is_upper; plus (Chr is_lower);
                     Rep (seq [ws_plus; Chr is_upper; plus (Chr is_lower)])
                       0 (Some 3) true ]);
        ws_plus;
        alt [ word "is"; word "are"; word "refers to"; word "means";
              Seq (word "define") (Rep (chr "s") 0 (Some 1) true) ];
        ws_plus;
        Grp 2 (Rep (Chr (fun c => negb (oneOf ".!?" c))) 10 (Some 100) true) ].

Definition wordCount (s : str) : nat := length (split ws_plus s).

(** The filter of [splitSentences]. *)
Definition keepSentence (s : str) : bool :=
  let wordCount := length (split ws_plus s) in
  let hasLetters := test threeLetters s in
  let notTooShort := 20 <? length s in
  let notTooLong := length s <? 500 in
  let notMostlyNumbers :=
    Qltb (ofNat (length (matchesOrEmpty oneDigit s)))
      (ofNat (length s) * 0.5)%Q in
  (3 <=? wordCount) && hasLetters && notTooShort && notTooLong
  && notMostlyNumbers.

Definition splitCandidates (text : str) : list str :=
  map trim (split sentenceEnd text).

Definition splitSentences (text : str) : list str :=
  filter keepSentence (splitCandidates text).

Record QuizGenerator : Type := {
  rawText : str;
  text : str;
  sentences : list str
}.

Definition preprocessText (text : str) : str :=
  let processed := cleanPDFText text in
  let processed := extractReadableText processed in
  let processed := improveStructure processed in
  processed.

(** [new QuizGenerator(text)] *)
Definition newQuizGenerator (text : str) : QuizGenerator :=
  let text' := preprocessText text in
  {| rawText := text; text := text'; sentences := splitSentences text' |}.

(** *** extractKeySentences *)

Definition importantWords : list str :=
  [ lit "define"; lit "definition"; lit "important"; lit "key"; lit "main";
    lit "primary"; lit "significant"; lit "crucial"; lit "essential";
    lit "means"; lit "refers to"; lit "is a"; lit "are a"; lit "includes";
    lit "consists of"; lit "theory"; lit "principle"; lit "concept";
    lit "method"; lit "process"; lit "system"; lit "function";
    lit "purpose" ].

(** The [forEach] over [importantWords], from a given running score. *)
Definition vocabularyScore (lower : str) (score : Q) : Q :=
  fold_left
    (fun score word => if includes lower word then (score + 3)%Q else score)
    importantWords score.

Definition sentenceScore (idx : nat) (sentence : str) : Q :=
  let score := 0%Q in
  let lower := toLowerCase sentence in
  let score := vocabularyScore lower score in
  let score :=
    if idx <? 5 then (score + 3)%Q
    else if idx <? 10 then (score + 2)%Q else score in
  let wordCount := length (split ws_plus sentence) in
  let score :=
    if (8 <=? wordCount) && (wordCount <=? 25) then (score + 3)%Q
    else if (5 <=? wordCount) && (wordCount <=? 30) then (score + 1)%Q
    else score in
  let properNouns := match_g properNoun sentence in
  let score :=
    match properNouns with
    | Some l => (score + Qmin (ofNat (length l) * 0.5) 3)%Q
    | None => score
    end in
  let numbers := matchesOrEmpty digitRun sentence in
  let score := if 3 <? length numbers then (score - 2)%Q else score in
  let score := if includes sentence ":" then (score + 2)%Q else score in
  score.

Definition scoredSentences (this : QuizGenerator) : list (str * Q) :=
  map (fun p => (snd p, sentenceScore (fst p) (snd p)))
    (indexed (sentences this)).

Definition extractKeySentences (this : QuizGenerator) (arg : option nat)
  : list str :=
  let maxSentences := orDefault 10 arg in
  let sorted :=
    sortBy (fun a b => Qltb (snd b) (snd a)) (scoredSentences this) in
  map fst
    (firstn maxSentences
       (filter (fun s => Qltb 0%Q (snd s))
          (firstn (maxSentences * 2) sorted))).

(** *** extractKeyTerms *)

Definition commonWords : list str :=
  [ lit "The"; lit "This"; lit "That"; lit "These"; lit "Those"; lit "There";
    lit "Where"; lit "When"; lit "What"; lit "Which"; lit "Who"; lit "How";
    lit "Why"; lit "Could"; lit "Would"; lit "Should"; lit "Must"; lit "May";
    lit "Can"; lit "Will"; lit "Shall"; lit "Page" ].

Definition has (set : list str) (w : str) : bool := existsb (str_eqb w) set.

(** The [frequency] object.  Its keys are capitalised words: none is an
    array index, so [Object.entries] lists them in the order they were
    first assigned, an assignment to a key that exists leaving it in place;
    and none is the name of a property every object inherits, all of which
    start with a lower-case letter or an underscore, so a key not yet
    assigned reads as [undefined]. *)
Definition freqTable := list (str * nat).

Fixpoint lookup (word : str) (frequency : freqTable) : option nat :=
  match frequency with
  | [] => None
  | (k, v) :: t => if str_eqb k word then Some v else lookup word t
  end.

Fixpoint assign (word : str) (v : nat) (frequency : freqTable) : freqTable :=
  match frequency with
  | [] => [(word, v)]
  | (k, v') :: t =>
      if str_eqb k word then (k, v) :: t else (k, v') :: assign word v t
  end.

(** [frequency[word] = (frequency[word] || 0) + 1] under the guard. *)
Definition countWord (frequency : freqTable) (word : str) : freqTable :=
  if (3 <? length word) && negb (has commonWords word)
  then assign word
         (match lookup word frequency with Some n => n | None => 0 end + 1)
         frequency
  else frequency.

Definition capitalWords (this : QuizGenerator) : list str :=
  matchesOrEmpty capitalWord (text this).

Definition frequencyOf (this : QuizGenerator) : freqTable :=
  fold_left countWord (capitalWords this) [].

Definition extractKeyTerms (this : QuizGenerator) (arg : option nat)
  : list str :=
  let maxTerms := orDefault 15 arg in
  map fst
    (firstn maxTerms
       (sortBy (fun a b => snd b <? snd a)
          (filter (fun e => 2 <=? snd e) (frequencyOf this)))).

(** *** generateQuiz *)

Inductive qtype : Type := truefalse | mcq | fillblank.

(** A question object; a fill-in-the-blank question has no [options]. *)
Record question : Type := {
  id : str;
  type : qtype;
  question_text : str;
  correctAnswer : str;
  options : option (list str)
}.

(** The random source.  [Math.floor(Math.random() * n)] is some number in
    [0 .. n-1], and any of them: it is read off the next value of a stream
    of draws, reduced modulo [n]. *)
Definition rng := list nat.

Definition randomBelow (n : nat) (g : rng) : nat * rng :=
  match g with
  | [] => (0, [])
  | x :: g' => (x mod n, g')
  end.

(** [[a[i], a[j]] = [a[j], a[i]]] *)
Definition swap (i j : nat) (a : list str) : list str :=
  let ai := nth i a [] in
  let aj := nth j a [] in
  setNth j ai (setNth i aj a).

(** [for (let i = ...; i > 0; i--)], from a given [i] downwards. *)
Fixpoint shuffleFrom (i : nat) (options : list str) (g : rng)
  : list str * rng :=
  match i with
  | 0 => (options, g)
  | S i' =>
      let (j, g') := randomBelow (i + 1) g in
      shuffleFrom i' (swap i j options) g'
  end.

Definition shuffle (options : list str) (g : rng) : list str * rng :=
  shuffleFrom (length options - 1) options g.

Definition tfSentences (this : QuizGenerator) : list str :=
  firstn 5
    (filter (fun s => (8 <=? length (split ws_plus s))
                      && (length (split ws_plus s) <=? 25))
       (sentences this)).

Definition tfQuestion (idx : nat) (sentence : str) : question :=
  {| id := lit "tf" ++ numToString idx;
     type := truefalse;
     question_text := trim sentence;
     correctAnswer := lit "true";
     options := Some [lit "True"; lit "False"] |}.

(** The first [forEach]: one [push] per sentence. *)
Definition pushTrueFalse (this : QuizGenerator) (questions : list question)
  : list question :=
  fold_left (fun questions p => questions ++ [tfQuestion (fst p) (snd p)])
    (indexed (tfSentences this)) questions.

Definition distractor1 (definition : str) : str :=
  let words := split ws_plus definition in
  let midPoint := length words / 2 in
  join (lit " ") (firstn midPoint words) ++ lit " (incorrect)".

Definition distractor2 (definition : str) : str :=
  let words := split ws_plus definition in
  let midPoint := length words / 2 in
  join (lit " ") (skipn midPoint words) ++ lit " (incorrect)".

Definition distractor3 : str := lit "None of the above".

(** The [while] loop over the successive results of [exec]: the pattern is
    created by the call and has the [g] flag, so these are its matches in
    the text from left to right. *)
Fixpoint pushMultipleChoice (matches : list rmatch) (mcqCount : nat)
  (questions : list question) (g : rng) : list question * rng :=
  match matches with
  | [] => (questions, g)
  | m :: rest =>
      if mcqCount <? 5 then
        let term := trim (group 1 m) in
        let definition := trim (group 2 m) in
        if length (split ws_plus definition) <? 3
        then pushMultipleChoice rest mcqCount questions g
        else
          let options :=
            [definition; distractor1 definition; distractor2 definition;
             distractor3] in
          let (options, g) := shuffle options g in
          pushMultipleChoice rest (S mcqCount)
            (questions ++
             [ {| id := lit "mcq" ++ numToString mcqCount;
                  type := mcq;
                  question_text := lit "What is " ++ term ++ lit "?";
                  correctAnswer := definition;
                  options := Some options |} ])
            g
      else (questions, g)
  end.

Definition fibSentences (this : QuizGenerator) : list str :=
  firstn 5
    (filter (fun s => let words := split ws_plus s in
                      (8 <=? length words) && (length words <=? 20))
       (sentences this)).

Definition meaningfulWords (words : list str) : list (nat * str) :=
  sortBy (fun a b => length (snd b) <? length (snd a))
    (filter (fun p => (4 <? length (snd p)) && test lettersOnly (snd p))
       (indexed words)).

Definition blankMarker : str := lit "______".

(** The body of the last [forEach]. *)
Definition pushFillBlank (questions : list question) (p : nat * str)
  : list question :=
  let idx := fst p in
  let sentence := snd p in
  let words := split ws_plus sentence in
  match meaningfulWords words with
  | first :: _ =>
      let blankIdx := fst first in
      let correctWord := nth blankIdx words [] in
      let questionText :=
        join (lit " ")
          (map (fun q => if fst q =? blankIdx then blankMarker else snd q)
             (indexed words)) in
      questions ++
      [ {| id := lit "fib" ++ numToString idx;
           type := fillblank;
           question_text := questionText;
           correctAnswer :=
             replace notLower (fun _ => []) (toLowerCase correctWord);
           options := None |} ]
  | [] => questions
  end.

Definition generateQuiz (this : QuizGenerator) (g : rng)
  : list question * rng :=
  let questions := [] in
  let questions := pushTrueFalse this questions in
  let (questions, g) :=
    pushMultipleChoice (matchAll definitionPattern (text this)) 0 questions g in
  let questions :=
    fold_left pushFillBlank (indexed (fibSentences this)) questions in
  (firstn 10 questions, g).

(** ** Grading *)

(** A form control of the quiz page as the submit handler reads it: a radio
    button with its [value], its [data-correct] attribute and its [checked]
    state, or a text field with its [data-correct] attribute and the [value]
    typed into it.  The handler sees the page only, which is the browser's
    reading of the markup [displayQuiz] has written; the controls of a
    question element are therefore the handler's input here. *)
Inductive input : Type :=
| Radio (name value dataCorrect : str) (checked : bool)
| TextInput (name dataCorrect value : str).

(** The [inputs.forEach] of the submit handler, on [isCorrect]. *)
Definition gradeInput (isCorrect : bool) (i : input) : bool :=
  match i with
  | Radio _ _ dataCorrect checked =>
      if checked then str_eqb dataCorrect (lit "true") else isCorrect
  | TextInput _ dataCorrect value =>
      let normalized := replace notLower (fun _ => []) (toLowerCase value) in
      str_eqb normalized dataCorrect
  end.

(** [isCorrect] after the loop over the controls of one question element,
    in document order. *)
Definition grade (inputs : list input) : bool :=
  fold_left gradeInput inputs false.

(** ** Raw PDF text extraction *)

(** [/BT\s+(.*?)\s+ET/gs] *)
Definition btPattern : regex :=
  seq [ word "BT"; ws_plus; Grp 1 (Rep (Chr (fun _ => true)) 0 None false);
        ws_plus; word "ET" ].
(** [/\((.*?)\)/g] *)
Definition parenGroup : regex :=
  seq [ chr "("; Grp 1 (Rep (Chr (fun c => negb (is_newline c))) 0 None false);
        chr ")" ].
(** [/[A-Za-z]{3,}(?:\s+[A-Za-z]{3,})*/g] *)
Definition readablePattern : regex :=
  Seq (atLeast 3 (Chr is_alpha))
      (star (Seq ws_plus (atLeast 3 (Chr is_alpha)))).

(** The characters of the file, one per byte. *)
Definition binaryTextOf (uint8Array : list Byte.byte) : str :=
  fold_left (fun binaryText b => binaryText ++ [ascii_of_byte b])
    uint8Array [].

(** [tm.slice(1, -1)] *)
Definition slice1 (tm : str) : str := removelast (tl tm).

(** Method 1: the text between BT and ET markers. *)
Definition extractBT (binaryText : str) : str :=
  fold_left
    (fun extractedText m =>
       let content := group 1 m in
       match match_g parenGroup content with
       | Some textMatches =>
           fold_left (fun extractedText tm =>
                        extractedText ++ slice1 tm ++ lit " ")
             textMatches extractedText
       | None => extractedText
       end)
    (matchAll btPattern binaryText) [].

(** Methods 1 and 2: [extractedText] when the clean-up starts. *)
Definition extractedBeforeCleanup (binaryText : str) : str :=
  let extractedText := extractBT binaryText in
  if length extractedText <? 100 then
    match match_g readablePattern binaryText with
    | Some readableMatches => join (lit " ") readableMatches
    | None => extractedText
    end
  else extractedText.

Definition cleanupEscapes (extractedText : str) : str :=
  let escape (c : string) : regex := Seq (Chr (is_char backslash)) (chr c) in
  (* /\\n/g, /\\r/g, /\\t/g *)
  let space := constant (lit " ") in
  let extractedText := replace (escape "n") space extractedText in
  let extractedText := replace (escape "r") space extractedText in
  let extractedText := replace (escape "t") space extractedText in
  (* /\\/g, /\(/g, /\)/g *)
  let extractedText :=
    replace (Chr (is_char backslash)) (constant (lit "")) extractedText in
  let extractedText := replace (chr "(") (constant (lit "")) extractedText in
  let extractedText := replace (chr ")") (constant (lit "")) extractedText in
  (* /\s+/g *)
  let extractedText := replace ws_plus (constant (lit " ")) extractedText in
  trim extractedText.

Definition limitedMessage : str :=
  lit "PDF extraction was limited. "
  ++ lit "Please copy and paste your text directly for better results.".

(** What the promise of [extractPDFTextRaw] resolves with, for the bytes
    [FileReader] has read. *)
Definition extractPDFTextRaw (uint8Array : list Byte.byte) : str :=
  let binaryText := binaryTextOf uint8Array in
  let extractedText := extractedBeforeCleanup binaryText in
  let extractedText := cleanupEscapes extractedText in
  if length extractedText <? 50 then limitedMessage else extractedText.

(** ** Notions the properties are stated with *)

(** The lists the three generators of [generateQuiz] push, each taken on
    its own. *)
Definition trueFalseQuestions (this : QuizGenerator) : list question :=
  pushTrueFalse this [].

Definition multipleChoiceQuestions (this : QuizGenerator) (g : rng)
  : list question :=
  fst (pushMultipleChoice (matchAll definitionPattern (text this)) 0 [] g).

Definition fillBlankQuestions (this : QuizGenerator) : list question :=
  fold_left pushFillBlank (indexed (fibSentences this)) [].

(** What every question pushed by the [while] loop looks like. *)
Definition mcqShape (q : question) : Prop :=
  type q = mcq
  /\ (exists m : rmatch, correctAnswer q = trim (group 2 m))
  /\ 3 <= length (split ws_plus (correctAnswer q))
  /\ exists opts : list str,
       options q = Some opts
       /\ Permutation opts
            [ correctAnswer q; distractor1 (correctAnswer q);
              distractor2 (correctAnswer q); distractor3 ].

Fixpoint takeWhile (p : ascii -> bool) (s : str) : str :=
  match s with
  | [] => []
  | c :: t => if p c then c :: takeWhile p t else []
  end.

(** The pieces a string falls into at its runs of whitespace; [insep] says
    that the character before was whitespace. *)
Fixpoint piecesFrom (insep : bool) (cur s : str) : list str :=
  match s with
  | [] => [rev cur]
  | c :: t =>
      if is_space c
      then if insep then piecesFrom true cur t
           else rev cur :: piecesFrom true [] t
      else piecesFrom false (c :: cur) t
  end.

Definition pieces (s : str) : list str := piecesFrom false [] s.

(** Three letters in a row somewhere in [s]. *)
Definition hasLetterRun (s : str) : Prop :=
  exists pre a b c post,
    s = pre ++ a :: b :: c :: post
    /\ is_alpha a = true /\ is_alpha b = true /\ is_alpha c = true.

Definition digitCount (s : str) : nat := length (filter is_digit s).

(** The number of places of [s] at which [w] occurs. *)
Fixpoint occurrences (s w : str) : nat :=
  (if startsWith s w then 1 else 0)
  + match s with
    | [] => 0
    | _ :: t => occurrences t w
    end.

(** The vocabulary points a sentence would get if every occurrence of every
    term counted. *)
Definition perOccurrencePoints (lower : str) : Q :=
  (3 * ofNat (list_sum (map (occurrences lower) importantWords)))%Q.

(** The points of [sentenceScore] that do not come from the vocabulary. *)
Definition otherPoints (idx : nat) (sentence : str) : Q :=
  ((if idx <? 5 then 3 else if idx <? 10 then 2 else 0)
   + (let wordCount := length (split ws_plus sentence) in
      if (8 <=? wordCount) && (wordCount <=? 25) then 3
      else if (5 <=? wordCount) && (wordCount <=? 30) then 1 else 0)
   + match match_g properNoun sentence with
     | Some l => Qmin (ofNat (length l) * 0.5) 3
     | None => 0
     end
   + (if 3 <? length (matchesOrEmpty digitRun sentence) then - (2) else 0)
   + (if includes sentence ":" then 2 else 0))%Q.

(** [/^[a-z]+$/], the form of a fill-in-the-blank answer. *)
Definition lowerOnly : regex := seq [Bol; plus (Chr is_lower); Eol].

(** A string that neither starts nor ends with whitespace. *)
Definition startsClean (s : str) : Prop :=
  match s with
  | [] => True
  | c :: _ => is_space c = false
  end.

Definition trimmed (s : str) : Prop := startsClean s /\ startsClean (rev s).

(** A word: not empty and without whitespace. *)
Definition isWord (w : str) : Prop :=
  w <> [] /\ forallb (fun c => negb (is_space c)) w = true.

(** The one definition whose second-half distractor is the definition. *)
Definition tripleIncorrect : str :=
  lit "(incorrect) (incorrect) (incorrect)".

(** How many of the options are the string [a]. *)
Definition timesOffered (a : str) (opts : list str) : nat :=
  count_occ str_dec opts a.

(** A capital letter followed by two or more lower-case letters. *)
Definition capitalised (t : str) : Prop :=
  exists u run,
    t = u :: run /\ is_upper u = true /\ forallb is_lower run = true
    /\ 2 <= length run.

(** The word passes the guard of [countWord]. *)
Definition counted (word : str) : bool :=
  (3 <? length word) && negb (has commonWords word).

(** How often a token occurs, and where it occurs first (the length of the
    list when it does not occur). *)
Definition frequencyIn (ws : list str) (w : str) : nat :=
  count_occ str_dec ws w.

Fixpoint indexOf (w : str) (ws : list str) : nat :=
  match ws with
  | [] => 0
  | x :: t => if str_dec x w then 0 else S (indexOf w t)
  end.

(** [t1] ranks before [t2]: it is at least as frequent, and was met first
    when they are equally frequent. *)
Definition ranksBefore (ws : list str) (t1 t2 : str) : Prop :=
  frequencyIn ws t2 <= frequencyIn ws t1
  /\ (frequencyIn ws t1 = frequencyIn ws t2 -> indexOf t1 ws < indexOf t2 ws).

(** What holds of the table after the tokens [ws] have been counted. *)
Definition tableFor (ws : list str) (T : freqTable) : Prop :=
  NoDup (map fst T)
  /\ (forall k n, In (k, n) T ->
                  n = frequencyIn ws k /\ counted k = true /\ In k ws)
  /\ (forall k, counted k = true -> In k ws -> In k (map fst T))
  /\ StronglySorted (fun k1 k2 => indexOf k1 ws < indexOf k2 ws) (map fst T).

(** ** A sample run *)

Definition sampleText : str :=
  lit "Osmosis is the movement of water molecules across a membrane. "
  ++ lit "New York City refers to a large town. "
  ++ lit "Osmosis defines tasty but unhealthy food! "
  ++ lit "Water and Water and York : 1 2 3 4 and York and again York.".

Definition sample : QuizGenerator := newQuizGenerator sampleText.

Definition sampleTrueFalse : question :=
  tfQuestion 0
    (lit "Osmosis is the movement of water molecules across a membrane").

Definition sampleKeySentence : str :=
  lit "The key to the lock was the wrong key".

Definition samplePlantText : str :=
  lit "Photosynthesis converts light energy into chemical energy "
  ++ lit "inside green plants. It is vital.".

Definition sampleFillBlank : question :=
  {| id := lit "fib0";
     type := fillblank;
     question_text :=
       lit "______ converts light energy into chemical energy "
       ++ lit "inside green plants";
     correctAnswer := lit "photosynthesis";
     options := None |}.

Definition sampleMultipleChoice : question :=
  {| id := lit "mcq0";
     type := mcq;
     question_text := lit "What is Osmosis?";
     correctAnswer := lit "the movement of water molecules across a membrane";
     options :=
       Some [ lit "the movement of water (incorrect)";
              lit "molecules across a membrane (incorrect)";
              lit "None of the above";
              lit "the movement of water molecules across a membrane" ] |}.

Definition sampleAmbiguousText : str :=
  lit "The quiz about plants had four different options for every question "
  ++ lit "that was asked. Correct is None of the above.".

Definition sampleAmbiguous : question :=
  {| id := lit "mcq0";
     type := mcq;
     question_text := lit "What is Correct?";
     correctAnswer := lit "None of the above";
     options :=
       Some [ lit "None of (incorrect)";
              lit "the above (incorrect)";
              lit "None of the above";
              lit "None of the above" ] |}.

Definition sampleBytes : list Byte.byte :=
  map byte_of_ascii (lit "BT (12) ET").

Definition sampleShortText : str :=
  lit "It is vital. Photosynthesis converts light energy into chemical "
  ++ lit "energy. 12 34 56 78 90".

Definition sampleKept : str :=
  lit "Photosynthesis converts light energy into chemical energy".

Definition sampleReadableBytes : list Byte.byte :=
  map byte_of_ascii (lit "BT (Hi) ET then some readable words 42 more").

Definition sampleLongBytes : list Byte.byte :=
  map byte_of_ascii
    (lit "BT (" ++ repeat "a"%char 100 ++ lit ") Tj ET and readable words").

(** ** Further notions *)

(** [w] occurs in [s]. *)
Definition occursIn (w s : str) : Prop := exists x y, s = x ++ w ++ y.

(** The subject a matcher state is a position of. *)
Definition subjectOf (st : mstate) : str := rev (before st) ++ after st.

(** [st'] is the position reached from [st] by consuming some text. *)
Definition reaches (st st' : mstate) : Prop :=
  exists consumed,
    before st' = rev consumed ++ before st
    /\ after st = consumed ++ after st'.

(** Every capture of the state is a piece of [subject]. *)
Definition capturesIn (subject : str) (st : mstate) : Prop :=
  Forall (fun e => occursIn (snd e) subject) (caps st).

(** The numbers of the groups of a pattern. *)
Fixpoint groupsOf (r : regex) : list nat :=
  match r with
  | Seq a b | Alt a b => groupsOf a ++ groupsOf b
  | Rep a _ _ _ | Ahead a => groupsOf a
  | Grp n a => n :: groupsOf a
  | _ => []
  end.

(** What a matcher [ma] with groups [gs] promises on [subject]: its
    continuation is called at a position reached in the same subject, with
    captures that are pieces of it, and with the captures of other groups
    as they were. *)
Definition staysInside (subject : str) (gs : list nat)
  (ma : mstate -> (mstate -> option mstate) -> option mstate) : Prop :=
  forall st k res,
    subjectOf st = subject -> capturesIn subject st ->
    ma st k = Some res ->
    exists st',
      reaches st st' /\ capturesIn subject st'
      /\ (forall n, ~ In n gs -> get_cap n (caps st') = get_cap n (caps st))
      /\ k st' = Some res.

(** A printable ASCII character or a newline. *)
Definition normalChar (c : ascii) : bool :=
  between 32 126 c || is_char newline c.

Definition normalText (s : str) : Prop :=
  Forall (fun c => normalChar c = true) s.

(** Every whitespace character of [s] is a space, and no whitespace
    character follows it. *)
Definition singleSpaced (s : str) : Prop :=
  forall x c y,
    s = x ++ c :: y -> is_space c = true ->
    c = " "%char /\ startsClean y.

(** [s] with every run of whitespace made one space; [insep] says that the
    character before was whitespace. *)
Fixpoint collapseFrom (insep : bool) (s : str) : str :=
  match s with
  | [] => []
  | c :: t =>
      if is_space c
      then if insep then collapseFrom true t
           else " "%char :: collapseFrom true t
      else c :: collapseFrom false t
  end.

(** Neither a backslash nor a parenthesis. *)
Definition plainChar (c : ascii) : bool :=
  negb (is_char backslash c) && negb (oneOf "()" c).

(** The value [displayQuiz] computes for the [data-correct] attribute of
    the radio button of the option [opt]: the boolean of the comparison, as
    a template literal writes it.  Radio buttons are written for true/false
    and multiple-choice questions only. *)
Definition booleanToString (b : bool) : str :=
  if b then lit "true" else lit "false".

Definition radioDataCorrect (q : question) (opt : str) : str :=
  booleanToString
    (match type q with
     | truefalse => str_eqb (toLowerCase opt) (correctAnswer q)
     | _ => str_eqb opt (correctAnswer q)
     end).

(** A radio button that is not checked. *)
Definition unchecked (i : input) : Prop :=
  match i with
  | Radio _ _ _ checked => checked = false
  | TextInput _ _ _ => False
  end.


(** * Properties *)

(** ** The matcher at work *)

Example split_demo :
  split ws_plus (lit "a  b c") = [lit "a"; lit "b"; lit "c"]
  /\ split ws_plus (lit "") = [lit ""]
  /\ split ws_plus (lit " a ") = [lit ""; lit "a"; lit ""].
Proof. repeat split; reflexivity. Qed.

(** The definition pattern may start inside a word, and gives whitespace
    back to the definition to reach its 10 characters. *)
Example definitionPattern_demo :
  map (fun m => (group 1 m, group 2 m))
    (matchAll definitionPattern
       (lit "McDonald is   shortest. Red Car means a lot to all of us!"))
  = [ (lit "Donald", lit "  shortest");
      (lit "Red Car", lit "a lot to all of us") ].
Proof. vm_compute. reflexivity. Qed.

Example sentenceEnd_demo :
  split sentenceEnd (lit "One.. Two?No! Three. ")
  = [lit "One"; lit "Two?No"; lit "Three"; lit ""].
Proof. vm_compute. reflexivity. Qed.

Example capitalWord_demo :
  matchesOrEmpty capitalWord (lit "Osmosis is The HelloWorld Ab x.Abcd Hi_")
  = [lit "Osmosis"; lit "The"; lit "Abcd"].
Proof. vm_compute. reflexivity. Qed.

(** A lazy quantifier stops at the first closing parenthesis. *)
Example lazy_demo :
  extractBT (lit "q BT /F1 12 Tf (Hello) Tj (big (World)) Tj ET Q BT(x) ET")
  = lit "Hello big (World ".
Proof. vm_compute. reflexivity. Qed.

Example brokenWord_demo :
  cleanPDFText (lit "w o r d  and  a b c de   12 0 R helloWorld wow!!!")
  = lit "word and abc de 12  hello. World wow.".
Proof. vm_compute. reflexivity. Qed.

(** ** Lists *)

Lemma fold_left_push {A B : Type} (f : B -> A) (l : list B) (acc : list A) :
  fold_left (fun acc x => acc ++ [f x]) l acc = acc ++ map f l.
Proof.
  revert acc. induction l as [|x l IH]; intros acc; simpl.
  - now rewrite app_nil_r.
  - rewrite IH, <- app_assoc. reflexivity.
Qed.

Lemma length_indexedFrom {A : Type} (l : list A) (i : nat) :
  length (indexedFrom i l) = length l.
Proof. revert i. induction l; intros; simpl; auto. Qed.

Lemma map_snd_indexedFrom {A : Type} (l : list A) (i : nat) :
  map snd (indexedFrom i l) = l.
Proof. revert i. induction l; intros; simpl; f_equal; auto. Qed.

Lemma In_indexedFrom {A : Type} (l : list A) (i n : nat) (x : A) :
  In (n, x) (indexedFrom i l) -> i <= n /\ nth_error l (n - i) = Some x.
Proof.
  revert i. induction l as [|y l IH]; intros i H; simpl in H.
  - contradiction.
  - destruct H as [H|H].
    + inversion H; subst. rewrite Nat.sub_diag. split; [lia | reflexivity].
    + apply IH in H. destruct H as [Hle Hn]. split; [lia|].
      replace (n - i) with (S (n - S i)) by lia. exact Hn.
Qed.

Lemma firstn_length_le' {A : Type} (n : nat) (l : list A) :
  length (firstn n l) <= n.
Proof. rewrite length_firstn. lia. Qed.

Lemma In_firstn {A : Type} (n : nat) (l : list A) (x : A) :
  In x (firstn n l) -> In x l.
Proof.
  revert l. induction n as [|n IH]; intros [|y l]; simpl; try tauto.
  intros [H|H]; [now left | right; now apply IH].
Qed.

(** ** The true/false generator *)

Lemma pushTrueFalse_app (this : QuizGenerator) (qs : list question) :
  pushTrueFalse this qs = qs ++ trueFalseQuestions this.
Proof.
  unfold trueFalseQuestions, pushTrueFalse.
  rewrite !fold_left_push. reflexivity.
Qed.

Lemma trueFalseQuestions_map (this : QuizGenerator) :
  trueFalseQuestions this =
  map (fun p => tfQuestion (fst p) (snd p)) (indexed (tfSentences this)).
Proof.
  unfold trueFalseQuestions, pushTrueFalse. now rewrite fold_left_push.
Qed.

Lemma trueFalseQuestions_length (this : QuizGenerator) :
  length (trueFalseQuestions this) <= 5.
Proof.
  rewrite trueFalseQuestions_map, length_map.
  unfold indexed. rewrite length_indexedFrom.
  apply firstn_length_le'.
Qed.

Lemma trueFalseQuestions_shape (this : QuizGenerator) (q : question) :
  In q (trueFalseQuestions this) ->
  type q = truefalse /\ correctAnswer q = lit "true"
  /\ options q = Some [lit "True"; lit "False"].
Proof.
  rewrite trueFalseQuestions_map. intros H.
  apply in_map_iff in H. destruct H as [p [<- _]]. now simpl.
Qed.

(** ** The multiple-choice generator *)

Lemma pushMultipleChoice_app (ms : list rmatch) :
  forall (n : nat) (qs : list question) (g : rng),
    pushMultipleChoice ms n qs g =
    (qs ++ fst (pushMultipleChoice ms n [] g),
     snd (pushMultipleChoice ms n [] g)).
Proof.
  induction ms as [|m ms IH]; intros n qs g; simpl.
  - now rewrite app_nil_r.
  - destruct (n <? 5); [|now rewrite app_nil_r].
    destruct (length (split ws_plus (trim (group 2 m))) <? 3).
    + apply IH.
    + destruct (shuffle _ g) as [opts g'].
      rewrite IH.
      match goal with
      | |- context [pushMultipleChoice ms (S n) [?q] g'] =>
          rewrite (IH (S n) [q] g')
      end.
      simpl. now rewrite <- app_assoc.
Qed.

Lemma pushMultipleChoice_length (ms : list rmatch) :
  forall (n : nat) (g : rng),
    n + length (fst (pushMultipleChoice ms n [] g)) <= Nat.max n 5.
Proof.
  induction ms as [|m ms IH]; intros n g; simpl.
  - lia.
  - destruct (n <? 5) eqn:Hn; [|simpl; lia].
    apply Nat.ltb_lt in Hn.
    destruct (length (split ws_plus (trim (group 2 m))) <? 3).
    + apply IH.
    + destruct (shuffle _ g) as [opts g'].
      rewrite pushMultipleChoice_app. simpl.
      specialize (IH (S n) g'). lia.
Qed.

Lemma multipleChoiceQuestions_length (this : QuizGenerator) (g : rng) :
  length (multipleChoiceQuestions this g) <= 5.
Proof.
  unfold multipleChoiceQuestions.
  pose proof (pushMultipleChoice_length
                (matchAll definitionPattern (text this)) 0 g). lia.
Qed.

Lemma setNth_length {A : Type} (i : nat) (v : A) (l : list A) :
  length (setNth i v l) = length l.
Proof.
  revert i. induction l as [|x l IH]; intros [|i]; simpl; auto.
Qed.

Lemma setNth_extract {A : Type} (d v : A) (l : list A) :
  forall j, j < length l ->
            Permutation (nth j l d :: setNth j v l) (v :: l).
Proof.
  induction l as [|x l IH]; intros [|j] Hj; simpl in *; try lia.
  - apply perm_swap.
  - rewrite perm_swap. rewrite (IH j) by lia. apply perm_swap.
Qed.

Lemma swap_Permutation (a : list str) :
  forall i j, i < length a -> j < length a -> Permutation (swap i j a) a.
Proof.
  unfold swap.
  induction a as [|x a IH]; intros [|i] [|j] Hi Hj; simpl in *; try lia.
  - reflexivity.
  - apply setNth_extract. lia.
  - apply setNth_extract. lia.
  - constructor. apply IH; lia.
Qed.

Lemma randomBelow_lt (n : nat) (g : rng) :
  0 < n -> fst (randomBelow n g) < n.
Proof.
  intros Hn. destruct g as [|x g]; simpl; [lia|].
  apply Nat.mod_upper_bound. lia.
Qed.

Lemma shuffleFrom_Permutation (i : nat) :
  forall (opts : list str) (g : rng),
    i < length opts -> Permutation (fst (shuffleFrom i opts g)) opts.
Proof.
  induction i as [|i IH]; intros opts g Hi; simpl.
  - reflexivity.
  - pose proof (randomBelow_lt (S (i + 1)) g ltac:(lia)) as Hj.
    destruct (randomBelow (S (i + 1)) g) as [j g']. simpl in Hj.
    assert (Hp : Permutation (swap (S i) j opts) opts)
      by (apply swap_Permutation; lia).
    transitivity (swap (S i) j opts); [|exact Hp].
    apply IH. rewrite (Permutation_length Hp). lia.
Qed.

Lemma shuffle_Permutation (opts : list str) (g : rng) :
  Permutation (fst (shuffle opts g)) opts.
Proof.
  unfold shuffle. destruct opts as [|x opts].
  - reflexivity.
  - apply shuffleFrom_Permutation. simpl. lia.
Qed.

Lemma pushMultipleChoice_shape (ms : list rmatch) :
  forall (n : nat) (g : rng) (q : question),
    In q (fst (pushMultipleChoice ms n [] g)) -> mcqShape q.
Proof.
  induction ms as [|m ms IH]; intros n g q; simpl.
  - contradiction.
  - destruct (n <? 5); [|simpl; contradiction].
    destruct (length (split ws_plus (trim (group 2 m))) <? 3) eqn:Hw.
    + apply IH.
    + pose proof (shuffle_Permutation
                    [ trim (group 2 m); distractor1 (trim (group 2 m));
                      distractor2 (trim (group 2 m)); distractor3 ] g) as Hp.
      destruct (shuffle _ g) as [opts g'].
      rewrite pushMultipleChoice_app. simpl.
      intros [<-|H]; [|now apply IH in H].
      apply Nat.ltb_ge in Hw.
      repeat split; simpl; eauto.
Qed.

(** ** The fill-in-the-blank generator *)

Lemma pushFillBlank_app (qs : list question) (p : nat * str) :
  pushFillBlank qs p = qs ++ pushFillBlank [] p.
Proof.
  unfold pushFillBlank. destruct (meaningfulWords _); simpl.
  - now rewrite app_nil_r.
  - reflexivity.
Qed.

Lemma fold_pushFillBlank_app (l : list (nat * str)) :
  forall qs, fold_left pushFillBlank l qs
             = qs ++ fold_left pushFillBlank l [].
Proof.
  induction l as [|p l IH]; intros qs; simpl.
  - now rewrite app_nil_r.
  - rewrite IH, (IH (pushFillBlank [] p)), pushFillBlank_app.
    now rewrite app_assoc.
Qed.

Lemma fold_pushFillBlank_length (l : list (nat * str)) :
  length (fold_left pushFillBlank l []) <= length l.
Proof.
  induction l as [|p l IH]; simpl; [lia|].
  rewrite fold_pushFillBlank_app, length_app.
  assert (length (pushFillBlank [] p) <= 1).
  { unfold pushFillBlank. destruct (meaningfulWords _); simpl; lia. }
  lia.
Qed.

Lemma fillBlankQuestions_length (this : QuizGenerator) :
  length (fillBlankQuestions this) <= 5.
Proof.
  unfold fillBlankQuestions.
  etransitivity; [apply fold_pushFillBlank_length|].
  unfold indexed. rewrite length_indexedFrom. apply firstn_length_le'.
Qed.

Lemma In_fold_pushFillBlank (l : list (nat * str)) (q : question) :
  In q (fold_left pushFillBlank l []) ->
  exists p, In p l /\ pushFillBlank [] p = [q].
Proof.
  induction l as [|p l IH]; simpl; [contradiction|].
  rewrite fold_pushFillBlank_app. intros H.
  apply in_app_or in H. destruct H as [H|H].
  - exists p. split; [now left|].
    unfold pushFillBlank in *. destruct (meaningfulWords _); simpl in *.
    + contradiction.
    + destruct H as [<-|[]]. reflexivity.
  - destruct (IH H) as [p' [Hin Hq]]. exists p'. split; [now right|exact Hq].
Qed.

Lemma fillBlankQuestions_type (this : QuizGenerator) (q : question) :
  In q (fillBlankQuestions this) -> type q = fillblank.
Proof.
  intros H. apply In_fold_pushFillBlank in H. destruct H as [p [_ H]].
  unfold pushFillBlank in H. destruct (meaningfulWords _); simpl in H.
  - discriminate.
  - inversion H. reflexivity.
Qed.

(** ** generateQuiz as a whole *)

Lemma generateQuiz_questions (this : QuizGenerator) (g : rng) :
  fst (generateQuiz this g) =
  firstn 10 (trueFalseQuestions this ++ multipleChoiceQuestions this g
             ++ fillBlankQuestions this).
Proof.
  unfold generateQuiz, multipleChoiceQuestions, fillBlankQuestions.
  rewrite pushTrueFalse_app. simpl.
  rewrite pushMultipleChoice_app.
  rewrite fold_pushFillBlank_app. simpl. now rewrite <- app_assoc.
Qed.

(** C4.  For every generator state and every outcome of the random draws,
    [generateQuiz] returns at most 10 questions: the first 10 of the
    true/false questions, followed by the multiple-choice questions,
    followed by the fill-in-the-blank questions, where each of the three
    lists has at most 5 questions, all of its own type. *)
Theorem generateQuiz_concat_truncated (this : QuizGenerator) (g : rng) :
  let tf := trueFalseQuestions this in
  let mc := multipleChoiceQuestions this g in
  let fb := fillBlankQuestions this in
  length (fst (generateQuiz this g)) <= 10
  /\ fst (generateQuiz this g) = firstn 10 (tf ++ mc ++ fb)
  /\ length tf <= 5 /\ length mc <= 5 /\ length fb <= 5
  /\ Forall (fun q => type q = truefalse) tf
  /\ Forall (fun q => type q = mcq) mc
  /\ Forall (fun q => type q = fillblank) fb.
Proof.
  intros tf mc fb.
  split; [rewrite generateQuiz_questions; apply firstn_length_le'|].
  split; [apply generateQuiz_questions|].
  split; [apply trueFalseQuestions_length|].
  split; [apply multipleChoiceQuestions_length|].
  split; [apply fillBlankQuestions_length|].
  repeat split; apply Forall_forall; intros q Hq.
  - now apply trueFalseQuestions_shape in Hq.
  - apply pushMultipleChoice_shape in Hq. apply Hq.
  - now apply fillBlankQuestions_type in Hq.
Qed.

Lemma generateQuiz_In (this : QuizGenerator) (g : rng) (q : question) :
  In q (fst (generateQuiz this g)) ->
  In q (trueFalseQuestions this) \/ In q (multipleChoiceQuestions this g)
  \/ In q (fillBlankQuestions this).
Proof.
  rewrite generateQuiz_questions. intros H.
  apply In_firstn in H.
  apply in_app_or in H. destruct H as [H|H]; [now left|].
  apply in_app_or in H. tauto.
Qed.

(** C5.  Every true/false question [generateQuiz] returns has the correct
    answer "true" and the options ["True", "False"]; its correct answer is
    never "false". *)
Theorem trueFalse_always_true (this : QuizGenerator) (g : rng) (q : question) :
  In q (fst (generateQuiz this g)) ->
  type q = truefalse ->
  correctAnswer q = lit "true"
  /\ options q = Some [lit "True"; lit "False"]
  /\ correctAnswer q <> lit "false".
Proof.
  intros Hin Hty.
  apply generateQuiz_In in Hin. destruct Hin as [H|[H|H]].
  - apply trueFalseQuestions_shape in H. destruct H as [_ [Hc Ho]].
    rewrite Hc. repeat split; [exact Ho | discriminate].
  - apply pushMultipleChoice_shape in H. destruct H as [H _]. congruence.
  - apply fillBlankQuestions_type in H. congruence.
Qed.

(** C5 on the first question of the sample run. *)
Lemma trueFalse_always_true_witness :
  In sampleTrueFalse (fst (generateQuiz sample []))
  /\ type sampleTrueFalse = truefalse
  /\ correctAnswer sampleTrueFalse = lit "true"
  /\ options sampleTrueFalse = Some [lit "True"; lit "False"]
  /\ correctAnswer sampleTrueFalse <> lit "false".
Proof.
  assert (Hin : In sampleTrueFalse (fst (generateQuiz sample [])))
    by (vm_compute; left; reflexivity).
  split; [exact Hin|]. split; [reflexivity|].
  exact (trueFalse_always_true sample [] sampleTrueFalse Hin eq_refl).
Defined.

(** ** The matcher on the patterns of the program *)

Lemma takeWhile_dropWhile (p : ascii -> bool) (s : str) :
  takeWhile p s ++ dropWhile p s = s.
Proof.
  induction s as [|c s IH]; simpl; [reflexivity|].
  destruct (p c); simpl; [now rewrite IH | reflexivity].
Qed.

Lemma takeWhile_all (p : ascii -> bool) (s : str) :
  forallb p (takeWhile p s) = true.
Proof.
  induction s as [|c s IH]; simpl; [reflexivity|].
  destruct (p c) eqn:E; simpl; [now rewrite E | reflexivity].
Qed.

Lemma repIter_S (ma : mstate -> (mstate -> option mstate) -> option mstate)
  (lo : nat) (greedy : bool) (k : mstate -> option mstate)
  (fuel i : nat) (st : mstate) :
  repIter ma lo greedy k (S fuel) i st =
  let again (_ : unit) :=
    ma st (fun st' =>
      if (lo <=? i) && (pos st' =? pos st) then None
      else repIter ma lo greedy k fuel (S i) st') in
  if i <? lo then again tt
  else if greedy
       then match again tt with Some res => Some res | None => k st end
       else match k st with Some res => Some res | None => again tt end.
Proof. reflexivity. Qed.

Lemma mrun_Chr (p : ascii -> bool) (st : mstate)
  (k : mstate -> option mstate) :
  mrun (Chr p) st k =
  match after st with
  | c :: t => if p c then k (MState (c :: before st) t (caps st)) else None
  | [] => None
  end.
Proof. reflexivity. Qed.

Lemma pos_advance (c : ascii) (bef a a' : str) (cs cs' : list (nat * str)) :
  (pos (MState (c :: bef) a cs) =? pos (MState bef a' cs')) = false.
Proof. unfold pos. cbn [before length]. apply Nat.eqb_neq. lia. Qed.

Lemma repIter_chr_greedy (p : ascii -> bool) (lo : nat) :
  forall (aft : str) (fuel i : nat) (bef : str) (cs : list (nat * str)),
    length aft <= fuel ->
    repIter (mrun (Chr p)) lo true (fun st => Some st) fuel i
      (MState bef aft cs)
    = if lo <=? i + length (takeWhile p aft)
      then Some (MState (rev (takeWhile p aft) ++ bef) (dropWhile p aft) cs)
      else None.
Proof.
  induction aft as [|c t IH]; intros fuel i bef cs Hf.
  - destruct fuel as [|fuel]; simpl; rewrite Nat.add_0_r.
    + reflexivity.
    + destruct (Nat.ltb_spec i lo) as [H|H].
      * apply Nat.leb_gt in H. now rewrite H.
      * apply Nat.leb_le in H. now rewrite H.
  - destruct fuel as [|fuel]; [simpl in Hf; lia|].
    simpl in Hf. rewrite repIter_S. cbv zeta. rewrite mrun_Chr.
    cbn [after before caps takeWhile dropWhile]. destruct (p c) eqn:Hp.
    + rewrite pos_advance, andb_false_r, IH by lia.
      cbn [length rev].
      replace (S i + length (takeWhile p t))
        with (i + S (length (takeWhile p t))) by lia.
      rewrite <- app_assoc. cbn [app].
      destruct (Nat.ltb_spec i lo) as [H|H]; [reflexivity|].
      replace (lo <=? i + S (length (takeWhile p t))) with true
        by (symmetry; apply Nat.leb_le; lia).
      reflexivity.
    + cbn [length rev app]. rewrite Nat.add_0_r.
      destruct (Nat.ltb_spec i lo) as [H|H].
      * apply Nat.leb_gt in H. now rewrite H.
      * apply Nat.leb_le in H. now rewrite H.
Qed.

Lemma firstn_rev_app (run bef : str) :
  rev (firstn (length (rev run ++ bef) - length bef) (rev run ++ bef)) = run.
Proof.
  rewrite length_app, Nat.add_sub.
  rewrite firstn_app, Nat.sub_diag, firstn_all. simpl.
  rewrite app_nil_r. apply rev_involutive.
Qed.

Lemma match_at_atLeast (p : ascii -> bool) (n : nat) (bef aft : str) :
  match_at (atLeast n (Chr p)) bef aft
  = if n <=? length (takeWhile p aft)
    then Some (RMatch (length bef) (takeWhile p aft) [])
    else None.
Proof.
  unfold match_at, atLeast.
  change (mrun (Rep (Chr p) n None true) (MState bef aft [])
            (fun st => Some st))
    with (repIter (mrun (Chr p)) n true (fun st => Some st)
            (n + length aft) 0 (MState bef aft [])).
  rewrite repIter_chr_greedy by lia. simpl.
  destruct (n <=? length (takeWhile p aft)); [|reflexivity].
  unfold pos. simpl. now rewrite firstn_rev_app.
Qed.

Lemma match_at_chr (p : ascii -> bool) (bef aft : str) :
  match_at (Chr p) bef aft
  = match aft with
    | c :: _ => if p c then Some (RMatch (length bef) [c] []) else None
    | [] => None
    end.
Proof.
  unfold match_at. simpl. destruct aft as [|c t]; [reflexivity|].
  destruct (p c); [|reflexivity].
  unfold pos. simpl.
  replace (match length bef with
           | 0 => S (length bef)
           | S l => length bef - l
           end)
    with 1 by (destruct (length bef); lia).
  reflexivity.
Qed.

(** [/\d/g] and the like: one match per character of the class. *)
Lemma scan_chr (p : ascii -> bool) (aft : str) :
  forall bef, map m_text (scan (Chr p) 0 bef aft)
              = map (fun c => [c]) (filter p aft).
Proof.
  induction aft as [|c t IH]; intros bef.
  - reflexivity.
  - cbn [scan]. rewrite match_at_chr.
    destruct (p c) eqn:Hp; cbn [filter]; rewrite Hp; simpl.
    + now rewrite IH.
    + apply IH.
Qed.

Lemma matchesOrEmpty_chr_length (p : ascii -> bool) (s : str) :
  length (matchesOrEmpty (Chr p) s) = length (filter p s).
Proof.
  unfold matchesOrEmpty, match_g, matchAll.
  assert (H : length (scan (Chr p) 0 [] s) = length (filter p s)).
  { rewrite <- (length_map m_text), scan_chr. apply length_map. }
  destruct (scan (Chr p) 0 [] s) as [|m ms].
  - exact H.
  - now rewrite length_map.
Qed.

(** [replace(/[...]/g, '')] deletes the characters of the class. *)
Lemma replace_chr_delete (p : ascii -> bool) (aft : str) :
  forall bef, replace_go (Chr p) (fun _ => []) 0 bef aft
              = filter (fun c => negb (p c)) aft.
Proof.
  induction aft as [|c t IH]; intros bef.
  - reflexivity.
  - cbn [replace_go]. rewrite match_at_chr.
    destruct (p c) eqn:Hp; cbn [filter]; rewrite Hp; simpl.
    + apply IH.
    + now rewrite IH.
Qed.

Lemma exec_from_Some (r : regex) :
  forall (aft bef : str) (m : rmatch),
    exec_from r bef aft = Some m ->
    exists pre post,
      aft = pre ++ post /\ match_at r (rev pre ++ bef) post = Some m.
Proof.
  induction aft as [|c t IH]; intros bef m H; simpl in H.
  - destruct (match_at r bef []) eqn:E; [|discriminate].
    exists [], []. simpl. split; [reflexivity | congruence].
  - destruct (match_at r bef (c :: t)) eqn:E.
    + exists [], (c :: t). simpl. split; [reflexivity | congruence].
    + apply IH in H. destruct H as [pre [post [-> H]]].
      exists (c :: pre), post. simpl. rewrite <- app_assoc. now split.
Qed.

Lemma exec_from_complete (r : regex) :
  forall (pre bef post : str) (m : rmatch),
    match_at r (rev pre ++ bef) post = Some m ->
    exists m', exec_from r bef (pre ++ post) = Some m'.
Proof.
  induction pre as [|c pre IH]; intros bef post m H; simpl in *.
  - destruct post; simpl; rewrite H; eauto.
  - destruct (match_at r bef (c :: pre ++ post)); [eauto|].
    rewrite <- app_assoc in H. simpl in H. eapply IH; eauto.
Qed.

Lemma takeWhile_three (p : ascii -> bool) (s : str) :
  3 <= length (takeWhile p s) <->
  exists a b c t, s = a :: b :: c :: t
                  /\ p a = true /\ p b = true /\ p c = true.
Proof.
  split.
  - destruct s as [|a [|b [|c t]]]; simpl;
      repeat (match goal with |- context [p ?x] => destruct (p x) eqn:? end;
              simpl); try lia.
    intros _. exists a, b, c, t. auto.
  - intros [a [b [c [t [-> [Ha [Hb Hc]]]]]]]. simpl.
    rewrite Ha, Hb, Hc. simpl. lia.
Qed.

(** [/[a-zA-Z]{3,}/.test(s)] *)
Lemma test_threeLetters (s : str) :
  test threeLetters s = true <-> hasLetterRun s.
Proof.
  unfold test, threeLetters, hasLetterRun. split.
  - destruct (exec_from _ [] s) as [m|] eqn:E; [intros _|discriminate].
    apply exec_from_Some in E. destruct E as [pre [post [-> E]]].
    rewrite match_at_atLeast in E.
    destruct (Nat.leb_spec 3 (length (takeWhile is_alpha post))) as [H|H];
      [|discriminate].
    apply takeWhile_three in H.
    destruct H as [a [b [c [t [-> H]]]]]. exists pre, a, b, c, t. now split.
  - intros [pre [a [b [c [post [-> H]]]]]].
    assert (Hm : exists m, match_at (atLeast 3 (Chr is_alpha)) (rev pre ++ [])
                             (a :: b :: c :: post) = Some m).
    { rewrite match_at_atLeast.
      assert (H3 : 3 <= length (takeWhile is_alpha (a :: b :: c :: post)))
        by (apply takeWhile_three; exists a, b, c, post; now split).
      apply Nat.leb_le in H3. rewrite H3. eauto. }
    destruct Hm as [m Hm]. apply exec_from_complete in Hm.
    destruct Hm as [m' ->]. reflexivity.
Qed.

(** [split(/\s+/)] gives the pieces between the runs of whitespace. *)
Lemma split_go_ws (aft : str) :
  (forall cur bef, split_go ws_plus 0 cur bef aft = piecesFrom false cur aft)
  /\ (forall bef,
        split_go ws_plus (length (takeWhile is_space aft)) [] bef aft
        = piecesFrom true [] aft).
Proof.
  induction aft as [|c t [IH0 IH1]].
  - split; intros; reflexivity.
  - assert (H0 : forall cur bef,
               split_go ws_plus 0 cur bef (c :: t)
               = piecesFrom false cur (c :: t)).
    { intros cur bef. cbn [split_go piecesFrom].
      change ws_plus with (atLeast 1 (Chr is_space)).
      rewrite match_at_atLeast. cbn [takeWhile].
      destruct (is_space c); cbn [length Nat.leb m_text].
      - now rewrite IH1.
      - apply IH0. }
    split; [exact H0|].
    intros bef. cbn [takeWhile piecesFrom].
    destruct (is_space c) eqn:Hc.
    + cbn [length split_go]. apply IH1.
    + cbn [length]. rewrite H0. cbn [piecesFrom]. now rewrite Hc.
Qed.

Lemma split_ws_pieces (s : str) : split ws_plus s = pieces s.
Proof.
  unfold split. destruct s as [|c t]; [reflexivity|]. apply split_go_ws.
Qed.

Lemma Qltb_lt (a b : Q) : Qltb a b = true <-> (a < b)%Q.
Proof.
  unfold Qltb. rewrite negb_true_iff. split.
  - intros H. apply Qnot_le_lt. intros Hle.
    apply Qle_bool_iff in Hle. congruence.
  - intros H. destruct (Qle_bool b a) eqn:E; [|reflexivity].
    apply Qle_bool_iff in E. exfalso. now apply (Qlt_not_le a b).
Qed.

(** ** The sentence filter *)

Lemma keepSentence_spec (s : str) :
  keepSentence s = true <->
  3 <= wordCount s
  /\ hasLetterRun s
  /\ 20 < length s
  /\ length s < 500
  /\ (ofNat (digitCount s) < ofNat (length s) * 0.5)%Q.
Proof.
  unfold keepSentence, wordCount, digitCount, oneDigit.
  rewrite !andb_true_iff, Nat.leb_le, !Nat.ltb_lt, test_threeLetters,
    Qltb_lt, matchesOrEmpty_chr_length.
  tauto.
Qed.

(** C3.  A string is among the sentences [splitSentences] keeps exactly
    when it is one of the trimmed split candidates and has at least 3
    whitespace-separated words, three letters in a row somewhere, more than
    20 and fewer than 500 characters, and fewer digits than half its
    length; so every kept sentence meets all five conditions and every
    candidate that fails one is dropped.  The kept sentences are the
    candidates that pass, in the order of the text. *)
Theorem splitSentences_keeps_exactly (text s : str) :
  splitSentences text = filter keepSentence (splitCandidates text)
  /\ (In s (splitSentences text) <->
      In s (splitCandidates text)
      /\ 3 <= wordCount s
      /\ hasLetterRun s
      /\ 20 < length s
      /\ length s < 500
      /\ (ofNat (digitCount s) < ofNat (length s) * 0.5)%Q).
Proof.
  split; [reflexivity|].
  unfold splitSentences. rewrite filter_In, keepSentence_spec. tauto.
Qed.

(** ** Sorting *)

Section SortingFacts.
Context {A : Type} (before_ : A -> A -> bool).

Lemma insertSorted_Permutation (x : A) (l : list A) :
  Permutation (insertSorted before_ x l) (x :: l).
Proof.
  induction l as [|y l IH]; simpl; [reflexivity|].
  destruct (before_ y x); [|reflexivity].
  rewrite IH. apply perm_swap.
Qed.

Lemma sortBy_Permutation (l : list A) : Permutation (sortBy before_ l) l.
Proof.
  induction l as [|x l IH]; simpl; [reflexivity|].
  rewrite insertSorted_Permutation. now constructor.
Qed.

Lemma sortBy_In (l : list A) (x : A) : In x (sortBy before_ l) <-> In x l.
Proof.
  split; apply Permutation_in;
    [|symmetry]; apply sortBy_Permutation.
Qed.

(** Elements among which none goes before another keep their order. *)
Lemma insertSorted_filter (f : A -> bool) (x : A) (l : list A) :
  (forall y, f x = true -> f y = true -> before_ y x = false) ->
  filter f (insertSorted before_ x l) = filter f (x :: l).
Proof.
  intros Hf. induction l as [|y l IH]; [reflexivity|].
  cbn [insertSorted]. destruct (before_ y x) eqn:Hb; [|reflexivity].
  cbn [filter] in *. rewrite IH.
  destruct (f x) eqn:Hx, (f y) eqn:Hy; try reflexivity.
  rewrite Hf in Hb by auto. discriminate.
Qed.

Lemma sortBy_stable (f : A -> bool) (l : list A) :
  (forall x y, f x = true -> f y = true -> before_ y x = false) ->
  filter f (sortBy before_ l) = filter f l.
Proof.
  intros Hf. induction l as [|x l IH]; [reflexivity|].
  cbn [sortBy fold_right]. fold (sortBy before_ l).
  rewrite insertSorted_filter by (intros; now apply Hf).
  cbn [filter]. now rewrite IH.
Qed.

(** The result is in order when "not before" is a total preorder. *)
Hypothesis before_asym :
  forall x y, before_ y x = true -> before_ x y = false.
Hypothesis before_trans :
  forall x y z, before_ y x = false -> before_ z y = false ->
                before_ z x = false.

Lemma insertSorted_sorted (x : A) (l : list A) :
  StronglySorted (inOrder before_) l ->
  StronglySorted (inOrder before_) (insertSorted before_ x l).
Proof.
  induction 1 as [|y l Hs IH Hy]; simpl.
  - repeat constructor.
  - destruct (before_ y x) eqn:Hb.
    + constructor; [exact IH|].
      apply Forall_forall. intros z Hz.
      apply (Permutation_in _ (insertSorted_Permutation x l)) in Hz.
      destruct Hz as [<-|Hz].
      * now apply before_asym.
      * rewrite Forall_forall in Hy. now apply Hy.
    + constructor; [now constructor|].
      constructor; [exact Hb|].
      rewrite Forall_forall in *. intros z Hz.
      apply (before_trans x y z); [exact Hb | now apply Hy].
Qed.

Lemma sortBy_sorted (l : list A) :
  StronglySorted (inOrder before_) (sortBy before_ l).
Proof.
  induction l as [|x l IH]; simpl; [constructor|].
  now apply insertSorted_sorted.
Qed.
End SortingFacts.

Lemma StronglySorted_weaken {A : Type} (R R' : A -> A -> Prop) (l : list A) :
  (forall a b, R a b -> R' a b) -> StronglySorted R l -> StronglySorted R' l.
Proof.
  intros HR. induction 1 as [|x l Hs IH Hx]; constructor; [exact IH|].
  eapply Forall_impl; [|exact Hx]. intros b. apply HR.
Qed.

(** ** Key sentences *)

Lemma Qltb_asym (x y : Q) : Qltb x y = true -> Qltb y x = false.
Proof.
  intros H. apply Qltb_lt in H. destruct (Qltb y x) eqn:E; [|reflexivity].
  apply Qltb_lt in E. exfalso. apply (Qlt_irrefl x). now apply Qlt_trans with y.
Qed.

Lemma Qltb_false (x y : Q) : Qltb x y = false <-> (y <= x)%Q.
Proof.
  unfold Qltb. rewrite negb_false_iff. apply Qle_bool_iff.
Qed.

Lemma In_scoredSentences (this : QuizGenerator) (s : str) (sc : Q) :
  In (s, sc) (scoredSentences this) ->
  exists idx, nth_error (sentences this) idx = Some s
              /\ sc = sentenceScore idx s.
Proof.
  unfold scoredSentences, indexed. intros H.
  apply in_map_iff in H. destruct H as [[idx s'] [Heq Hin]].
  simpl in Heq. inversion Heq; subst.
  apply In_indexedFrom in Hin. destruct Hin as [_ Hn].
  rewrite Nat.sub_0_r in Hn. eauto.
Qed.

(** C6.  [extractKeySentences] with parameter N (10 when none is given)
    sorts the scored sentences by descending score (sentences of equal
    score staying in their order), keeps the first 2N of them, keeps of
    these the ones with a positive score, and returns the sentences of the
    first N of those: at most N sentences, each of them a sentence whose
    score, at its place in the sentence list, is positive. *)
Theorem extractKeySentences_top_positive (this : QuizGenerator)
  (arg : option nat) :
  let N := orDefault 10 arg in
  orDefault 10 None = 10
  /\ exists sorted : list (str * Q),
       Permutation sorted (scoredSentences this)
       /\ StronglySorted (fun a b => (snd b <= snd a)%Q) sorted
       /\ (forall c, filter (fun e => Qeq_bool (snd e) c) sorted
                     = filter (fun e => Qeq_bool (snd e) c)
                         (scoredSentences this))
       /\ extractKeySentences this arg
          = map fst (firstn N (filter (fun s => Qltb 0 (snd s))
                                 (firstn (N * 2) sorted)))
       /\ length (extractKeySentences this arg) <= N
       /\ forall s, In s (extractKeySentences this arg) ->
                    exists idx, nth_error (sentences this) idx = Some s
                                /\ (0 < sentenceScore idx s)%Q.
Proof.
  intros N. split; [reflexivity|].
  set (cmp := fun a b : str * Q => Qltb (snd b) (snd a)).
  exists (sortBy cmp (scoredSentences this)).
  split; [apply sortBy_Permutation|].
  split.
  { eapply StronglySorted_weaken; [|apply (sortBy_sorted cmp)].
    - intros a b H. unfold inOrder, cmp in H. now apply Qltb_false in H.
    - intros x y H. now apply Qltb_asym.
    - unfold cmp. intros x y z H1 H2. apply Qltb_false in H1, H2.
      apply Qltb_false. now apply Qle_trans with (snd y). }
  split.
  { intros c. apply sortBy_stable. unfold cmp. intros x y Hx Hy.
    apply Qeq_bool_iff in Hx, Hy. apply Qltb_false.
    rewrite Hx, Hy. apply Qle_refl. }
  split; [reflexivity|].
  split.
  { unfold extractKeySentences. rewrite length_map. apply firstn_length_le'. }
  intros s Hs. unfold extractKeySentences in Hs.
  apply in_map_iff in Hs. destruct Hs as [[s' sc] [Heq Hin]].
  simpl in Heq. subst s'.
  apply In_firstn in Hin. apply filter_In in Hin. destruct Hin as [Hin Hpos].
  apply In_firstn in Hin. apply sortBy_In in Hin.
  apply In_scoredSentences in Hin. destruct Hin as [idx [Hn ->]].
  exists idx. split; [exact Hn|]. now apply Qltb_lt in Hpos.
Qed.

(** ** The vocabulary score *)

Lemma includes_occurrences (s w : str) :
  includes s w = true <-> 1 <= occurrences s w.
Proof.
  induction s as [|c s IH]; cbn [includes occurrences].
  - destruct (startsWith [] w); cbn [orb Nat.add].
    + split; intros; [lia | reflexivity].
    + split; intros H; [discriminate | lia].
  - destruct (startsWith (c :: s) w); cbn [orb Nat.add].
    + split; intros; [lia | reflexivity].
    + exact IH.
Qed.

Lemma vocabulary_fold (lower : str) (words : list str) :
  forall score : Q,
    (fold_left
       (fun score word => if includes lower word then score + 3 else score)
       words score
     == score + 3 * ofNat (length (filter (includes lower) words)))%Q.
Proof.
  induction words as [|w words IH]; intros score; simpl.
  - unfold ofNat. simpl. ring.
  - rewrite IH. destruct (includes lower w); [|reflexivity].
    unfold ofNat. cbn [length]. rewrite Nat2Z.inj_succ, <- Z.add_1_r.
    rewrite inject_Z_plus. ring.
Qed.

Lemma sentenceScore_parts (idx : nat) (sentence : str) :
  (sentenceScore idx sentence
   == vocabularyScore (toLowerCase sentence) 0 + otherPoints idx sentence)%Q.
Proof.
  unfold sentenceScore, otherPoints.
  generalize (vocabularyScore (toLowerCase sentence) 0). intros v.
  destruct (idx <? 5), (idx <? 10);
    destruct ((8 <=? length (split ws_plus sentence))
              && (length (split ws_plus sentence) <=? 25)),
             ((5 <=? length (split ws_plus sentence))
              && (length (split ws_plus sentence) <=? 30));
    destruct (match_g properNoun sentence);
    destruct (3 <? length (matchesOrEmpty digitRun sentence));
    destruct (includes sentence ":"); ring.
Qed.

(** C1, as the code has it.  The vocabulary has 23 terms, all in lower
    case, and the sentence is put in lower case before the search.  The
    vocabulary component of the score is 3 points for each term that occurs
    in the sentence at least once: a term adds 3 points when it occurs,
    whatever the number of its occurrences, and nothing when it does not.
    The sentence score is this component plus the other points. *)
Theorem vocabulary_three_per_term_present (idx : nat) (sentence : str)
  (score : Q) :
  let lower := toLowerCase sentence in
  length importantWords = 23
  /\ Forall (fun w => toLowerCase w = w) importantWords
  /\ (vocabularyScore lower score
      == score + 3 * ofNat (length (filter (includes lower) importantWords)))%Q
  /\ (forall w,
        ((if includes lower w then score + 3 else score)
         == score + (if 1 <=? occurrences lower w then 3 else 0))%Q)
  /\ (sentenceScore idx sentence
      == vocabularyScore lower 0 + otherPoints idx sentence)%Q.
Proof.
  intros lower. split; [reflexivity|].
  split; [repeat constructor|].
  split; [apply vocabulary_fold|].
  split; [|apply sentenceScore_parts].
  intros w. destruct (includes lower w) eqn:E.
  - apply includes_occurrences in E. apply Nat.leb_le in E. rewrite E.
    reflexivity.
  - destruct (Nat.leb_spec 1 (occurrences lower w)) as [H|H].
    + apply includes_occurrences in H. congruence.
    + ring.
Qed.

(** C1, as stated, fails: "key" occurs twice in the sample sentence and no
    other term occurs, so 6 points would be due, and the code gives 3. *)
Lemma vocabulary_per_occurrence_fails :
  occurrences (toLowerCase sampleKeySentence) (lit "key") = 2
  /\ (perOccurrencePoints (toLowerCase sampleKeySentence) == 6)%Q
  /\ (vocabularyScore (toLowerCase sampleKeySentence) 0 == 3)%Q
  /\ ~ (vocabularyScore (toLowerCase sampleKeySentence) 0
        == perOccurrencePoints (toLowerCase sampleKeySentence))%Q.
Proof.
  split; [vm_compute; reflexivity|].
  split; [vm_compute; reflexivity|].
  split; [vm_compute; reflexivity|].
  intros H. vm_compute in H. discriminate.
Qed.

(** ** Anchored patterns, lower case and deletion *)

Lemma repIter_chr_eol (p : ascii -> bool) (lo : nat) :
  forall (aft : str) (fuel i : nat) (bef : str) (cs : list (nat * str)),
    length aft <= fuel ->
    repIter (mrun (Chr p)) lo true
      (fun st' => mrun Eol st' (fun st => Some st)) fuel i (MState bef aft cs)
    = if forallb p aft && (lo <=? i + length aft)
      then Some (MState (rev aft ++ bef) [] cs)
      else None.
Proof.
  induction aft as [|c t IH]; intros fuel i bef cs Hf.
  - destruct fuel as [|fuel]; simpl; rewrite Nat.add_0_r.
    + reflexivity.
    + destruct (Nat.ltb_spec i lo) as [H|H].
      * apply Nat.leb_gt in H. now rewrite H.
      * apply Nat.leb_le in H. now rewrite H.
  - destruct fuel as [|fuel]; [simpl in Hf; lia|].
    simpl in Hf. rewrite repIter_S. cbv zeta. rewrite mrun_Chr.
    cbn [after before caps forallb]. destruct (p c) eqn:Hp.
    + rewrite pos_advance, andb_false_r, IH by lia.
      cbn [length rev andb].
      replace (S i + length t) with (i + S (length t)) by lia.
      rewrite <- app_assoc. cbn [app].
      destruct (Nat.ltb_spec i lo) as [H|H]; [reflexivity|].
      destruct (forallb p t && (lo <=? i + S (length t))); reflexivity.
    + cbn [andb]. destruct (i <? lo); reflexivity.
Qed.

Lemma match_at_anchored (p : ascii -> bool) (bef aft : str) :
  match_at (seq [Bol; plus (Chr p); Eol]) bef aft
  = match bef with
    | [] => if forallb p aft && (1 <=? length aft)
            then Some (RMatch 0 aft [])
            else None
    | _ :: _ => None
    end.
Proof.
  unfold match_at. destruct bef as [|b bef]; [|reflexivity].
  change (mrun (seq [Bol; plus (Chr p); Eol]) (MState [] aft [])
            (fun st => Some st))
    with (repIter (mrun (Chr p)) 1 true
            (fun st' => mrun Eol st' (fun st => Some st))
            (1 + length aft) 0 (MState [] aft [])).
  rewrite repIter_chr_eol by lia. cbn [Nat.add].
  destruct (forallb p aft && (1 <=? length aft)); [|reflexivity].
  unfold pos. cbn [before length]. rewrite app_nil_r, Nat.sub_0_r.
  rewrite length_rev, <- (length_rev aft), firstn_all, rev_involutive.
  reflexivity.
Qed.

Lemma exec_from_anchored_later (p : ascii -> bool) (aft : str) :
  forall b bef,
    exec_from (seq [Bol; plus (Chr p); Eol]) (b :: bef) aft = None.
Proof.
  induction aft as [|c t IH]; intros b bef; cbn [exec_from];
    rewrite match_at_anchored; [reflexivity | apply IH].
Qed.

(** [/^[...]+$/.test(w)]: [w] is not empty and made of the class. *)
Lemma test_anchored (p : ascii -> bool) (w : str) :
  test (seq [Bol; plus (Chr p); Eol]) w = true
  <-> w <> [] /\ forallb p w = true.
Proof.
  unfold test. destruct w as [|c t].
  - cbn [exec_from]. rewrite match_at_anchored. simpl.
    split; [discriminate | intros [H _]; now elim H].
  - cbn [exec_from]. rewrite match_at_anchored, exec_from_anchored_later.
    cbn [length Nat.leb]. rewrite andb_true_r.
    destruct (forallb p (c :: t)); split; try reflexivity; try discriminate.
    + intros _. split; [discriminate | reflexivity].
    + intros [_ H]. discriminate.
Qed.

Lemma str_eqb_eq (a b : str) : str_eqb a b = true <-> a = b.
Proof.
  unfold str_eqb. destruct (str_dec a b); split;
    intros; try reflexivity; try assumption; try discriminate; contradiction.
Qed.

Lemma notLower_delete (s : str) :
  replace notLower (fun _ => []) s = filter is_lower s.
Proof.
  unfold replace, notLower. rewrite replace_chr_delete.
  apply filter_ext. intros c. apply negb_involutive.
Qed.

Lemma is_alpha_lower_char (c : ascii) :
  is_alpha c = true -> is_lower (lower_char c) = true.
Proof.
  destruct c as [[] [] [] [] [] [] [] []]; vm_compute;
    intros H; (reflexivity || discriminate H).
Qed.

Lemma filter_all {A : Type} (f : A -> bool) (l : list A) :
  forallb f l = true -> filter f l = l.
Proof.
  induction l as [|x l IH]; simpl; [reflexivity|].
  destruct (f x); simpl; [intros H; now rewrite IH | discriminate].
Qed.

Lemma toLowerCase_letters (w : str) :
  forallb is_alpha w = true ->
  forallb is_lower (toLowerCase w) = true.
Proof.
  induction w as [|c w IH]; simpl; [reflexivity|].
  rewrite !andb_true_iff. intros [Hc Hw].
  split; [now apply is_alpha_lower_char | now apply IH].
Qed.

(** ** Fill-in-the-blank answers *)

Lemma meaningfulWords_head (words : list str) (first : nat * str)
  (rest : list (nat * str)) :
  meaningfulWords words = first :: rest ->
  nth (fst first) words [] = snd first
  /\ 4 < length (snd first)
  /\ test lettersOnly (snd first) = true.
Proof.
  intros H.
  assert (Hin : In first (meaningfulWords words)) by (rewrite H; now left).
  unfold meaningfulWords in Hin. apply sortBy_In in Hin.
  apply filter_In in Hin. destruct Hin as [Hin Hp].
  apply andb_true_iff in Hp. destruct Hp as [Hlen Hal].
  apply Nat.ltb_lt in Hlen.
  destruct first as [i w]. apply In_indexedFrom in Hin.
  destruct Hin as [_ Hn]. rewrite Nat.sub_0_r in Hn. simpl in *.
  split; [now apply nth_error_nth | now split].
Qed.

Lemma pushFillBlank_answer (p : nat * str) (q : question) :
  pushFillBlank [] p = [q] ->
  exists word,
    4 < length word /\ forallb is_alpha word = true
    /\ correctAnswer q = toLowerCase word.
Proof.
  unfold pushFillBlank.
  destruct (meaningfulWords (split ws_plus (snd p))) as [|first rest] eqn:E;
    [discriminate|].
  apply meaningfulWords_head in E. destruct E as [Hn [Hlen Hal]].
  apply test_anchored in Hal. destruct Hal as [_ Hal].
  intros H. inversion H; subst q; clear H. cbn [correctAnswer].
  exists (snd first). rewrite Hn, notLower_delete.
  rewrite filter_all by now apply toLowerCase_letters. auto.
Qed.

(** C10.  Every fill-in-the-blank question [generateQuiz] returns stores as
    its correct answer the lower-case form of the blanked word, a word of
    more than 4 characters, all letters: the stored answer is not empty,
    matches [^[a-z]+$] and has at least 5 characters. *)
Theorem fillblank_answer_shape (this : QuizGenerator) (g : rng)
  (q : question) :
  In q (fst (generateQuiz this g)) ->
  type q = fillblank ->
  exists word,
    4 < length word /\ forallb is_alpha word = true
    /\ correctAnswer q = toLowerCase word
    /\ correctAnswer q <> []
    /\ test lowerOnly (correctAnswer q) = true
    /\ 5 <= length (correctAnswer q).
Proof.
  intros Hin Hty. apply generateQuiz_In in Hin.
  destruct Hin as [H|[H|H]].
  - apply trueFalseQuestions_shape in H. destruct H as [H _]. congruence.
  - apply pushMultipleChoice_shape in H. destruct H as [H _]. congruence.
  - apply In_fold_pushFillBlank in H. destruct H as [p [_ H]].
    apply pushFillBlank_answer in H. destruct H as [word [Hlen [Hal Hc]]].
    exists word.
    assert (Hne : correctAnswer q <> []).
    { rewrite Hc. destruct word; simpl in *; [lia | discriminate]. }
    repeat split; auto.
    + apply test_anchored. split; [exact Hne|].
      rewrite Hc. now apply toLowerCase_letters.
    + rewrite Hc. unfold toLowerCase. rewrite length_map. lia.
Qed.

(** C10 on the question made from the sentence about plants. *)
Lemma fillblank_answer_shape_witness :
  In sampleFillBlank (fst (generateQuiz (newQuizGenerator samplePlantText) []))
  /\ type sampleFillBlank = fillblank
  /\ exists word,
       4 < length word /\ forallb is_alpha word = true
       /\ correctAnswer sampleFillBlank = toLowerCase word
       /\ correctAnswer sampleFillBlank <> []
       /\ test lowerOnly (correctAnswer sampleFillBlank) = true
       /\ 5 <= length (correctAnswer sampleFillBlank).
Proof.
  assert (Hin : In sampleFillBlank
                  (fst (generateQuiz (newQuizGenerator samplePlantText) [])))
    by (vm_compute; right; left; reflexivity).
  split; [exact Hin|]. split; [reflexivity|].
  exact (fillblank_answer_shape (newQuizGenerator samplePlantText) []
           sampleFillBlank Hin eq_refl).
Defined.

(** ** Grading *)






(** ** Raw PDF text extraction *)

(** C9, as the code has it.  When the text from the BT/ET groups has 100
    characters or more it is kept.  When it is shorter, the whole buffer is
    searched for runs of three or more letters: if there is such a run, the
    text becomes the matches joined with spaces and the BT/ET text is
    dropped; if there is none, the BT/ET text is kept.  What the function
    resolves with is that text cleaned, or the fixed message when fewer
    than 50 characters are left. *)
Theorem fallback_scan_when_short (uint8Array : list Byte.byte) :
  let binaryText := binaryTextOf uint8Array in
  let primary := extractBT binaryText in
  let result := extractedBeforeCleanup binaryText in
  (100 <= length primary -> result = primary)
  /\ (length primary < 100 ->
      forall readableMatches,
        match_g readablePattern binaryText = Some readableMatches ->
        readableMatches <> []
        /\ result = join (lit " ") readableMatches)
  /\ (length primary < 100 ->
      match_g readablePattern binaryText = None ->
      result = primary)
  /\ extractPDFTextRaw uint8Array
     = (if length (cleanupEscapes result) <? 50 then limitedMessage
        else cleanupEscapes result).
Proof.
  intros binaryText primary result.
  unfold result, extractedBeforeCleanup. fold primary.
  split; [intros H; apply Nat.ltb_ge in H; now rewrite H|].
  split.
  { intros H ms Hms. apply Nat.ltb_lt in H. rewrite H, Hms.
    split; [|reflexivity].
    unfold match_g in Hms.
    destruct (matchAll readablePattern binaryText); [discriminate|].
    inversion Hms. discriminate. }
  split; [|reflexivity].
  intros H Hnone. apply Nat.ltb_lt in H. now rewrite H, Hnone.
Qed.

(** ** Words, trimming and joining *)

Lemma dropWhile_startsClean (s : str) : startsClean (dropWhile is_space s).
Proof.
  induction s as [|c s IH]; simpl; [exact I|].
  destruct (is_space c) eqn:E; [exact IH | exact E].
Qed.

Lemma dropWhile_snoc (p : ascii -> bool) (l : str) (c : ascii) :
  p c = false -> dropWhile p (l ++ [c]) = dropWhile p l ++ [c].
Proof.
  intros Hc. induction l as [|x l IH]; simpl.
  - now rewrite Hc.
  - destruct (p x); [exact IH | reflexivity].
Qed.

Lemma trim_trimmed (x : str) : trimmed (trim x).
Proof.
  unfold trimmed, trim, trimEnd, trimStart. split.
  - pose proof (dropWhile_startsClean x) as H.
    destruct (dropWhile is_space x) as [|c y]; [exact I|].
    simpl in H. cbn [rev]. rewrite dropWhile_snoc by exact H.
    rewrite rev_app_distr. exact H.
  - rewrite rev_involutive. apply dropWhile_startsClean.
Qed.

Lemma startsClean_rev_tail (c : ascii) (t : str) :
  t <> [] -> startsClean (rev (c :: t)) -> startsClean (rev t).
Proof.
  intros Ht. cbn [rev].
  destruct (rev t) as [|d r] eqn:E.
  - apply (f_equal (@rev ascii)) in E. rewrite rev_involutive in E.
    now elim Ht.
  - auto.
Qed.

Lemma isWord_rev (cur : str) :
  cur <> [] -> forallb (fun c => negb (is_space c)) cur = true ->
  isWord (rev cur).
Proof.
  intros Hne Hall. split.
  - intros E. apply Hne. rewrite <- (rev_involutive cur), E. reflexivity.
  - rewrite forallb_forall in *. intros c Hc. apply Hall. now apply in_rev.
Qed.

(** The pieces of a string that starts and ends clean are words. *)
Lemma piecesFrom_words (s : str) :
  forall (insep : bool) (cur : str),
    forallb (fun c => negb (is_space c)) cur = true ->
    (s = [] -> cur <> []) ->
    (insep = false -> cur = [] -> startsClean s) ->
    startsClean (rev s) ->
    Forall isWord (piecesFrom insep cur s).
Proof.
  induction s as [|c t IH]; intros insep cur Hcur Hnil Hhead Hlast.
  - constructor; [|constructor]. apply isWord_rev; auto.
  - cbn [piecesFrom]. destruct (is_space c) eqn:Hc.
    + assert (Ht : t <> []).
      { intros ->. simpl in Hlast. congruence. }
      assert (Hlast' : startsClean (rev t))
        by (now apply (startsClean_rev_tail c)).
      destruct insep.
      * apply IH; auto. discriminate.
      * constructor.
        -- apply isWord_rev; [|exact Hcur].
           intros ->. specialize (Hhead eq_refl eq_refl). simpl in Hhead.
           congruence.
        -- apply IH; auto; discriminate.
    + apply IH.
      * cbn [forallb]. now rewrite Hc, Hcur.
      * discriminate.
      * discriminate.
      * destruct t as [|d t']; [exact I|].
        apply (startsClean_rev_tail c); [discriminate | exact Hlast].
Qed.

Lemma pieces_trimmed_words (s : str) :
  s <> [] -> trimmed s -> Forall isWord (pieces s).
Proof.
  intros Hne [Hh Hl]. apply piecesFrom_words; auto.
Qed.

Lemma piecesFrom_through_word (w : str) :
  forallb (fun c => negb (is_space c)) w = true ->
  w <> [] ->
  forall (insep : bool) (cur rest : str),
    piecesFrom insep cur (w ++ rest) = piecesFrom false (rev w ++ cur) rest.
Proof.
  induction w as [|c w IH]; intros Hall Hne insep cur rest; [now elim Hne|].
  cbn [forallb] in Hall. apply andb_true_iff in Hall.
  destruct Hall as [Hc Hw]. apply negb_true_iff in Hc.
  cbn [app piecesFrom rev]. rewrite Hc, <- app_assoc. cbn [app].
  destruct w as [|d w'].
  - reflexivity.
  - apply IH; [exact Hw | discriminate].
Qed.

Lemma pieces_join (ws : list str) :
  ws <> [] -> Forall isWord ws ->
  forall insep, piecesFrom insep [] (join (lit " ") ws) = ws.
Proof.
  induction ws as [|x ws IH]; intros Hne Hall insep; [now elim Hne|].
  inversion Hall as [|x' ws' [Hx Hxs] Hws]; subst.
  destruct ws as [|y t].
  - cbn [join]. rewrite <- (app_nil_r x) at 1.
    rewrite piecesFrom_through_word by auto.
    cbn [piecesFrom]. now rewrite app_nil_r, rev_involutive.
  - change (join (lit " ") (x :: y :: t))
      with (x ++ lit " " ++ join (lit " ") (y :: t)).
    rewrite piecesFrom_through_word by auto.
    change (lit " " ++ join (lit " ") (y :: t))
      with (" "%char :: join (lit " ") (y :: t)).
    cbn [piecesFrom]. change (is_space " "%char) with true. cbv iota.
    rewrite app_nil_r, rev_involutive, IH; [reflexivity | discriminate | auto].
Qed.

Lemma join_snoc (sep : str) (ws : list str) (w : str) :
  ws <> [] -> join sep ws ++ sep ++ w = join sep (ws ++ [w]).
Proof.
  induction ws as [|x ws IH]; intros Hne; [now elim Hne|].
  destruct ws as [|y t].
  - reflexivity.
  - change (join sep (x :: y :: t)) with (x ++ sep ++ join sep (y :: t)).
    change (join sep ((x :: y :: t) ++ [w]))
      with (x ++ sep ++ join sep ((y :: t) ++ [w])).
    rewrite <- IH by discriminate. now rewrite <- !app_assoc.
Qed.

(** ** Distractors *)

Lemma isWord_incorrect : isWord (lit "(incorrect)").
Proof. split; [discriminate | reflexivity]. Qed.

Lemma pieces_with_suffix (ws : list str) :
  ws <> [] -> Forall isWord ws ->
  pieces (join (lit " ") ws ++ lit " (incorrect)")
  = ws ++ [lit "(incorrect)"].
Proof.
  intros Hne Hall.
  change (lit " (incorrect)") with (lit " " ++ lit "(incorrect)").
  rewrite join_snoc by exact Hne. unfold pieces.
  apply pieces_join.
  - destruct ws; discriminate.
  - apply Forall_app. split; [exact Hall|].
    constructor; [apply isWord_incorrect | constructor].
Qed.

Lemma half_bounds (n : nat) : 3 <= n -> 1 <= n / 2 /\ n / 2 + 1 < n.
Proof.
  intros H. pose proof (Nat.div_mod_eq n 2) as E.
  pose proof (Nat.mod_upper_bound n 2 ltac:(lia)). lia.
Qed.

Lemma pieces_nil_length : length (pieces []) = 1.
Proof. reflexivity. Qed.

(** The first-half distractor is never the definition. *)
Lemma distractor1_differs (definition : str) :
  trimmed definition -> 3 <= length (split ws_plus definition) ->
  distractor1 definition <> definition.
Proof.
  unfold distractor1. rewrite split_ws_pieces. intros Htr Hn Heq.
  assert (Hne : definition <> []).
  { intros ->. rewrite pieces_nil_length in Hn. lia. }
  pose proof (pieces_trimmed_words definition Hne Htr) as Hw.
  set (ws := pieces definition) in *.
  destruct (half_bounds (length ws) Hn) as [Hm1 Hm2].
  apply (f_equal pieces) in Heq. fold ws in Heq.
  rewrite pieces_with_suffix in Heq.
  - apply (f_equal (@length str)) in Heq.
    rewrite length_app, length_firstn in Heq. cbn [length] in Heq. lia.
  - intros E. apply (f_equal (@length str)) in E.
    rewrite length_firstn in E. cbn [length] in E. lia.
  - rewrite Forall_forall in *. intros w Hin. apply Hw.
    now apply In_firstn in Hin.
Qed.

Lemma In_skipn {A : Type} (n : nat) (l : list A) (x : A) :
  In x (skipn n l) -> In x l.
Proof.
  revert l. induction n as [|n IH]; intros [|y l]; simpl; try tauto.
  intros H. right. now apply IH.
Qed.

(** The second-half distractor is the definition for one definition
    only. *)
Lemma distractor2_same (definition : str) :
  trimmed definition -> 3 <= length (split ws_plus definition) ->
  (distractor2 definition = definition <-> definition = tripleIncorrect).
Proof.
  intros Htr Hn. split; [|intros ->; vm_compute; reflexivity].
  unfold distractor2. rewrite split_ws_pieces in *. intros Heq.
  assert (Hne : definition <> []).
  { intros ->. rewrite pieces_nil_length in Hn. lia. }
  pose proof (pieces_trimmed_words definition Hne Htr) as Hw.
  pose proof Heq as Hp. apply (f_equal pieces) in Hp.
  set (ws := pieces definition) in *.
  destruct (half_bounds (length ws) Hn) as [Hm1 Hm2].
  rewrite pieces_with_suffix in Hp.
  - assert (Hlen : length ws - length ws / 2 + 1 = length ws).
    { apply (f_equal (@length str)) in Hp.
      rewrite length_app, length_skipn in Hp. cbn [length] in Hp.
      exact Hp. }
    assert (Hhalf : length ws / 2 = 1) by lia.
    assert (H3 : length ws = 3).
    { pose proof (Nat.div_mod_eq (length ws) 2).
      pose proof (Nat.mod_upper_bound (length ws) 2 ltac:(lia)). lia. }
    rewrite Hhalf in Hp, Heq.
    destruct ws as [|a [|b [|c [|d ws']]]]; try discriminate.
    cbn [skipn app] in Hp. injection Hp as Ea Eb Ec.
    assert (Hc : c = lit "(incorrect)") by (symmetry; exact Ec).
    assert (Hb : b = lit "(incorrect)") by congruence.
    rewrite <- Heq. cbn [skipn]. rewrite Hb, Hc. reflexivity.
  - intros E. apply (f_equal (@length str)) in E.
    rewrite length_skipn in E. cbn [length] in E. lia.
  - rewrite Forall_forall in *. intros w Hin. apply Hw.
    now apply In_skipn in Hin.
Qed.

Lemma timesOffered_Permutation (a : str) (l l' : list str) :
  Permutation l l' -> timesOffered a l = timesOffered a l'.
Proof.
  intros H. unfold timesOffered.
  now apply (Permutation_count_occ str_dec).
Qed.

(** ** Multiple-choice options *)

Lemma mcqShape_options (q : question) :
  mcqShape q ->
  exists opts,
    options q = Some opts
    /\ length opts = 4
    /\ Permutation opts
         [ correctAnswer q; distractor1 (correctAnswer q);
           distractor2 (correctAnswer q); distractor3 ]
    /\ 1 <= timesOffered (correctAnswer q) opts <= 2
    /\ (timesOffered (correctAnswer q) opts = 1
        <-> correctAnswer q <> distractor3
            /\ correctAnswer q <> tripleIncorrect).
Proof.
  intros [_ [[m Hm] [Hn [opts [Ho Hp]]]]].
  exists opts. split; [exact Ho|].
  split; [now rewrite (Permutation_length Hp)|].
  split; [exact Hp|].
  assert (Htr : trimmed (correctAnswer q)) by (rewrite Hm; apply trim_trimmed).
  pose proof (distractor1_differs _ Htr Hn) as H1.
  pose proof (distractor2_same _ Htr Hn) as H2.
  rewrite (timesOffered_Permutation _ _ _ Hp).
  unfold timesOffered. cbn [count_occ].
  destruct (str_dec (correctAnswer q) (correctAnswer q)) as [_|E];
    [|now elim E].
  destruct (str_dec (distractor1 (correctAnswer q)) (correctAnswer q))
    as [E|_]; [now elim H1|].
  assert (Hnot : distractor3 <> tripleIncorrect) by discriminate.
  destruct (str_dec (distractor2 (correctAnswer q)) (correctAnswer q))
    as [E2|E2];
    destruct (str_dec distractor3 (correctAnswer q)) as [E3|E3].
  - exfalso. apply H2 in E2. congruence.
  - split; [lia|]. split; [lia|]. intros [_ H]. apply H2 in E2. congruence.
  - split; [lia|]. split; [lia|]. intros [H _]. congruence.
  - split; [lia|]. split; [intros _|reflexivity].
    split; [congruence|]. intros E. apply H2 in E. congruence.
Qed.

(** C2, as the code has it.  Every multiple-choice question [generateQuiz]
    returns has exactly 4 options: the correct answer, the two
    half-definition distractors and "None of the above", in some order.
    The correct answer is among them once or twice: once, unless the
    definition is itself "None of the above" or is "(incorrect)
    (incorrect) (incorrect)", the one definition its second-half
    distractor repeats. *)
Theorem mcq_four_options_with_answer (this : QuizGenerator) (g : rng)
  (q : question) :
  In q (fst (generateQuiz this g)) ->
  type q = mcq ->
  exists opts,
    options q = Some opts
    /\ length opts = 4
    /\ Permutation opts
         [ correctAnswer q; distractor1 (correctAnswer q);
           distractor2 (correctAnswer q); distractor3 ]
    /\ 1 <= timesOffered (correctAnswer q) opts <= 2
    /\ (timesOffered (correctAnswer q) opts = 1
        <-> correctAnswer q <> distractor3
            /\ correctAnswer q <> tripleIncorrect).
Proof.
  intros Hin Hty. apply generateQuiz_In in Hin.
  destruct Hin as [H|[H|H]].
  - apply trueFalseQuestions_shape in H. destruct H as [H _]. congruence.
  - apply pushMultipleChoice_shape in H. now apply mcqShape_options.
  - apply fillBlankQuestions_type in H. congruence.
Qed.

(** C2 on the multiple-choice question of the sample run, with every
    random draw 0. *)
Lemma mcq_four_options_with_answer_witness :
  In sampleMultipleChoice (fst (generateQuiz sample []))
  /\ type sampleMultipleChoice = mcq
  /\ exists opts,
       options sampleMultipleChoice = Some opts
       /\ length opts = 4
       /\ Permutation opts
            [ correctAnswer sampleMultipleChoice;
              distractor1 (correctAnswer sampleMultipleChoice);
              distractor2 (correctAnswer sampleMultipleChoice); distractor3 ]
       /\ 1 <= timesOffered (correctAnswer sampleMultipleChoice) opts <= 2
       /\ (timesOffered (correctAnswer sampleMultipleChoice) opts = 1
           <-> correctAnswer sampleMultipleChoice <> distractor3
               /\ correctAnswer sampleMultipleChoice <> tripleIncorrect).
Proof.
  assert (Hin : In sampleMultipleChoice (fst (generateQuiz sample [])))
    by (vm_compute; do 3 right; left; reflexivity).
  split; [exact Hin|]. split; [reflexivity|].
  exact (mcq_four_options_with_answer sample [] sampleMultipleChoice
           Hin eq_refl).
Defined.

(** C2, as stated, fails: for the definition "None of the above" two of the
    four options are the correct answer. *)
Lemma mcq_answer_offered_twice :
  In sampleAmbiguous
    (fst (generateQuiz (newQuizGenerator sampleAmbiguousText) []))
  /\ type sampleAmbiguous = mcq
  /\ options sampleAmbiguous
     = Some [ lit "None of (incorrect)"; lit "the above (incorrect)";
              lit "None of the above"; lit "None of the above" ]
  /\ timesOffered (correctAnswer sampleAmbiguous)
       [ lit "None of (incorrect)"; lit "the above (incorrect)";
         lit "None of the above"; lit "None of the above" ] = 2.
Proof.
  split; [vm_compute; right; left; reflexivity|].
  repeat split; reflexivity.
Qed.

(** C9, as stated, fails: the BT/ET text "12 " is shorter than 100
    characters and the buffer has no run of three letters, so the join of
    the matches is empty, yet the BT/ET text is kept. *)
Lemma fallback_keeps_short_primary :
  length (extractBT (binaryTextOf sampleBytes)) < 100
  /\ matchesOrEmpty readablePattern (binaryTextOf sampleBytes) = []
  /\ extractedBeforeCleanup (binaryTextOf sampleBytes) = lit "12 "
  /\ extractedBeforeCleanup (binaryTextOf sampleBytes)
     <> join (lit " ")
          (matchesOrEmpty readablePattern (binaryTextOf sampleBytes)).
Proof.
  split; [vm_compute; lia|].
  split; [vm_compute; reflexivity|].
  split; [vm_compute; reflexivity|].
  vm_compute. discriminate.
Qed.

(** ** Sorted lists *)

Lemma StronglySorted_map {A B : Type} (f : A -> B) (R : B -> B -> Prop)
  (l : list A) :
  StronglySorted (fun a b => R (f a) (f b)) l <-> StronglySorted R (map f l).
Proof.
  induction l as [|x l IH]; simpl.
  - split; constructor.
  - split; intros H; inversion H; subst; constructor;
      try (now apply IH); rewrite Forall_map in *; assumption.
Qed.

Lemma StronglySorted_filter {A : Type} (R : A -> A -> Prop) (f : A -> bool)
  (l : list A) :
  StronglySorted R l -> StronglySorted R (filter f l).
Proof.
  induction 1 as [|x l Hs IH Hx]; simpl; [constructor|].
  destruct (f x); [|exact IH].
  constructor; [exact IH|].
  rewrite Forall_forall in *. intros y Hy. apply Hx.
  now apply filter_In in Hy.
Qed.

Lemma StronglySorted_firstn {A : Type} (R : A -> A -> Prop) (n : nat)
  (l : list A) :
  StronglySorted R l -> StronglySorted R (firstn n l).
Proof.
  intros H. revert n. induction H as [|x l Hs IH Hx]; intros [|n]; simpl;
    try constructor.
  - apply IH.
  - rewrite Forall_forall in *. intros y Hy. apply Hx.
    now apply In_firstn in Hy.
Qed.

Lemma StronglySorted_snoc {A : Type} (R : A -> A -> Prop) (l : list A)
  (x : A) :
  StronglySorted R l -> Forall (fun y => R y x) l ->
  StronglySorted R (l ++ [x]).
Proof.
  induction 1 as [|y l Hs IH Hy]; intros Hall; simpl.
  - repeat constructor.
  - inversion Hall; subst. constructor; [now apply IH|].
    apply Forall_app. split; [exact Hy | now constructor].
Qed.

Lemma StronglySorted_In_weaken {A : Type} (R R' : A -> A -> Prop)
  (l : list A) :
  (forall a b, In a l -> In b l -> R a b -> R' a b) ->
  StronglySorted R l -> StronglySorted R' l.
Proof.
  intros HR H. induction H as [|x l Hs IH Hx]; constructor.
  - apply IH. intros a b Ha Hb. apply HR; now right.
  - rewrite Forall_forall in *. intros y Hy.
    apply HR; [now left | now right | now apply Hx].
Qed.

(** Sorted by one relation, and by a second one within each class of a
    key: sorted by the first, then the second. *)
Lemma StronglySorted_classes {A : Type} (R1 R2 : A -> A -> Prop)
  (key : A -> nat) (l : list A) :
  StronglySorted R1 l ->
  (forall c, StronglySorted R2 (filter (fun e => key e =? c) l)) ->
  StronglySorted (fun a b => R1 a b /\ (key a = key b -> R2 a b)) l.
Proof.
  induction 1 as [|x l Hs IH Hx]; intros Hc; constructor.
  - apply IH. intros c. specialize (Hc c). simpl in Hc.
    destruct (key x =? c); [now inversion Hc | exact Hc].
  - rewrite Forall_forall in *. intros y Hy. split; [now apply Hx|].
    intros Hk. specialize (Hc (key x)). simpl in Hc.
    rewrite Nat.eqb_refl in Hc. inversion Hc as [|? ? _ Hall]; subst.
    rewrite Forall_forall in Hall. apply Hall.
    apply filter_In. split; [exact Hy|]. apply Nat.eqb_eq. now symmetry.
Qed.

(** ** The frequency table *)

Lemma lookup_None (w : str) (T : freqTable) :
  lookup w T = None <-> ~ In w (map fst T).
Proof.
  induction T as [|[k v] T IH]; simpl.
  - tauto.
  - destruct (str_eqb k w) eqn:E.
    + apply str_eqb_eq in E. split; [discriminate | tauto].
    + assert (k <> w) by (intros Hk; apply str_eqb_eq in Hk; congruence).
      tauto.
Qed.

Lemma lookup_Some_In (w : str) (n : nat) (T : freqTable) :
  lookup w T = Some n -> In (w, n) T.
Proof.
  induction T as [|[k v] T IH]; simpl; [discriminate|].
  destruct (str_eqb k w) eqn:E.
  - apply str_eqb_eq in E. intros H. left. congruence.
  - auto.
Qed.

Lemma assign_keys (w : str) (v : nat) (T : freqTable) :
  map fst (assign w v T)
  = match lookup w T with
    | Some _ => map fst T
    | None => map fst T ++ [w]
    end.
Proof.
  induction T as [|[k v'] T IH]; simpl; [reflexivity|].
  destruct (str_eqb k w); simpl; [reflexivity|].
  rewrite IH. now destruct (lookup w T).
Qed.

Lemma In_assign (w : str) (v : nat) (T : freqTable) (k : str) (n : nat) :
  NoDup (map fst T) ->
  In (k, n) (assign w v T)
  <-> (k = w /\ n = v) \/ (k <> w /\ In (k, n) T).
Proof.
  induction T as [|[k' v'] T IH]; intros Hnd; simpl.
  - split.
    + intros [H|[]]. inversion H. auto.
    + intros [[-> ->]|[_ []]]. now left.
  - inversion Hnd as [|? ? Hnotin Hnd']; subst.
    destruct (str_eqb k' w) eqn:E; simpl.
    + apply str_eqb_eq in E. subst k'. split.
      * intros [H|H]; [inversion H; auto|].
        right. split; [|now right].
        intros ->. apply Hnotin. apply in_map_iff. now exists (w, n).
      * intros [[-> ->]|[Hk [H|H]]]; [now left | | now right].
        inversion H. congruence.
    + assert (Hk : k' <> w)
        by (intros Hk; apply str_eqb_eq in Hk; congruence).
      rewrite IH by exact Hnd'. split.
      * intros [H|[H|H]]; [inversion H; subst; auto | auto | tauto].
      * intros [H|[Hkw [H|H]]]; auto.
Qed.

Lemma has_In (set : list str) (w : str) :
  has set w = true <-> In w set.
Proof.
  unfold has. rewrite existsb_exists. split.
  - intros [x [Hin Hx]]. apply str_eqb_eq in Hx. now subst.
  - intros H. exists w. split; [exact H | now apply str_eqb_eq].
Qed.

Lemma frequencyIn_snoc (ws : list str) (w k : str) :
  frequencyIn (ws ++ [w]) k
  = frequencyIn ws k + (if str_dec w k then 1 else 0).
Proof.
  unfold frequencyIn. rewrite count_occ_app. simpl.
  destruct (str_dec w k); reflexivity.
Qed.

Lemma frequencyIn_pos (ws : list str) (k : str) :
  1 <= frequencyIn ws k <-> In k ws.
Proof.
  unfold frequencyIn. rewrite (count_occ_In str_dec). lia.
Qed.

Lemma indexOf_lt (w : str) (ws : list str) :
  In w ws -> indexOf w ws < length ws.
Proof.
  induction ws as [|x ws IH]; simpl; [tauto|].
  destruct (str_dec x w); [lia|].
  intros [H|H]; [contradiction|]. apply IH in H. lia.
Qed.

Lemma indexOf_app_In (w : str) (ws more : list str) :
  In w ws -> indexOf w (ws ++ more) = indexOf w ws.
Proof.
  induction ws as [|x ws IH]; simpl; [tauto|].
  destruct (str_dec x w); [reflexivity|].
  intros [H|H]; [contradiction|]. now rewrite IH.
Qed.

Lemma indexOf_snoc_new (w : str) (ws : list str) :
  ~ In w ws -> indexOf w (ws ++ [w]) = length ws.
Proof.
  induction ws as [|x ws IH]; simpl.
  - destruct (str_dec w w); [reflexivity | contradiction].
  - intros H. destruct (str_dec x w); [tauto|]. rewrite IH; tauto.
Qed.

Lemma tableFor_keys_In (ws : list str) (T : freqTable) (k : str) :
  tableFor ws T -> In k (map fst T) -> In k ws.
Proof.
  intros [_ [H1 _]] Hk. apply in_map_iff in Hk.
  destruct Hk as [[k' n] [Hf Hin]]. simpl in Hf. subst k'.
  now apply H1 in Hin.
Qed.

Lemma tableFor_order_snoc (ws : list str) (T : freqTable) (w : str) :
  tableFor ws T ->
  StronglySorted (fun k1 k2 => indexOf k1 (ws ++ [w]) < indexOf k2 (ws ++ [w]))
    (map fst T).
Proof.
  intros HT. pose proof HT as [_ [_ [_ H3]]].
  eapply StronglySorted_In_weaken; [|exact H3].
  intros a b Ha Hb Hab. simpl in Hab.
  rewrite !indexOf_app_In by (eapply tableFor_keys_In; eauto). exact Hab.
Qed.

Lemma countWord_tableFor (ws : list str) (T : freqTable) (w : str) :
  tableFor ws T -> tableFor (ws ++ [w]) (countWord T w).
Proof.
  intros HT. pose proof HT as [Hnd [H1 [H2 H3]]].
  unfold countWord. fold (counted w). destruct (counted w) eqn:Hc.
  - destruct (lookup w T) as [n0|] eqn:El.
    + (* the key exists: its count goes up, in place *)
      assert (Hw : In (w, n0) T) by now apply lookup_Some_In.
      destruct (H1 _ _ Hw) as [Hn0 [_ Hinw]].
      repeat split.
      * rewrite assign_keys, El. exact Hnd.
      * apply In_assign in H; [|exact Hnd].
        rewrite frequencyIn_snoc.
        destruct H as [[-> ->]|[Hk H]].
        -- destruct (str_dec w w); [lia | contradiction].
        -- destruct (str_dec w k); [congruence|].
           apply H1 in H. lia.
      * apply In_assign in H; [|exact Hnd].
        destruct H as [[-> ->]|[Hk H]]; [exact Hc | now apply H1 in H].
      * apply In_assign in H; [|exact Hnd]. apply in_or_app.
        destruct H as [[-> ->]|[Hk H]]; [now left | left; now apply H1 in H].
      * intros k Hk Hin. rewrite assign_keys, El.
        apply in_app_or in Hin. destruct Hin as [Hin|[<-|[]]]; [auto|].
        apply in_map_iff. now exists (w, n0).
      * rewrite assign_keys, El. now apply tableFor_order_snoc.
    + (* a new key: appended with count 1 *)
      assert (Hnk : ~ In w (map fst T)) by now apply lookup_None.
      assert (Hnw : ~ In w ws) by (intros H; apply Hnk; now apply H2).
      repeat split.
      * rewrite assign_keys, El.
        apply (Permutation_NoDup (Permutation_cons_append (map fst T) w)).
        now constructor.
      * apply In_assign in H; [|exact Hnd].
        rewrite frequencyIn_snoc.
        destruct H as [[-> ->]|[Hk H]].
        -- destruct (str_dec w w); [|contradiction].
           assert (frequencyIn ws w = 0)
             by (now apply (count_occ_not_In str_dec)).
           lia.
        -- destruct (str_dec w k); [congruence|].
           apply H1 in H. lia.
      * apply In_assign in H; [|exact Hnd].
        destruct H as [[-> ->]|[Hk H]]; [exact Hc | now apply H1 in H].
      * apply In_assign in H; [|exact Hnd]. apply in_or_app.
        destruct H as [[-> ->]|[Hk H]];
          [right; now left | left; now apply H1 in H].
      * intros k Hk Hin. rewrite assign_keys, El.
        apply in_or_app. apply in_app_or in Hin.
        destruct Hin as [Hin|[<-|[]]]; [left; auto | right; now left].
      * rewrite assign_keys, El. apply StronglySorted_snoc.
        -- now apply tableFor_order_snoc.
        -- apply Forall_forall. intros y Hy.
           assert (In y ws) by (eapply tableFor_keys_In; eauto).
           rewrite indexOf_app_In, indexOf_snoc_new by assumption.
           now apply indexOf_lt.
  - (* the token is not counted *)
    repeat split.
    + exact Hnd.
    + rewrite frequencyIn_snoc. destruct (H1 _ _ H) as [Hn [Hk _]].
      destruct (str_dec w k); [congruence | lia].
    + now apply H1 in H.
    + apply in_or_app. left. now apply H1 in H.
    + intros k Hk Hin. apply H2; [exact Hk|].
      apply in_app_or in Hin. destruct Hin as [Hin|[<-|[]]]; [auto|congruence].
    + now apply tableFor_order_snoc.
Qed.

Lemma frequencyOf_tableFor (ws : list str) :
  tableFor ws (fold_left countWord ws []).
Proof.
  induction ws as [|w ws IH] using rev_ind.
  - repeat split; simpl; try constructor; intros; contradiction.
  - rewrite fold_left_app. simpl. now apply countWord_tableFor.
Qed.

(** ** Capitalised tokens *)

(** Whatever a quantifier over one character class matches is a run of
    the class, at least as long as its lower bound. *)
Lemma repIter_chr_sound (p : ascii -> bool) (lo : nat) (greedy : bool)
  (k : mstate -> option mstate) :
  forall (fuel i : nat) (bef aft : str) (cs : list (nat * str)) (r : mstate),
    repIter (mrun (Chr p)) lo greedy k fuel i (MState bef aft cs) = Some r ->
    exists run rest,
      aft = run ++ rest /\ forallb p run = true /\ lo <= i + length run
      /\ k (MState (rev run ++ bef) rest cs) = Some r.
Proof.
  induction fuel as [|fuel IH]; intros i bef aft cs r H.
  - simpl in H. destruct (Nat.leb_spec lo i) as [Hle|]; [|discriminate].
    exists [], aft. simpl. repeat split; [lia | exact H].
  - rewrite repIter_S in H. cbv zeta in H. rewrite mrun_Chr in H.
    cbn [after before caps] in H.
    assert (Hstop : lo <= i -> k (MState bef aft cs) = Some r ->
                    exists run rest,
                      aft = run ++ rest /\ forallb p run = true
                      /\ lo <= i + length run
                      /\ k (MState (rev run ++ bef) rest cs) = Some r).
    { intros Hle Hk. exists [], aft. simpl. repeat split; [lia | exact Hk]. }
    assert (Hmore : forall c t,
               aft = c :: t -> p c = true ->
               repIter (mrun (Chr p)) lo greedy k fuel (S i)
                 (MState (c :: bef) t cs) = Some r ->
               exists run rest,
                 aft = run ++ rest /\ forallb p run = true
                 /\ lo <= i + length run
                 /\ k (MState (rev run ++ bef) rest cs) = Some r).
    { intros c t -> Hc Hr. apply IH in Hr.
      destruct Hr as [run [rest [-> [Hall [Hlo Hk]]]]].
      exists (c :: run), rest. cbn [app forallb length rev].
      rewrite Hc, Hall, <- app_assoc. repeat split; [lia | exact Hk]. }
    destruct aft as [|c t].
    + destruct (i <? lo) eqn:Hi; [discriminate|].
      apply Nat.ltb_ge in Hi. apply Hstop; [exact Hi|].
      destruct greedy; [exact H|].
      destruct (k (MState bef [] cs)); [exact H | discriminate].
    + destruct (p c) eqn:Hc.
      * rewrite pos_advance, andb_false_r in H.
        destruct (i <? lo) eqn:Hi; [now apply (Hmore c t)|].
        apply Nat.ltb_ge in Hi. destruct greedy.
        -- destruct (repIter (mrun (Chr p)) lo true k fuel (S i)
                       (MState (c :: bef) t cs)) eqn:E.
           ++ apply (Hmore c t); congruence.
           ++ now apply Hstop.
        -- destruct (k (MState bef (c :: t) cs)) eqn:E.
           ++ apply Hstop; congruence.
           ++ now apply (Hmore c t).
      * destruct (i <? lo) eqn:Hi; [discriminate|].
        apply Nat.ltb_ge in Hi. apply Hstop; [exact Hi|].
        destruct greedy; [exact H|].
        destruct (k (MState bef (c :: t) cs)); [exact H | discriminate].
Qed.

Lemma match_at_capitalWord (bef aft : str) (m : rmatch) :
  match_at capitalWord bef aft = Some m -> capitalised (m_text m).
Proof.
  unfold match_at.
  destruct (mrun capitalWord (MState bef aft []) (fun st => Some st))
    as [st|] eqn:E; [|discriminate].
  intros H. inversion H; subst m; clear H. cbn [m_text].
  unfold capitalWord in E. cbn [seq mrun] in E.
  cbn [after before caps] in E.
  destruct (xorb _ _); [|discriminate].
  destruct aft as [|u t]; [discriminate|].
  destruct (is_upper u) eqn:Hu; [|discriminate].
  apply repIter_chr_sound in E.
  destruct E as [run [rest [-> [Hall [Hlo E]]]]].
  destruct (xorb _ _); [|discriminate].
  inversion E; subst st; clear E. unfold pos. cbn [before].
  exists u, run.
  replace (rev run ++ u :: bef) with (rev (u :: run) ++ bef)
    by (cbn [rev]; now rewrite <- app_assoc).
  rewrite firstn_rev_app. repeat split; auto.
Qed.

Lemma scan_from_match_at (r : regex) (aft : str) :
  forall (skip : nat) (bef : str) (m : rmatch),
    In m (scan r skip bef aft) ->
    exists bef' aft', match_at r bef' aft' = Some m.
Proof.
  induction aft as [|c t IH]; intros skip bef m H.
  - destruct skip; simpl in H; [|contradiction].
    destruct (match_at r bef []) eqn:E; [|contradiction].
    destruct H as [<-|[]]. eauto.
  - destruct skip as [|skip]; cbn [scan] in H.
    + destruct (match_at r bef (c :: t)) eqn:E.
      * destruct H as [<-|H]; [eauto | now apply IH in H].
      * now apply IH in H.
    + now apply IH in H.
Qed.

Lemma capitalWords_capitalised (this : QuizGenerator) :
  Forall capitalised (capitalWords this).
Proof.
  apply Forall_forall. intros t Ht.
  unfold capitalWords, matchesOrEmpty, match_g, matchAll in Ht.
  assert (Hin : In t (map m_text (scan capitalWord 0 [] (text this)))).
  { destruct (scan capitalWord 0 [] (text this)); [contradiction | exact Ht]. }
  apply in_map_iff in Hin. destruct Hin as [m [<- Hm]].
  apply scan_from_match_at in Hm. destruct Hm as [bef' [aft' Hm]].
  now apply match_at_capitalWord in Hm.
Qed.

(** ** Key terms *)

Lemma counted_spec (w : str) :
  counted w = true <-> 3 < length w /\ ~ In w commonWords.
Proof.
  unfold counted. rewrite andb_true_iff, Nat.ltb_lt, negb_true_iff.
  rewrite <- has_In. destruct (has commonWords w); intuition congruence.
Qed.

(** C7.  With M the parameter of [extractKeyTerms] (15 when none is given)
    and the tokens being the matches of the capitalised-word pattern in the
    text, each a capital letter followed by two or more lower-case letters:
    at most M terms are returned; every returned term occurs at least twice
    among the tokens, has more than 3 characters and is not in the stop
    list; and the terms come by descending frequency, equally frequent ones
    in the order in which they are first met in the text. *)
Theorem extractKeyTerms_frequent_ranked (this : QuizGenerator)
  (arg : option nat) :
  let M := orDefault 15 arg in
  let tokens := capitalWords this in
  let terms := extractKeyTerms this arg in
  orDefault 15 None = 15
  /\ Forall capitalised tokens
  /\ length terms <= M
  /\ (forall t, In t terms ->
                2 <= frequencyIn tokens t
                /\ 3 < length t
                /\ ~ In t commonWords)
  /\ StronglySorted (ranksBefore tokens) terms.
Proof.
  intros M tokens terms. split; [reflexivity|].
  split; [apply capitalWords_capitalised|].
  pose proof (frequencyOf_tableFor tokens) as HT.
  change (fold_left countWord tokens []) with (frequencyOf this) in HT.
  destruct HT as [Hnd [H1 [H2 H3]]].
  set (cmp := fun a b : str * nat => snd b <? snd a).
  set (kept := filter (fun e : str * nat => 2 <=? snd e) (frequencyOf this)).
  assert (Hkept : forall e, In e (sortBy cmp kept) ->
                            2 <= snd e /\ In e (frequencyOf this)).
  { intros e He. apply sortBy_In in He. apply filter_In in He.
    destruct He as [He H2e]. apply Nat.leb_le in H2e. now split. }
  split; [unfold terms, extractKeyTerms; rewrite length_map;
          apply firstn_length_le'|].
  split.
  - intros t Ht. unfold terms, extractKeyTerms in Ht.
    apply in_map_iff in Ht. destruct Ht as [[t' n] [Hf Hin]].
    simpl in Hf. subst t'. apply In_firstn in Hin.
    apply Hkept in Hin. destruct Hin as [Hn Hin]. simpl in Hn.
    apply H1 in Hin. destruct Hin as [-> [Hc _]].
    apply counted_spec in Hc. tauto.
  - unfold terms, extractKeyTerms.
    apply (proj1 (StronglySorted_map fst (ranksBefore tokens) _)).
    apply StronglySorted_firstn. fold cmp. fold kept.
    eapply StronglySorted_In_weaken;
      [|apply (StronglySorted_classes
                 (inOrder cmp)
                 (fun a b => indexOf (fst a) tokens < indexOf (fst b) tokens)
                 snd)].
    + intros a b Ha Hb [Hab Htie]. unfold inOrder, cmp in Hab.
      apply Nat.ltb_ge in Hab.
      apply Hkept in Ha, Hb. destruct Ha as [_ Ha], Hb as [_ Hb].
      destruct a as [ta na], b as [tb nb]. simpl in *.
      apply H1 in Ha, Hb. destruct Ha as [-> _], Hb as [-> _].
      split; [exact Hab | exact Htie].
    + apply sortBy_sorted.
      * unfold cmp. intros x y H. apply Nat.ltb_lt in H.
        apply Nat.ltb_ge. lia.
      * unfold cmp. intros x y z Hxy Hyz.
        apply Nat.ltb_ge in Hxy, Hyz. apply Nat.ltb_ge. lia.
    + intros c. rewrite sortBy_stable.
      * unfold kept. do 2 apply StronglySorted_filter.
        apply (proj2 (StronglySorted_map fst
                        (fun k1 k2 => indexOf k1 tokens < indexOf k2 tokens)
                        _)).
        exact H3.
      * unfold cmp. intros x y Hx Hy.
        apply Nat.eqb_eq in Hx, Hy. apply Nat.ltb_ge. lia.
Qed.

(** ** The properties on sample inputs *)

(** C3 on a text with one sentence that is kept and two that are not. *)
Lemma splitSentences_keeps_exactly_witness :
  splitCandidates sampleShortText
  = [lit "It is vital"; sampleKept; lit "12 34 56 78 90"]
  /\ splitSentences sampleShortText = [sampleKept]
  /\ In sampleKept (splitCandidates sampleShortText)
  /\ 3 <= wordCount sampleKept
  /\ hasLetterRun sampleKept
  /\ 20 < length sampleKept
  /\ length sampleKept < 500
  /\ (ofNat (digitCount sampleKept) < ofNat (length sampleKept) * 0.5)%Q.
Proof.
  assert (Hin : In sampleKept (splitSentences sampleShortText))
    by (vm_compute; left; reflexivity).
  split; [vm_compute; reflexivity|].
  split; [vm_compute; reflexivity|].
  exact (proj1 (proj2 (splitSentences_keeps_exactly sampleShortText
                         sampleKept)) Hin).
Defined.

(** C6 on the sample run: the two sentences of score 10.5 come first, in
    their order in the text. *)
Lemma extractKeySentences_top_positive_witness :
  extractKeySentences sample None
  = [ lit "New York City refers to a large town";
      lit "Water and Water and York :  and York and again York.";
      lit "Osmosis defines tasty but unhealthy food";
      lit "Osmosis is the movement of water molecules across a membrane" ]
  /\ length (extractKeySentences sample None) <= 10
  /\ exists idx,
       nth_error (sentences sample) idx
       = Some (lit "New York City refers to a large town")
       /\ (0 < sentenceScore idx
                  (lit "New York City refers to a large town"))%Q.
Proof.
  split; [vm_compute; reflexivity|].
  destruct (extractKeySentences_top_positive sample None)
    as [_ [sorted [_ [_ [_ [_ [Hlen Hpos]]]]]]].
  split; [exact Hlen|].
  apply Hpos. vm_compute. left. reflexivity.
Defined.

(** C7 on the sample run. *)
Lemma extractKeyTerms_frequent_ranked_witness :
  extractKeyTerms sample None = [lit "York"; lit "Osmosis"; lit "Water"]
  /\ 2 <= frequencyIn (capitalWords sample) (lit "Water")
  /\ 3 < length (lit "Water")
  /\ ~ In (lit "Water") commonWords
  /\ StronglySorted (ranksBefore (capitalWords sample))
       (extractKeyTerms sample None).
Proof.
  split; [vm_compute; reflexivity|].
  destruct (extractKeyTerms_frequent_ranked sample None)
    as [_ [_ [_ [Hin Hsorted]]]].
  assert (H : In (lit "Water") (extractKeyTerms sample None))
    by (vm_compute; right; right; left; reflexivity).
  destruct (Hin _ H) as [Hf [Hl Hc]].
  repeat split; assumption.
Defined.

(** C9 on a buffer whose BT/ET text is short and which has readable runs,
    and on one whose BT/ET text has 101 characters. *)
Lemma fallback_scan_when_short_witness :
  length (extractBT (binaryTextOf sampleReadableBytes)) < 100
  /\ match_g readablePattern (binaryTextOf sampleReadableBytes)
     = Some [lit "then some readable words"; lit "more"]
  /\ extractedBeforeCleanup (binaryTextOf sampleReadableBytes)
     = join (lit " ") [lit "then some readable words"; lit "more"]
  /\ 100 <= length (extractBT (binaryTextOf sampleLongBytes))
  /\ extractedBeforeCleanup (binaryTextOf sampleLongBytes)
     = extractBT (binaryTextOf sampleLongBytes).
Proof.
  assert (H1 : length (extractBT (binaryTextOf sampleReadableBytes)) < 100)
    by (vm_compute; lia).
  assert (H2 : match_g readablePattern (binaryTextOf sampleReadableBytes)
               = Some [lit "then some readable words"; lit "more"])
    by (vm_compute; reflexivity).
  assert (H3 : 100 <= length (extractBT (binaryTextOf sampleLongBytes)))
    by (vm_compute; lia).
  split; [exact H1|]. split; [exact H2|].
  split.
  - exact (proj2 (proj1 (proj2 (fallback_scan_when_short sampleReadableBytes))
                    H1 _ H2)).
  - split; [exact H3|].
    exact (proj1 (fallback_scan_when_short sampleLongBytes) H3).
Defined.

(** ** The matcher stays inside its subject *)

Lemma occursIn_nil (s : str) : occursIn [] s.
Proof. exists [], s. reflexivity. Qed.

Lemma occursIn_refl (s : str) : occursIn s s.
Proof. exists [], []. now rewrite app_nil_r. Qed.

Lemma occursIn_trans (a b c : str) :
  occursIn a b -> occursIn b c -> occursIn a c.
Proof.
  intros [x [y ->]] [x' [y' ->]]. exists (x' ++ x), (y ++ y').
  now rewrite !app_assoc.
Qed.

Lemma occursIn_Forall (P : ascii -> Prop) (w s : str) :
  occursIn w s -> Forall P s -> Forall P w.
Proof.
  intros [x [y ->]] H. apply Forall_app in H. destruct H as [_ H].
  apply Forall_app in H. tauto.
Qed.

Lemma reaches_refl (st : mstate) : reaches st st.
Proof. exists []. split; reflexivity. Qed.

Lemma reaches_same (st : mstate) (cs : list (nat * str)) :
  reaches st (MState (before st) (after st) cs).
Proof. exists []. split; reflexivity. Qed.

Lemma reaches_trans (a b c : mstate) :
  reaches a b -> reaches b c -> reaches a c.
Proof.
  intros [x [Hb Ha]] [y [Hc Hb']]. exists (x ++ y). split.
  - rewrite Hc, Hb, rev_app_distr, app_assoc. reflexivity.
  - rewrite Ha, Hb', app_assoc. reflexivity.
Qed.

Lemma reaches_subject (st st' : mstate) :
  reaches st st' -> subjectOf st' = subjectOf st.
Proof.
  intros [x [Hb Ha]]. unfold subjectOf.
  rewrite Hb, Ha, rev_app_distr, rev_involutive, <- app_assoc. reflexivity.
Qed.

Lemma reaches_pos (st st' : mstate) :
  reaches st st' -> pos st <= pos st'.
Proof.
  intros [x [Hb _]]. unfold pos. rewrite Hb, length_app. lia.
Qed.

(** The text between two positions, as a capture records it. *)
Lemma reaches_captured (st st' : mstate) :
  reaches st st' ->
  after st = rev (firstn (pos st' - pos st) (before st')) ++ after st'.
Proof.
  intros [x [Hb Ha]]. unfold pos. rewrite Hb, firstn_rev_app. exact Ha.
Qed.

Lemma captured_occursIn (st st' : mstate) :
  reaches st st' ->
  occursIn (rev (firstn (pos st' - pos st) (before st'))) (subjectOf st).
Proof.
  intros H. exists (rev (before st)), (after st'). unfold subjectOf.
  now rewrite <- (reaches_captured st st' H).
Qed.

Lemma get_cap_set_other (n n' : nat) (v : str) (cs : list (nat * str)) :
  n' <> n -> get_cap n' (set_cap n v cs) = get_cap n' cs.
Proof.
  intros Hn. unfold set_cap. cbn [get_cap].
  replace (n =? n') with false by (symmetry; apply Nat.eqb_neq; congruence).
  induction cs as [|[k w] cs IH]; [reflexivity|].
  cbn [filter fst get_cap]. destruct (Nat.eqb_spec k n) as [->|Hk].
  - cbn [negb]. rewrite IH.
    replace (n =? n') with false
      by (symmetry; apply Nat.eqb_neq; congruence).
    reflexivity.
  - cbn [negb get_cap]. now rewrite IH.
Qed.

Lemma get_cap_set_same (n : nat) (v : str) (cs : list (nat * str)) :
  get_cap n (set_cap n v cs) = v.
Proof. unfold set_cap. cbn [get_cap]. now rewrite Nat.eqb_refl. Qed.

Section Reach.
Variable subject : str.

Lemma staysInside_stop (gs : list nat) (st : mstate)
  (k : mstate -> option mstate) (res : mstate) :
  capturesIn subject st -> k st = Some res ->
  exists st',
    reaches st st' /\ capturesIn subject st'
    /\ (forall n, ~ In n gs -> get_cap n (caps st') = get_cap n (caps st))
    /\ k st' = Some res.
Proof. intros Hc Hk. exists st. auto using reaches_refl. Qed.

Lemma repIter_staysInside ma lo greedy gs :
  staysInside subject gs ma ->
  forall fuel i,
    staysInside subject gs (fun st k => repIter ma lo greedy k fuel i st).
Proof.
  intros Hma. induction fuel as [|fuel IH]; intros i st k res Hs Hc H.
  - simpl in H. destruct (lo <=? i); [|discriminate].
    now apply staysInside_stop.
  - rewrite repIter_S in H. cbv zeta in H.
    assert (Hmore :
              ma st (fun st' =>
                       if (lo <=? i) && (pos st' =? pos st) then None
                       else repIter ma lo greedy k fuel (S i) st')
              = Some res ->
              exists st',
                reaches st st' /\ capturesIn subject st'
                /\ (forall n, ~ In n gs ->
                               get_cap n (caps st') = get_cap n (caps st))
                /\ k st' = Some res).
    { intros Hm. apply Hma in Hm; auto.
      destruct Hm as [st1 [Hr1 [Hc1 [Hf1 Hk1]]]].
      destruct ((lo <=? i) && (pos st1 =? pos st)); [discriminate|].
      apply IH in Hk1; auto.
      - destruct Hk1 as [st2 [Hr2 [Hc2 [Hf2 Hk2]]]]. exists st2.
        split; [eapply reaches_trans; eauto|].
        split; [exact Hc2|]. split; [|exact Hk2].
        intros n Hn. now rewrite Hf2, Hf1.
      - rewrite (reaches_subject _ _ Hr1). exact Hs. }
    destruct (i <? lo); [auto|].
    destruct greedy.
    + destruct (ma st _) eqn:E in H;
        [|now apply staysInside_stop].
      apply Hmore. rewrite E. exact H.
    + destruct (k st) eqn:E; [|auto].
      apply staysInside_stop; congruence.
Qed.

Lemma capturesIn_set (n : nat) (v : str) (st : mstate) :
  occursIn v subject -> capturesIn subject st ->
  capturesIn subject (MState (before st) (after st) (set_cap n v (caps st))).
Proof.
  intros Hv Hc. unfold capturesIn, set_cap in *. cbn [caps].
  constructor; [exact Hv|].
  apply Forall_forall. intros e He. apply filter_In in He.
  rewrite Forall_forall in Hc. now apply Hc.
Qed.

Lemma mrun_staysInside (r : regex) :
  staysInside subject (groupsOf r) (mrun r).
Proof.
  induction r as [p|a IHa b IHb|a IHa b IHb|a IHa lo hi greedy|n a IHa| | |
                  |a IHa];
    intros st k res Hs Hc H; cbn [mrun groupsOf] in *.
  - destruct (after st) as [|c t] eqn:E; [discriminate|].
    destruct (p c); [|discriminate].
    exists (MState (c :: before st) t (caps st)).
    split; [|auto].
    exists [c]. split; [reflexivity | exact E].
  - apply IHa in H; auto. destruct H as [s1 [Hr1 [Hc1 [Hf1 H]]]].
    apply IHb in H; auto.
    + destruct H as [s2 [Hr2 [Hc2 [Hf2 H]]]]. exists s2.
      split; [eapply reaches_trans; eauto|].
      split; [exact Hc2|]. split; [|exact H].
      intros n Hn. rewrite Hf2, Hf1; auto; intros Hin; apply Hn;
        apply in_or_app; auto.
    + rewrite (reaches_subject _ _ Hr1). exact Hs.
  - destruct (mrun a st k) eqn:E.
    + apply IHa in E; auto. inversion H; subst.
      destruct E as [s1 [Hr1 [Hc1 [Hf1 E]]]]. exists s1.
      repeat (split; auto). intros n Hn. apply Hf1.
      intros Hin; apply Hn; apply in_or_app; auto.
    + apply IHb in H; auto.
      destruct H as [s1 [Hr1 [Hc1 [Hf1 H]]]]. exists s1.
      repeat (split; auto). intros n Hn. apply Hf1.
      intros Hin; apply Hn; apply in_or_app; auto.
  - eapply repIter_staysInside in H; eauto.
  - apply IHa in H; auto. destruct H as [s1 [Hr1 [Hc1 [Hf1 H]]]].
    eexists. split; [|split; [|split; [|exact H]]].
    + destruct Hr1 as [x Hx]. exists x. exact Hx.
    + apply capturesIn_set; [|exact Hc1].
      rewrite <- Hs. now apply captured_occursIn.
    + intros n' Hn'. cbn [caps].
      rewrite get_cap_set_other by (intros ->; apply Hn'; now left).
      apply Hf1. intros Hin. apply Hn'. now right.
  - destruct (xorb _ _); [|discriminate]. now apply staysInside_stop.
  - destruct (before st); [|discriminate]. now apply staysInside_stop.
  - destruct (after st); [|discriminate]. now apply staysInside_stop.
  - destruct (mrun a st (fun st' => Some st')) as [s1|] eqn:E; [|discriminate].
    apply IHa in E; auto. destruct E as [s1' [Hr1 [Hc1 [Hf1 E]]]].
    inversion E; subst s1'. eexists. split; [|split; [|split; [|exact H]]].
    + apply reaches_same.
    + exact Hc1.
    + exact Hf1.
Qed.
End Reach.

Lemma get_cap_occursIn (subject : str) (n : nat) (cs : list (nat * str)) :
  Forall (fun e => occursIn (snd e) subject) cs ->
  occursIn (get_cap n cs) subject.
Proof.
  induction 1 as [|[k v] cs Hv _ IH]; simpl; [apply occursIn_nil|].
  destruct (k =? n); [exact Hv | exact IH].
Qed.

(** A match is a piece of the subject that starts where it was looked for,
    and so are its groups. *)
Lemma match_at_sound (r : regex) (bef aft : str) (m : rmatch) :
  match_at r bef aft = Some m ->
  m_index m = length bef
  /\ (exists rest, aft = m_text m ++ rest)
  /\ forall n, occursIn (group n m) (rev bef ++ aft).
Proof.
  unfold match_at.
  destruct (mrun r (MState bef aft []) (fun st => Some st)) as [st|] eqn:E;
    [|discriminate].
  intros H. inversion H; subst m; clear H. cbn [m_index m_text].
  apply (mrun_staysInside (rev bef ++ aft)) in E;
    [|reflexivity|constructor].
  destruct E as [st' [Hr [Hc [_ E]]]]. inversion E; subst st'; clear E.
  split; [reflexivity|]. split.
  - exists (after st). apply (reaches_captured _ _ Hr).
  - intros n. unfold group. cbn [m_caps]. now apply get_cap_occursIn.
Qed.

Lemma scan_sound (r : regex) (aft : str) :
  forall (skip : nat) (bef : str) (m : rmatch),
    In m (scan r skip bef aft) ->
    (exists pre rest, rev bef ++ aft = pre ++ m_text m ++ rest)
    /\ forall n, occursIn (group n m) (rev bef ++ aft).
Proof.
  induction aft as [|c t IH]; intros skip bef m H.
  - destruct skip; simpl in H; [|contradiction].
    destruct (match_at r bef []) eqn:E; [|contradiction].
    destruct H as [<-|[]]. apply match_at_sound in E.
    destruct E as [_ [[rest E] Hg]]. split; [|exact Hg].
    exists (rev bef), rest. now rewrite <- E.
  - assert (Hnext : forall skip',
               In m (scan r skip' (c :: bef) t) ->
               (exists pre rest, rev bef ++ c :: t = pre ++ m_text m ++ rest)
               /\ forall n, occursIn (group n m) (rev bef ++ c :: t)).
    { intros skip' Hin. apply IH in Hin. cbn [rev] in Hin.
      rewrite <- app_assoc in Hin. exact Hin. }
    destruct skip as [|skip]; cbn [scan] in H; [|eauto].
    destruct (match_at r bef (c :: t)) eqn:E; [|eauto].
    destruct H as [<-|H]; [|eauto].
    apply match_at_sound in E. destruct E as [_ [[rest E] Hg]].
    split; [|exact Hg]. exists (rev bef), rest. now rewrite <- E.
Qed.

Lemma matchAll_sound (r : regex) (s : str) (m : rmatch) :
  In m (matchAll r s) ->
  occursIn (m_text m) s /\ forall n, occursIn (group n m) s.
Proof.
  intros H. apply scan_sound in H. destruct H as [[pre [rest E]] Hg].
  split; [exists pre, rest; exact E | exact Hg].
Qed.

Lemma matchesOrEmpty_sound (r : regex) (s w : str) :
  In w (matchesOrEmpty r s) -> occursIn w s.
Proof.
  unfold matchesOrEmpty, match_g. intros H.
  assert (Hin : In w (map m_text (matchAll r s)))
    by (destruct (matchAll r s); [contradiction | exact H]).
  apply in_map_iff in Hin. destruct Hin as [m [<- Hm]].
  now apply matchAll_sound in Hm.
Qed.

(** What [replace] returns is made of the characters of its subject and of
    the replacements. *)
Lemma replace_go_Forall (P : ascii -> Prop) (r : regex) (f : rmatch -> str)
  (aft : str) :
  forall (skip : nat) (bef : str),
    Forall P (rev bef ++ aft) ->
    (forall m, Forall P (m_text m) -> (forall n, Forall P (group n m)) ->
               Forall P (f m)) ->
    Forall P (replace_go r f skip bef aft).
Proof.
  induction aft as [|c t IH]; intros skip bef Hs Hf.
  - destruct skip; simpl; [|constructor].
    destruct (match_at r bef []) as [m|] eqn:E; [|constructor].
    apply match_at_sound in E. destruct E as [_ [[rest E] Hg]].
    apply Hf.
    + apply (occursIn_Forall P _ (rev bef ++ [])); [|exact Hs].
      exists (rev bef), rest. now rewrite <- E.
    + intros n. eapply occursIn_Forall; [apply Hg | exact Hs].
  - assert (Hs' : Forall P (rev (c :: bef) ++ t))
      by (cbn [rev]; now rewrite <- app_assoc).
    assert (Hc : P c).
    { apply Forall_app in Hs. destruct Hs as [_ Hs]. now inversion Hs. }
    destruct skip as [|skip]; cbn [replace_go]; [|now apply IH].
    destruct (match_at r bef (c :: t)) as [m|] eqn:E.
    + apply match_at_sound in E. destruct E as [_ [[rest E] Hg]].
      assert (Hfm : Forall P (f m)).
      { apply Hf.
        - apply (occursIn_Forall P _ (rev bef ++ c :: t)); [|exact Hs].
          exists (rev bef), rest. now rewrite <- E.
        - intros n. eapply occursIn_Forall; [apply Hg | exact Hs]. }
      destruct (length (m_text m)).
      * apply Forall_app. split; [exact Hfm|].
        constructor; [exact Hc | now apply IH].
      * apply Forall_app. split; [exact Hfm | now apply IH].
    + constructor; [exact Hc | now apply IH].
Qed.

Lemma replace_Forall (P : ascii -> Prop) (r : regex) (f : rmatch -> str)
  (s : str) :
  Forall P s ->
  (forall m, Forall P (m_text m) -> (forall n, Forall P (group n m)) ->
             Forall P (f m)) ->
  Forall P (replace r f s).
Proof. intros Hs Hf. now apply replace_go_Forall. Qed.

Lemma dropWhile_Forall (P : ascii -> Prop) (p : ascii -> bool) (s : str) :
  Forall P s -> Forall P (dropWhile p s).
Proof.
  induction 1 as [|c s Hc Hs IH]; simpl; [constructor|].
  destruct (p c); [exact IH | now constructor].
Qed.

Lemma trim_Forall (P : ascii -> Prop) (s : str) :
  Forall P s -> Forall P (trim s).
Proof.
  intros H. unfold trim, trimEnd, trimStart.
  apply Forall_rev, dropWhile_Forall, Forall_rev, dropWhile_Forall, H.
Qed.

(** ** The normalized text *)

Lemma replace_chr_Forall (P : ascii -> Prop) (p : ascii -> bool) (v : str)
  (aft : str) :
  Forall P v -> (forall c, p c = false -> P c) ->
  forall bef, Forall P (replace_go (Chr p) (constant v) 0 bef aft).
Proof.
  intros Hv Hp. induction aft as [|c t IH]; intros bef; cbn [replace_go].
  - rewrite match_at_chr. constructor.
  - rewrite match_at_chr. destruct (p c) eqn:E.
    + cbn [m_text length]. apply Forall_app. split; [exact Hv | apply IH].
    + constructor; [now apply Hp | apply IH].
Qed.

Lemma extractReadableText_normal (text : str) :
  normalText (extractReadableText text).
Proof.
  unfold extractReadableText, normalText. apply trim_Forall.
  apply replace_Forall; [|intros; constructor].
  unfold replace. apply replace_chr_Forall.
  - repeat constructor.
  - intros c Hc. now apply negb_false_iff in Hc.
Qed.

Lemma improveStructure_normal (text : str) :
  normalText text -> normalText (improveStructure text).
Proof.
  unfold improveStructure, normalText. intros H.
  apply trim_Forall.
  apply replace_Forall; [|intros; repeat constructor].
  apply replace_Forall.
  - apply replace_Forall; [exact H|].
    intros m _ Hg. repeat (constructor; [reflexivity|]). apply Hg.
  - intros m _ Hg. apply Forall_app. split; [apply Hg|].
    repeat (constructor; [reflexivity|]).
    apply Forall_app. split; [apply Hg | repeat constructor].
Qed.

(** The pieces [split] returns are pieces of its subject. *)
Lemma split_go_occursIn (r : regex) (aft : str) :
  forall (skip : nat) (cur bef piece : str),
    (exists x, bef = cur ++ x) -> (skip <> 0 -> cur = []) ->
    In piece (split_go r skip cur bef aft) ->
    occursIn piece (rev bef ++ aft).
Proof.
  induction aft as [|c t IH]; intros skip cur bef piece [x Hx] Hskip H.
  - destruct H as [<-|[]]. subst bef. exists (rev x), [].
    now rewrite rev_app_distr, !app_nil_r.
  - assert (Hsub : rev bef ++ c :: t = rev (c :: bef) ++ t)
      by (cbn [rev]; now rewrite <- app_assoc).
    assert (Hcur : occursIn (rev cur) (rev bef ++ c :: t)).
    { subst bef. exists (rev x), (c :: t).
      now rewrite rev_app_distr, <- app_assoc. }
    rewrite Hsub. cbn [split_go] in H. destruct skip as [|skip].
    + destruct (match_at r bef (c :: t)) as [m|].
      * destruct (length (m_text m)).
        -- destruct cur as [|d cur].
           ++ apply IH in H; [exact H | now exists bef | congruence].
           ++ destruct H as [<-|H]; [now rewrite <- Hsub|].
              apply IH in H; [exact H | now exists bef | congruence].
        -- destruct H as [<-|H]; [now rewrite <- Hsub|].
           apply IH in H; [exact H | now exists (c :: bef) | reflexivity].
      * apply IH in H; [exact H | | congruence].
        exists x. now rewrite Hx.
    + rewrite (Hskip ltac:(discriminate)) in *.
      apply IH in H; [exact H | now exists (c :: bef) | reflexivity].
Qed.

Lemma split_occursIn (r : regex) (s piece : str) :
  In piece (split r s) -> occursIn piece s.
Proof.
  unfold split. intros H.
  assert (Hin : In piece (split_go r 0 [] [] s)).
  { destruct s; [|exact H]. destruct (match_at r [] []); [contradiction|].
    exact H. }
  apply split_go_occursIn in Hin; [exact Hin | now exists [] | congruence].
Qed.

Lemma dropWhile_occursIn (p : ascii -> bool) (s : str) :
  occursIn (dropWhile p s) s.
Proof.
  induction s as [|c s IH]; simpl; [apply occursIn_nil|].
  destruct (p c); [|apply occursIn_refl].
  destruct IH as [x [y E]]. exists (c :: x), y. simpl. now rewrite <- E.
Qed.

Lemma occursIn_rev (w s : str) : occursIn w s -> occursIn (rev w) (rev s).
Proof.
  intros [x [y ->]]. exists (rev y), (rev x).
  now rewrite !rev_app_distr, <- app_assoc.
Qed.

Lemma trim_occursIn (s : str) : occursIn (trim s) s.
Proof.
  unfold trim, trimEnd, trimStart.
  apply occursIn_trans with (dropWhile is_space s);
    [|apply dropWhile_occursIn].
  rewrite <- (rev_involutive (dropWhile is_space s)) at 2.
  apply occursIn_rev, dropWhile_occursIn.
Qed.

Lemma splitSentences_occursIn (text s : str) :
  In s (splitSentences text) -> occursIn s text.
Proof.
  unfold splitSentences, splitCandidates. intros H.
  apply filter_In in H. destruct H as [H _].
  apply in_map_iff in H. destruct H as [piece [<- Hp]].
  eapply occursIn_trans; [apply trim_occursIn|].
  now apply split_occursIn in Hp.
Qed.

(** X1.  Whatever the raw text, the text a generator works on consists of
    printable ASCII characters and newlines only, and neither starts nor
    ends with whitespace; so do its sentences. *)
Theorem preprocessText_normal (rawText : str) :
  let this := newQuizGenerator rawText in
  normalText (text this)
  /\ trimmed (text this)
  /\ Forall (fun s => normalText s /\ trimmed s) (sentences this).
Proof.
  intros this.
  assert (Hn : normalText (preprocessText rawText)).
  { unfold preprocessText. apply improveStructure_normal.
    apply extractReadableText_normal. }
  split; [exact Hn|]. split; [apply trim_trimmed|].
  apply Forall_forall. intros s Hs. cbn [this newQuizGenerator sentences] in Hs.
  split.
  - apply splitSentences_occursIn in Hs.
    eapply occursIn_Forall; [exact Hs | exact Hn].
  - unfold splitSentences, splitCandidates in Hs.
    apply filter_In in Hs. destruct Hs as [Hs _].
    apply in_map_iff in Hs. destruct Hs as [piece [<- _]].
    apply trim_trimmed.
Qed.

(** ** Scores *)

Lemma vocabularyScore_bounds (lower : str) :
  (0 <= vocabularyScore lower 0 <= 69)%Q.
Proof.
  pose proof (vocabulary_fold lower importantWords 0) as H.
  fold (vocabularyScore lower 0) in H.
  assert (Hlen : length (filter (includes lower) importantWords) <= 23).
  { etransitivity; [apply filter_length_le | reflexivity]. }
  set (n := length (filter (includes lower) importantWords)) in *.
  assert (H0 : (0 <= ofNat n)%Q).
  { unfold ofNat. rewrite <- (Qle_bool_iff 0). destruct n; reflexivity. }
  assert (H23 : (ofNat n <= 23)%Q).
  { unfold ofNat. change 23%Q with (inject_Z (Z.of_nat 23)).
    rewrite <- Zle_Qle. lia. }
  rewrite H. lra.
Qed.

Lemma nounPoints_bounds (n : nat) : (0 <= Qmin (ofNat n * 0.5) 3 <= 3)%Q.
Proof.
  assert (H0 : (0 <= ofNat n)%Q).
  { unfold ofNat. change 0%Q with (inject_Z (Z.of_nat 0)).
    rewrite <- Zle_Qle. lia. }
  split.
  - apply Q.min_glb; lra.
  - apply Q.le_min_r.
Qed.

Lemma otherPoints_bounds (idx : nat) (sentence : str) :
  (-2 <= otherPoints idx sentence <= 11)%Q
  /\ (idx < 5 -> (1 <= otherPoints idx sentence)%Q).
Proof.
  unfold otherPoints.
  destruct (match_g properNoun sentence) as [l|];
    [pose proof (nounPoints_bounds (length l)) as Hn|];
    (split;
     [|intros Hi; apply Nat.ltb_lt in Hi; rewrite Hi];
     destruct (idx <? 5), (idx <? 10);
     destruct ((8 <=? length (split ws_plus sentence))
               && (length (split ws_plus sentence) <=? 25)),
              ((5 <=? length (split ws_plus sentence))
               && (length (split ws_plus sentence) <=? 30));
     destruct (3 <? length (matchesOrEmpty digitRun sentence));
     destruct (includes sentence ":"); lra).
Qed.

(** X2.  A sentence score lies between -2 and 80; a sentence among the
    first five scores at least 1. *)
Theorem sentenceScore_range (idx : nat) (sentence : str) :
  (-2 <= sentenceScore idx sentence <= 80)%Q
  /\ (idx < 5 -> (1 <= sentenceScore idx sentence)%Q).
Proof.
  pose proof (vocabularyScore_bounds (toLowerCase sentence)) as Hv.
  pose proof (otherPoints_bounds idx sentence) as [Ho H5].
  rewrite sentenceScore_parts. split; [lra|].
  intros Hi. specialize (H5 Hi). lra.
Qed.

(** X3.  The same sentence never scores lower at an earlier place than at
    a later one. *)
Theorem sentenceScore_earlier_not_lower (i j : nat) (sentence : str) :
  i <= j -> (sentenceScore j sentence <= sentenceScore i sentence)%Q.
Proof.
  intros Hij. rewrite !sentenceScore_parts. unfold otherPoints.
  apply Qplus_le_r. repeat apply Qplus_le_l.
  destruct (Nat.ltb_spec i 5), (Nat.ltb_spec j 5),
    (Nat.ltb_spec i 10), (Nat.ltb_spec j 10); try lia; lra.
Qed.

(** ** Key sentences, again *)

Lemma positive_after_nonpositive (l : list (str * Q)) (x : str * Q) :
  StronglySorted (fun a b => (snd b <= snd a)%Q) (x :: l) ->
  Qltb 0 (snd x) = false ->
  filter (fun s => Qltb 0 (snd s)) l = [].
Proof.
  intros Hs Hx. inversion Hs as [|? ? _ Hall]; subst. clear Hs.
  apply Qltb_false in Hx.
  induction Hall as [|y l Hy _ IH]; [reflexivity|].
  cbn [filter].
  replace (Qltb 0 (snd y)) with false
    by (symmetry; apply Qltb_false; now apply Qle_trans with (snd x)).
  exact IH.
Qed.

(** In a list sorted by descending score the positive scores come first,
    so taking a slice before or after filtering them is the same. *)
Lemma filter_positive_firstn (l : list (str * Q)) :
  StronglySorted (fun a b => (snd b <= snd a)%Q) l ->
  forall m, filter (fun s => Qltb 0 (snd s)) (firstn m l)
            = firstn m (filter (fun s => Qltb 0 (snd s)) l).
Proof.
  induction l as [|x l IH]; intros Hs m.
  - now rewrite !firstn_nil.
  - destruct m as [|m]; [reflexivity|].
    cbn [firstn filter]. destruct (Qltb 0 (snd x)) eqn:Hx.
    + cbn [firstn]. f_equal. apply IH. now inversion Hs.
    + rewrite (positive_after_nonpositive l x Hs Hx). cbn [firstn].
      apply (positive_after_nonpositive _ x); [|exact Hx].
      inversion Hs as [|? ? Hs' Hall]; subst.
      constructor.
      * now apply StronglySorted_firstn.
      * rewrite Forall_forall in *. intros y Hy. apply Hall.
        now apply In_firstn in Hy.
Qed.

Lemma scoredSentences_sorted (this : QuizGenerator) :
  StronglySorted (fun a b => (snd b <= snd a)%Q)
    (sortBy (fun a b => Qltb (snd b) (snd a)) (scoredSentences this)).
Proof.
  eapply StronglySorted_weaken; [|apply sortBy_sorted].
  - intros a b H. unfold inOrder in H. now apply Qltb_false in H.
  - intros x y H. now apply Qltb_asym.
  - intros x y z H1 H2. apply Qltb_false in H1, H2.
    apply Qltb_false. now apply Qle_trans with (snd y).
Qed.

Lemma extractKeySentences_sliced (this : QuizGenerator) (arg : option nat) :
  extractKeySentences this arg
  = map fst
      (firstn (orDefault 10 arg)
         (filter (fun s => Qltb 0 (snd s))
            (sortBy (fun a b => Qltb (snd b) (snd a))
               (scoredSentences this)))).
Proof.
  unfold extractKeySentences. cbv zeta.
  rewrite filter_positive_firstn by apply scoredSentences_sorted.
  rewrite firstn_firstn. f_equal. f_equal. lia.
Qed.

(** X4.  The slice of 2N sentences taken before the positive scores are
    filtered changes nothing: the key sentences are the first N sentences
    of positive score in the sorted list. *)
Theorem extractKeySentences_first_positive (this : QuizGenerator)
  (arg : option nat) :
  extractKeySentences this arg
  = map fst
      (firstn (orDefault 10 arg)
         (filter (fun s => Qltb 0 (snd s))
            (sortBy (fun a b => Qltb (snd b) (snd a))
               (scoredSentences this)))).
Proof.
  unfold extractKeySentences. cbv zeta.
  rewrite filter_positive_firstn by apply scoredSentences_sorted.
  rewrite firstn_firstn. f_equal. f_equal. lia.
Qed.

Lemma scoredSentences_first (this : QuizGenerator) (s : str)
  (rest : list str) :
  sentences this = s :: rest ->
  In (s, sentenceScore 0 s) (scoredSentences this).
Proof.
  intros H. unfold scoredSentences, indexed. rewrite H. now left.
Qed.

(** X5.  When the generator has a sentence and N is not 0, there is a key
    sentence. *)
Theorem extractKeySentences_not_empty (this : QuizGenerator)
  (arg : option nat) :
  sentences this <> [] -> 1 <= orDefault 10 arg ->
  extractKeySentences this arg <> [].
Proof.
  intros Hne HN. rewrite extractKeySentences_sliced.
  destruct (sentences this) as [|s rest] eqn:Hs; [now elim Hne|].
  pose proof (scoredSentences_first this s rest Hs) as Hin.
  pose proof (scoredSentences_sorted this) as Hsorted.
  apply (sortBy_In (fun a b => Qltb (snd b) (snd a))) in Hin.
  destruct (sortBy _ (scoredSentences this)) as [|h l]; [contradiction|].
  assert (Hh : Qltb 0 (snd h) = true).
  { apply Qltb_lt.
    assert (H1 : (1 <= sentenceScore 0 s)%Q).
    { pose proof (vocabularyScore_bounds (toLowerCase s)) as Hv.
      pose proof (otherPoints_bounds 0 s) as [_ H5].
      rewrite sentenceScore_parts. specialize (H5 ltac:(lia)). lra. }
    inversion Hsorted as [|? ? _ Hall]; subst.
    destruct Hin as [->|Hin]; [simpl; lra|].
    rewrite Forall_forall in Hall. apply Hall in Hin. simpl in Hin. lra. }
  cbn [filter]. rewrite Hh.
  destruct (orDefault 10 arg); [lia|]. discriminate.
Qed.

(** ** The definition pattern *)

Lemma mrun_Seq (a b : regex) (st : mstate) (k : mstate -> option mstate) :
  mrun (Seq a b) st k = mrun a st (fun st' => mrun b st' k).
Proof. reflexivity. Qed.

Lemma mrun_Grp (n : nat) (a : regex) (st : mstate)
  (k : mstate -> option mstate) :
  mrun (Grp n a) st k =
  mrun a st (fun st' =>
    k (MState (before st') (after st')
         (set_cap n (rev (firstn (pos st' - pos st) (before st')))
            (caps st')))).
Proof. reflexivity. Qed.

(** A bounded quantifier over one character class matches a run of the
    class within its bounds. *)
Lemma repIter_chr_bounded (p : ascii -> bool) (lo : nat) (greedy : bool)
  (k : mstate -> option mstate) :
  forall (fuel i : nat) (bef aft : str) (cs : list (nat * str)) (r : mstate),
    repIter (mrun (Chr p)) lo greedy k fuel i (MState bef aft cs) = Some r ->
    exists run rest,
      aft = run ++ rest /\ forallb p run = true
      /\ lo <= i + length run /\ length run <= fuel
      /\ k (MState (rev run ++ bef) rest cs) = Some r.
Proof.
  induction fuel as [|fuel IH]; intros i bef aft cs r H.
  - simpl in H. destruct (Nat.leb_spec lo i) as [Hle|]; [|discriminate].
    exists [], aft. simpl. repeat split; [lia | lia | exact H].
  - rewrite repIter_S in H. cbv zeta in H. rewrite mrun_Chr in H.
    cbn [after before caps] in H.
    assert (Hstop : lo <= i -> k (MState bef aft cs) = Some r ->
                    exists run rest,
                      aft = run ++ rest /\ forallb p run = true
                      /\ lo <= i + length run /\ length run <= S fuel
                      /\ k (MState (rev run ++ bef) rest cs) = Some r).
    { intros Hle Hk. exists [], aft. simpl.
      repeat split; [lia | lia | exact Hk]. }
    assert (Hmore : forall c t,
               aft = c :: t -> p c = true ->
               repIter (mrun (Chr p)) lo greedy k fuel (S i)
                 (MState (c :: bef) t cs) = Some r ->
               exists run rest,
                 aft = run ++ rest /\ forallb p run = true
                 /\ lo <= i + length run /\ length run <= S fuel
                 /\ k (MState (rev run ++ bef) rest cs) = Some r).
    { intros c t -> Hc Hr. apply IH in Hr.
      destruct Hr as [run [rest [-> [Hall [Hlo [Hhi Hk]]]]]].
      exists (c :: run), rest. cbn [app forallb length rev].
      rewrite Hc, Hall, <- app_assoc.
      repeat split; [lia | lia | exact Hk]. }
    destruct aft as [|c t].
    + destruct (i <? lo) eqn:Hi; [discriminate|].
      apply Nat.ltb_ge in Hi. apply Hstop; [exact Hi|].
      destruct greedy; [exact H|].
      destruct (k (MState bef [] cs)); [exact H | discriminate].
    + destruct (p c) eqn:Hc.
      * rewrite pos_advance, andb_false_r in H.
        destruct (i <? lo) eqn:Hi; [now apply (Hmore c t)|].
        apply Nat.ltb_ge in Hi. destruct greedy.
        -- destruct (repIter (mrun (Chr p)) lo true k fuel (S i)
                       (MState (c :: bef) t cs)) eqn:E.
           ++ apply (Hmore c t); congruence.
           ++ now apply Hstop.
        -- destruct (k (MState bef (c :: t) cs)) eqn:E.
           ++ apply Hstop; congruence.
           ++ now apply (Hmore c t).
      * destruct (i <? lo) eqn:Hi; [discriminate|].
        apply Nat.ltb_ge in Hi. apply Hstop; [exact Hi|].
        destruct greedy; [exact H|].
        destruct (k (MState bef (c :: t) cs)); [exact H | discriminate].
Qed.

Lemma mrun_Rep (a : regex) (lo : nat) (hi : option nat) (greedy : bool)
  (st : mstate) (k : mstate -> option mstate) :
  mrun (Rep a lo hi greedy) st k
  = repIter (mrun a) lo greedy k
      (match hi with Some h => h | None => lo + length (after st) end) 0 st.
Proof. reflexivity. Qed.

Lemma reaches_captured_from (c : ascii) (bef t : str) (cs : list (nat * str))
  (st' : mstate) :
  reaches (MState (c :: bef) t cs) st' ->
  exists x, rev (firstn (pos st' - length bef) (before st')) = c :: x.
Proof.
  intros [x [Hb _]]. exists x. cbn [before] in Hb. unfold pos. rewrite Hb.
  replace (rev x ++ c :: bef) with (rev (c :: x) ++ bef)
    by (cbn [rev]; now rewrite <- app_assoc).
  apply firstn_rev_app.
Qed.

(** What the definition pattern captures: a phrase that starts with a
    capital letter, and 10 to 100 characters none of which is a sentence
    terminator. *)
Lemma definitionPattern_sound (bef aft : str) (m : rmatch) :
  match_at definitionPattern bef aft = Some m ->
  (exists c x, group 1 m = c :: x /\ is_upper c = true)
  /\ forallb (fun c => negb (oneOf ".!?" c)) (group 2 m) = true
  /\ 10 <= length (group 2 m) <= 100.
Proof.
  unfold match_at.
  destruct (mrun definitionPattern (MState bef aft []) (fun st => Some st))
    as [st|] eqn:E; [|discriminate].
  intros H. inversion H; subst m; clear H. unfold group. cbn [m_caps].
  unfold definitionPattern in E. cbn [seq] in E.
  rewrite mrun_Seq, mrun_Grp, mrun_Seq, mrun_Chr in E.
  cbn [after before caps] in E.
  destruct aft as [|c t]; [discriminate|].
  destruct (is_upper c) eqn:Hc; [|discriminate].
  set (subject := rev bef ++ c :: t).
  apply (mrun_staysInside subject) in E;
    [|unfold subject, subjectOf; cbn [before after rev];
      now rewrite <- app_assoc|constructor].
  destruct E as [s1 [Hr1 [Hc1 [_ E]]]].
  destruct (reaches_captured_from _ _ _ _ _ Hr1) as [x Hx].
  unfold pos at 2 in E. cbn [before] in E. rewrite Hx in E.
  assert (Hs1 : subjectOf s1 = subject).
  { rewrite (reaches_subject _ _ Hr1). unfold subject, subjectOf.
    cbn [before after rev]. now rewrite <- app_assoc. }
  rewrite mrun_Seq in E.
  apply (mrun_staysInside subject) in E;
    [|exact Hs1|apply capturesIn_set; [|exact Hc1]].
  2:{ rewrite <- Hx. unfold subject.
      replace (rev bef ++ c :: t)
        with (subjectOf (MState bef (c :: t) [])) by reflexivity.
      apply captured_occursIn. destruct Hr1 as [y [Hy1 Hy2]].
      exists (c :: y). cbn [before after rev] in *.
      rewrite Hy1, Hy2, <- app_assoc. split; reflexivity. }
  destruct E as [s2 [Hr2 [Hc2 [Hf2 E]]]].
  rewrite mrun_Seq in E.
  apply (mrun_staysInside subject) in E;
    [|rewrite (reaches_subject _ _ Hr2); exact Hs1|exact Hc2].
  destruct E as [s3 [Hr3 [Hc3 [Hf3 E]]]].
  rewrite mrun_Seq in E.
  apply (mrun_staysInside subject) in E;
    [|rewrite (reaches_subject _ _ Hr3), (reaches_subject _ _ Hr2);
      exact Hs1|exact Hc3].
  destruct E as [s4 [Hr4 [Hc4 [Hf4 E]]]].
  rewrite mrun_Grp in E. destruct s4 as [b4 a4 c4].
  rewrite mrun_Rep in E.
  apply repIter_chr_bounded in E.
  destruct E as [run [rest [_ [Hall [Hlo [Hhi E]]]]]].
  inversion E; subst st; clear E. cbn [caps before].
  unfold pos. cbn [before]. rewrite firstn_rev_app.
  rewrite get_cap_set_same, get_cap_set_other by discriminate.
  split; [|split; [exact Hall | lia]].
  exists c, x. split; [|exact Hc].
  cbn [caps] in Hf4. rewrite Hf4 by (cbn; tauto).
  rewrite Hf3 by (cbn; tauto). rewrite Hf2 by (cbn; tauto).
  cbn [caps]. apply get_cap_set_same.
Qed.

(** ** What is shown comes from the text *)

Lemma trim_id (s : str) : trimmed s -> trim s = s.
Proof.
  intros [Hh Hl]. unfold trim, trimStart, trimEnd.
  assert (H1 : dropWhile is_space s = s).
  { destruct s as [|c s]; [reflexivity|]. simpl in *. now rewrite Hh. }
  rewrite H1.
  assert (H2 : dropWhile is_space (rev s) = rev s).
  { destruct (rev s) as [|c r]; [reflexivity|]. simpl in *. now rewrite Hl. }
  rewrite H2. apply rev_involutive.
Qed.

Lemma extractKeySentences_In (this : QuizGenerator) (arg : option nat)
  (s : str) :
  In s (extractKeySentences this arg) -> In s (sentences this).
Proof.
  unfold extractKeySentences. intros H.
  apply in_map_iff in H. destruct H as [[s' sc] [Heq H]].
  cbn [fst] in Heq. subst s'.
  apply In_firstn in H. apply filter_In in H. destruct H as [H _].
  apply In_firstn in H. apply sortBy_In in H.
  apply In_scoredSentences in H. destruct H as [idx [H _]].
  now apply nth_error_In in H.
Qed.

(** X6.  Every key sentence is one of the sentences of the generator, and
    every sentence of a generator is a piece of its normalized text, taken
    from it character by character. *)
Theorem keySentences_verbatim (rawText : str) (arg : option nat) :
  let this := newQuizGenerator rawText in
  Forall (fun s => occursIn s (text this)) (sentences this)
  /\ Forall (fun s => In s (sentences this) /\ occursIn s (text this))
       (extractKeySentences this arg).
Proof.
  intros this.
  assert (Hs : forall s, In s (sentences this) -> occursIn s (text this)).
  { intros s Hs. cbn [this newQuizGenerator sentences text] in *.
    apply splitSentences_occursIn. exact Hs. }
  split; apply Forall_forall; intros s H.
  - exact (Hs s H).
  - apply extractKeySentences_In in H. split; [exact H | exact (Hs s H)].
Qed.

Lemma NoDup_firstn {A : Type} (n : nat) (l : list A) :
  NoDup l -> NoDup (firstn n l).
Proof.
  intros H. rewrite <- (firstn_skipn n l) in H.
  now apply NoDup_app_remove_r in H.
Qed.

Lemma NoDup_keys_filter {E K : Type} (key : E -> K) (keep : E -> bool) :
  forall entries : list E,
    NoDup (map key entries) -> NoDup (map key (filter keep entries)).
Proof.
  induction entries as [|e entries IH]; cbn [map filter]; [auto|].
  intros H. inversion H as [|k ks Hfresh Hrest]; subst.
  destruct (keep e); cbn [map]; [|auto].
  constructor; [|auto].
  intros Hin. apply Hfresh. apply in_map_iff in Hin.
  destruct Hin as [e' [He' Hin]]. apply filter_In in Hin.
  apply in_map_iff. exists e'. tauto.
Qed.

(** X7.  No key term is returned twice, every key term stands in the text
    as it is returned, and when fewer terms than asked for are returned,
    every capitalised token of the text that is counted (more than three
    characters, not in the stop list) and occurs at least twice is among
    them. *)
Theorem extractKeyTerms_distinct_complete (this : QuizGenerator)
  (arg : option nat) :
  let tokens := capitalWords this in
  let terms := extractKeyTerms this arg in
  NoDup terms
  /\ Forall (fun t => occursIn t (text this)) terms
  /\ (length terms < orDefault 15 arg ->
      forall t, In t tokens -> counted t = true ->
                2 <= frequencyIn tokens t -> In t terms).
Proof.
  intros tokens terms.
  pose proof (frequencyOf_tableFor tokens) as HT.
  change (fold_left countWord tokens []) with (frequencyOf this) in HT.
  destruct HT as [Hnd [H1 [H2 _]]].
  set (cmp := fun a b : str * nat => snd b <? snd a).
  set (kept := filter (fun e : str * nat => 2 <=? snd e) (frequencyOf this)).
  assert (Hterms : terms
                   = map fst (firstn (orDefault 15 arg) (sortBy cmp kept)))
    by reflexivity.
  split; [|split].
  - rewrite Hterms, <- firstn_map. apply NoDup_firstn.
    apply (Permutation_NoDup (l := map fst kept)).
    + apply Permutation_map. symmetry. apply sortBy_Permutation.
    + now apply NoDup_keys_filter.
  - apply Forall_forall. intros t Ht. rewrite Hterms in Ht.
    apply in_map_iff in Ht. destruct Ht as [[t' n] [Heq Ht]].
    cbn [fst] in Heq. subst t'.
    apply In_firstn in Ht. apply sortBy_In in Ht.
    apply filter_In in Ht. destruct Ht as [Ht _].
    apply H1 in Ht. destruct Ht as [_ [_ Ht]].
    now apply matchesOrEmpty_sound in Ht.
  - intros Hlen t Ht Hc Hf.
    assert (Hall : firstn (orDefault 15 arg) (sortBy cmp kept)
                   = sortBy cmp kept).
    { apply firstn_all2. rewrite Hterms, length_map, length_firstn in Hlen.
      lia. }
    rewrite Hterms, Hall.
    pose proof (H2 t Hc Ht) as Hk. apply in_map_iff in Hk.
    destruct Hk as [[t' n] [Heq Hk]]. cbn [fst] in Heq. subst t'.
    apply in_map_iff. exists (t, n). split; [reflexivity|].
    apply sortBy_In. apply filter_In. split; [exact Hk|].
    apply H1 in Hk. destruct Hk as [-> _]. cbn [snd].
    now apply Nat.leb_le.
Qed.

(** ** The quiz as a whole *)

Lemma filter_nil_weaker {A : Type} (p q : A -> bool) (l : list A) :
  (forall x, q x = true -> p x = true) ->
  filter p l = [] -> filter q l = [].
Proof.
  intros Hpq. induction l as [|x l IH]; simpl; [reflexivity|].
  destruct (p x) eqn:Hp; [discriminate|].
  destruct (q x) eqn:Hq; [|exact IH].
  apply Hpq in Hq. congruence.
Qed.

Lemma firstn_nil_inv {A : Type} (n : nat) (l : list A) :
  0 < n -> firstn n l = [] -> l = [].
Proof. destruct n, l; simpl; intros; (lia || congruence). Qed.

Lemma indexedFrom_nil_inv {A : Type} (i : nat) (l : list A) :
  indexedFrom i l = [] -> l = [].
Proof. destruct l; simpl; [reflexivity | discriminate]. Qed.

Lemma fibSentences_none (this : QuizGenerator) :
  tfSentences this = [] -> fibSentences this = [].
Proof.
  unfold tfSentences, fibSentences. intros H.
  apply firstn_nil_inv in H; [|lia].
  erewrite filter_nil_weaker; [reflexivity| |exact H].
  intros s. cbv zeta. rewrite !andb_true_iff, !Nat.leb_le. lia.
Qed.

(** X8.  A generated quiz is empty exactly when no sentence has between 8
    and 25 words and the definition pattern gave no question; in
    particular a text with one sentence of 8 to 25 words always gives a
    quiz. *)
Theorem generateQuiz_empty_iff (this : QuizGenerator) (g : rng) :
  fst (generateQuiz this g) = []
  <-> tfSentences this = [] /\ multipleChoiceQuestions this g = [].
Proof.
  rewrite generateQuiz_questions, trueFalseQuestions_map. split.
  - intros H. apply firstn_nil_inv in H; [|lia].
    apply app_eq_nil in H. destruct H as [Ht H].
    apply app_eq_nil in H. destruct H as [Hm _].
    split; [|exact Hm].
    apply map_eq_nil in Ht. now apply indexedFrom_nil_inv in Ht.
  - intros [Ht Hm]. rewrite Ht, Hm. unfold fillBlankQuestions.
    rewrite (fibSentences_none this Ht). reflexivity.
Qed.

(** X9.  In the quiz of a generator made from any raw text, the statement
    of a true/false question is one of the sentences of the generator as
    it stands there, a piece of the normalized text, of 8 to 25 words. *)
Theorem trueFalse_statement_verbatim (rawText : str) (g : rng) :
  let this := newQuizGenerator rawText in
  Forall (fun q =>
            type q = truefalse ->
            In (question_text q) (sentences this)
            /\ occursIn (question_text q) (text this)
            /\ 8 <= wordCount (question_text q) <= 25)
    (fst (generateQuiz this g)).
Proof.
  intros this. apply Forall_forall. intros q Hq Hty.
  apply generateQuiz_In in Hq. destruct Hq as [H|[H|H]].
  - rewrite trueFalseQuestions_map in H. apply in_map_iff in H.
    destruct H as [[idx s] [<- H]]. cbn [fst snd tfQuestion question_text].
    apply In_indexedFrom in H. destruct H as [_ H].
    apply nth_error_In in H. unfold tfSentences in H.
    apply In_firstn in H. apply filter_In in H. destruct H as [Hs Hw].
    assert (Htr : trim s = s).
    { apply trim_id. cbn [this newQuizGenerator sentences] in Hs.
      unfold splitSentences, splitCandidates in Hs.
      apply filter_In in Hs. destruct Hs as [Hs _].
      apply in_map_iff in Hs. destruct Hs as [piece [<- _]].
      apply trim_trimmed. }
    rewrite Htr. split; [exact Hs|]. split.
    + cbn [this newQuizGenerator sentences text] in *.
      apply splitSentences_occursIn. exact Hs.
    + apply andb_true_iff in Hw. rewrite !Nat.leb_le in Hw. exact Hw.
  - apply pushMultipleChoice_shape in H. destruct H as [H _]. congruence.
  - apply fillBlankQuestions_type in H. congruence.
Qed.

(** ** Multiple-choice questions *)

Lemma occursIn_length (w s : str) : occursIn w s -> length w <= length s.
Proof. intros [x [y ->]]. rewrite !length_app. lia. Qed.

Lemma trim_head (c : ascii) (x : str) :
  is_space c = false -> exists x', trim (c :: x) = c :: x'.
Proof.
  intros Hc. unfold trim, trimStart, trimEnd. cbn [dropWhile]. rewrite Hc.
  cbn [rev]. rewrite dropWhile_snoc by exact Hc.
  rewrite rev_app_distr. cbn [rev app]. eauto.
Qed.

Lemma is_upper_not_space (c : ascii) : is_upper c = true -> is_space c = false.
Proof.
  destruct c as [[] [] [] [] [] [] [] []]; vm_compute;
    intros H; (reflexivity || discriminate H).
Qed.

(** Each question of the loop comes from one of the matches. *)
Lemma pushMultipleChoice_from (ms : list rmatch) :
  forall (n : nat) (g : rng) (q : question),
    In q (fst (pushMultipleChoice ms n [] g)) ->
    exists m,
      In m ms
      /\ question_text q = lit "What is " ++ trim (group 1 m) ++ lit "?"
      /\ correctAnswer q = trim (group 2 m).
Proof.
  induction ms as [|m ms IH]; intros n g q; simpl.
  - contradiction.
  - destruct (n <? 5); [|simpl; contradiction].
    destruct (length (split ws_plus (trim (group 2 m))) <? 3).
    + intros H. apply IH in H. destruct H as [m' [Hin H]]. eauto.
    + destruct (shuffle _ g) as [opts g'].
      rewrite pushMultipleChoice_app. simpl.
      intros [<-|H].
      * exists m. simpl. auto.
      * apply IH in H. destruct H as [m' [Hin H]]. eauto.
Qed.

(** X10.  A multiple-choice question of a generated quiz asks What is,
    followed by a term and a question mark, where the term starts with a
    capital letter and stands in the text; its correct answer stands in the
    text too, has no full stop, exclamation mark or question mark, is at
    most 100 characters long and neither starts nor ends with
    whitespace. *)
Theorem mcq_from_definition (this : QuizGenerator) (g : rng) :
  Forall (fun q =>
            type q = mcq ->
            (exists c x,
                question_text q = lit "What is " ++ (c :: x) ++ lit "?"
                /\ is_upper c = true
                /\ occursIn (c :: x) (text this))
            /\ occursIn (correctAnswer q) (text this)
            /\ Forall (fun c => oneOf ".!?" c = false) (correctAnswer q)
            /\ length (correctAnswer q) <= 100
            /\ trimmed (correctAnswer q))
    (fst (generateQuiz this g)).
Proof.
  apply Forall_forall. intros q Hq Hty.
  apply generateQuiz_In in Hq. destruct Hq as [H|[H|H]].
  - apply trueFalseQuestions_shape in H. destruct H as [H _]. congruence.
  - apply pushMultipleChoice_from in H.
    destruct H as [m [Hm [Hq Ha]]].
    pose proof (matchAll_sound _ _ _ Hm) as [_ Hg].
    unfold matchAll in Hm. apply scan_from_match_at in Hm.
    destruct Hm as [bef [aft Hm]].
    apply definitionPattern_sound in Hm.
    destruct Hm as [[c [x [H1 Hc]]] [Hall Hlen]].
    split; [|split; [|split; [|split]]].
    + destruct (trim_head c x (is_upper_not_space c Hc)) as [x' Hx].
      exists c, x'. rewrite Hq, H1, Hx. split; [reflexivity|].
      split; [exact Hc|]. rewrite <- Hx, <- H1.
      eapply occursIn_trans; [apply trim_occursIn | apply Hg].
    + rewrite Ha. eapply occursIn_trans; [apply trim_occursIn | apply Hg].
    + rewrite Ha. apply trim_Forall. apply Forall_forall. intros d Hd.
      rewrite forallb_forall in Hall. apply Hall in Hd.
      now apply negb_true_iff in Hd.
    + rewrite Ha.
      pose proof (occursIn_length _ _ (trim_occursIn (group 2 m))). lia.
    + rewrite Ha. apply trim_trimmed.
  - apply fillBlankQuestions_type in H. congruence.
Qed.

(** ** Fill-in-the-blank questions *)

Section SortHead.
Context {A : Type} (before_ : A -> A -> bool).
Hypothesis before_asym :
  forall x y, before_ y x = true -> before_ x y = false.
Hypothesis before_trans :
  forall x y z, before_ y x = false -> before_ z y = false ->
                before_ z x = false.

(** Nothing goes before the first element of a sorted array. *)
Lemma sortBy_head_max (l : list A) (h : A) (rest : list A) :
  sortBy before_ l = h :: rest ->
  forall y, In y l -> before_ y h = false.
Proof.
  intros H y Hy.
  pose proof (sortBy_sorted before_ before_asym before_trans l) as Hs.
  rewrite H in Hs. inversion Hs as [|h' rest' _ Hall]; subst.
  apply (sortBy_In before_) in Hy. rewrite H in Hy.
  destruct Hy as [<-|Hy].
  - destruct (before_ h h) eqn:E; [|reflexivity].
    pose proof (before_asym _ _ E). congruence.
  - rewrite Forall_forall in Hall. now apply Hall.
Qed.
End SortHead.

(** Among elements none of which goes before another, the first element of
    the sorted array is the first of them in the array. *)
Lemma sortBy_head_first {A : Type} (before_ : A -> A -> bool)
  (f : A -> bool) (l : list A) (h : A) (rest : list A) :
  (forall x y, f x = true -> f y = true -> before_ y x = false) ->
  f h = true ->
  sortBy before_ l = h :: rest ->
  exists rest', filter f l = h :: rest'.
Proof.
  intros Hf Hh H. rewrite <- (sortBy_stable before_ f l Hf), H.
  cbn [filter]. rewrite Hh. eauto.
Qed.

Lemma indexedFrom_sorted {A : Type} (l : list A) :
  forall i, StronglySorted (fun a b : nat * A => fst a < fst b)
              (indexedFrom i l).
Proof.
  induction l as [|x l IH]; intros i; simpl; constructor; [apply IH|].
  apply Forall_forall. intros [n y] Hy.
  apply In_indexedFrom in Hy. simpl. lia.
Qed.

Lemma nth_error_In_indexedFrom {A : Type} (l : list A) (x : A) :
  forall i n, nth_error l n = Some x -> In (i + n, x) (indexedFrom i l).
Proof.
  induction l as [|y l IH]; intros i [|n] H; simpl in *; try discriminate.
  - left. inversion H. f_equal. lia.
  - right. replace (i + S n) with (S i + n) by lia. now apply IH.
Qed.

(** The word to blank: the longest word of more than four letters, letters
    only, and the first of that length. *)
Lemma meaningfulWords_longest (words : list str) (i : nat) (w : str)
  (rest : list (nat * str)) :
  meaningfulWords words = (i, w) :: rest ->
  nth_error words i = Some w
  /\ 4 < length w /\ forallb is_alpha w = true
  /\ forall j w',
       nth_error words j = Some w' ->
       4 < length w' -> forallb is_alpha w' = true ->
       length w' <= length w /\ (j < i -> length w' < length w).
Proof.
  intros H. unfold meaningfulWords in H.
  pose (cmp := fun a b : nat * str => length (snd b) <? length (snd a)).
  pose (l := filter (fun p : nat * str =>
                       (4 <? length (snd p)) && test lettersOnly (snd p))
               (indexed words)).
  change (sortBy cmp l = (i, w) :: rest) in H.
  assert (Hl : forall j w', In (j, w') l <->
                 nth_error words j = Some w' /\ 4 < length w'
                 /\ forallb is_alpha w' = true).
  { intros j w'. unfold l. rewrite filter_In. cbn [snd].
    rewrite andb_true_iff, Nat.ltb_lt. unfold lettersOnly.
    rewrite test_anchored. split.
    - intros [Hin [Hlen [_ Hal]]]. apply In_indexedFrom in Hin.
      rewrite Nat.sub_0_r in Hin. tauto.
    - intros [Hn [Hlen Hal]].
      split; [apply (nth_error_In_indexedFrom words w' 0 j Hn)|].
      split; [exact Hlen|]. split; [|exact Hal].
      destruct w'; [simpl in Hlen; lia | discriminate]. }
  assert (Hh : In (i, w) l).
  { apply (sortBy_In cmp). rewrite H. now left. }
  apply Hl in Hh. destruct Hh as [Hn [Hlen Hal]].
  split; [exact Hn|]. split; [exact Hlen|]. split; [exact Hal|].
  intros j w' Hn' Hlen' Hal'.
  assert (Hin : In (j, w') l) by (apply Hl; auto).
  assert (Hmax : length w' <= length w).
  { pose proof (sortBy_head_max cmp) as Hm.
    specialize (Hm ltac:(unfold cmp; intros x y; rewrite !Nat.ltb_lt,
                           Nat.ltb_ge; lia)
                   ltac:(unfold cmp; intros x y z; rewrite !Nat.ltb_ge; lia)
                   l (i, w) rest H (j, w') Hin).
    unfold cmp in Hm. cbn [snd] in Hm. now apply Nat.ltb_ge in Hm. }
  split; [exact Hmax|]. intros Hj.
  destruct (Nat.eq_dec (length w') (length w)) as [Heq|]; [|lia].
  exfalso.
  set (f := fun e : nat * str => length (snd e) =? length w).
  destruct (sortBy_head_first cmp f l (i, w) rest) as [rest' Hf]; auto.
  { unfold f, cmp. intros x y Hx Hy.
    apply Nat.eqb_eq in Hx, Hy. apply Nat.ltb_ge. lia. }
  { unfold f. cbn [snd]. apply Nat.eqb_refl. }
  assert (Hs : StronglySorted (fun a b : nat * str => fst a < fst b)
                 (filter f l)).
  { apply StronglySorted_filter. unfold l. apply StronglySorted_filter.
    apply indexedFrom_sorted. }
  assert (Hjf : In (j, w') (filter f l)).
  { apply filter_In. split; [exact Hin|]. unfold f. cbn [snd].
    now apply Nat.eqb_eq. }
  rewrite Hf in Hs, Hjf. inversion Hs as [|h' r' _ Hall]; subst.
  destruct Hjf as [E|Hr].
  - inversion E. lia.
  - rewrite Forall_forall in Hall. apply Hall in Hr. simpl in Hr. lia.
Qed.

Lemma map_unblanked (b : str) (i : nat) (words : list str) :
  forall k, i < k ->
    map (fun q : nat * str => if fst q =? i then b else snd q)
      (indexedFrom k words) = words.
Proof.
  induction words as [|x t IH]; intros k Hk; simpl; [reflexivity|].
  destruct (Nat.eqb_spec k i); [lia|]. f_equal. apply IH. lia.
Qed.

Lemma map_blanked (b : str) (i : nat) (words : list str) :
  forall k, k <= i -> i - k < length words ->
    map (fun q : nat * str => if fst q =? i then b else snd q)
      (indexedFrom k words)
    = firstn (i - k) words ++ b :: skipn (S (i - k)) words.
Proof.
  induction words as [|x t IH]; intros k Hk Hlen; simpl in Hlen; [lia|].
  cbn [indexedFrom map fst snd].
  destruct (Nat.eqb_spec k i) as [->|Hne].
  - rewrite Nat.sub_diag. cbn [firstn skipn app]. f_equal.
    apply map_unblanked. lia.
  - replace (i - k) with (S (i - S k)) by lia.
    cbn [firstn skipn app]. f_equal. apply IH; lia.
Qed.

(** X11.  A fill-in-the-blank question of a generated quiz is made from a
    sentence of the generator of 8 to 20 words: one word of the sentence,
    of more than four characters and letters only, is replaced by six
    underscores and the words are joined again with single spaces; the
    word replaced is at least as long as every other such word of the
    sentence and longer than every such word before it; and the stored
    answer is that word in lower case. *)
Theorem fillblank_blanks_longest (this : QuizGenerator) (g : rng) :
  Forall (fun q =>
            type q = fillblank ->
            exists sentence i w,
              let words := split ws_plus sentence in
              In sentence (sentences this)
              /\ 8 <= length words <= 20
              /\ nth_error words i = Some w
              /\ 4 < length w /\ forallb is_alpha w = true
              /\ (forall j w',
                    nth_error words j = Some w' ->
                    4 < length w' -> forallb is_alpha w' = true ->
                    length w' <= length w /\ (j < i -> length w' < length w))
              /\ question_text q
                 = join (lit " ")
                     (firstn i words ++ blankMarker :: skipn (S i) words)
              /\ correctAnswer q = toLowerCase w)
    (fst (generateQuiz this g)).
Proof.
  apply Forall_forall. intros q Hq Hty.
  apply generateQuiz_In in Hq. destruct Hq as [H|[H|H]].
  - apply trueFalseQuestions_shape in H. destruct H as [H _]. congruence.
  - apply pushMultipleChoice_shape in H. destruct H as [H _]. congruence.
  - apply In_fold_pushFillBlank in H. destruct H as [[idx sentence] [Hp H]].
    apply In_indexedFrom in Hp. destruct Hp as [_ Hp].
    apply nth_error_In in Hp. unfold fibSentences in Hp.
    apply In_firstn in Hp. apply filter_In in Hp. destruct Hp as [Hs Hw].
    cbv zeta in Hw. apply andb_true_iff in Hw. rewrite !Nat.leb_le in Hw.
    unfold pushFillBlank in H. cbn [fst snd] in H.
    destruct (meaningfulWords (split ws_plus sentence))
      as [|[i w] rest] eqn:E; [discriminate|].
    apply meaningfulWords_longest in E.
    destruct E as [Hn [Hlen [Hal Hmax]]].
    exists sentence, i, w. cbv zeta.
    split; [exact Hs|]. split; [exact Hw|]. split; [exact Hn|].
    split; [exact Hlen|]. split; [exact Hal|]. split; [exact Hmax|].
    inversion H; subst q; clear H. cbn [question_text correctAnswer fst].
    split.
    + f_equal. unfold indexed.
      rewrite (map_blanked blankMarker i (split ws_plus sentence) 0);
        rewrite ?Nat.sub_0_r; try lia; [reflexivity|].
      apply nth_error_Some. congruence.
    + rewrite (nth_error_nth _ _ _ Hn), notLower_delete.
      apply filter_all. now apply toLowerCase_letters.
Qed.

(** ** Question identifiers *)

Lemma to_uint_nonnil (n : nat) : Nat.to_uint n <> Decimal.Nil.
Proof.
  intros H. pose proof (Unsigned.of_to n) as E. rewrite H in E.
  simpl in E. subst n. discriminate H.
Qed.

Lemma numToString_inj (a b : nat) : numToString a = numToString b -> a = b.
Proof.
  unfold numToString, lit. intros H.
  apply (f_equal string_of_list_ascii) in H.
  rewrite !string_of_list_ascii_of_string in H.
  apply (f_equal NilZero.uint_of_string) in H.
  rewrite !NilZero.usu in H by apply to_uint_nonnil.
  inversion H as [E]. now apply Unsigned.to_uint_inj.
Qed.

Lemma NoDup_numbered (pre : str) (ns : list nat) :
  NoDup ns -> NoDup (map (fun n => pre ++ numToString n) ns).
Proof.
  apply Finite.Injective_map_NoDup. intros a b H.
  apply app_inv_head in H. now apply numToString_inj.
Qed.

Lemma NoDup_fst_indexedFrom {A : Type} (l : list A) (i : nat) :
  NoDup (map fst (indexedFrom i l)).
Proof.
  revert i. induction l as [|x l IH]; intros i; simpl; constructor.
  - intros H. apply in_map_iff in H. destruct H as [[n y] [E H]].
    apply In_indexedFrom in H. simpl in E. lia.
  - apply IH.
Qed.

Lemma trueFalse_ids (this : QuizGenerator) :
  map id (trueFalseQuestions this)
  = map (fun n => lit "tf" ++ numToString n)
      (map fst (indexed (tfSentences this))).
Proof.
  rewrite trueFalseQuestions_map, !map_map. reflexivity.
Qed.

Lemma multipleChoice_ids (ms : list rmatch) :
  forall (n : nat) (g : rng),
    map id (fst (pushMultipleChoice ms n [] g))
    = map (fun k => lit "mcq" ++ numToString k)
        (List.seq n (length (fst (pushMultipleChoice ms n [] g)))).
Proof.
  induction ms as [|m ms IH]; intros n g; simpl; [reflexivity|].
  destruct (n <? 5); [|reflexivity].
  destruct (length (split ws_plus (trim (group 2 m))) <? 3); [apply IH|].
  destruct (shuffle _ g) as [opts g'].
  rewrite pushMultipleChoice_app. cbn [fst app map length id List.seq].
  f_equal. apply IH.
Qed.

Lemma fillBlank_ids (l : list (nat * str)) :
  exists keep : nat * str -> bool,
    map id (fold_left pushFillBlank l [])
    = map (fun n => lit "fib" ++ numToString n) (map fst (filter keep l)).
Proof.
  exists (fun p => match meaningfulWords (split ws_plus (snd p)) with
                   | [] => false
                   | _ :: _ => true
                   end).
  induction l as [|p l IH]; [reflexivity|].
  cbn [fold_left]. rewrite fold_pushFillBlank_app, map_app, IH.
  cbn [filter]. unfold pushFillBlank at 1.
  destruct (meaningfulWords (split ws_plus (snd p))); reflexivity.
Qed.

(** X12.  No two questions of a generated quiz have the same identifier,
    whatever the text and the random draws. *)
Theorem generateQuiz_ids_distinct (this : QuizGenerator) (g : rng) :
  NoDup (map id (fst (generateQuiz this g))).
Proof.
  rewrite generateQuiz_questions, <- firstn_map. apply NoDup_firstn.
  rewrite !map_app, trueFalse_ids.
  unfold multipleChoiceQuestions, fillBlankQuestions.
  rewrite multipleChoice_ids.
  destruct (fillBlank_ids (indexed (fibSentences this))) as [keep ->].
  assert (Hpre : forall (a b : string) (l1 l2 : list nat) (x : str),
             (forall s t, lit a ++ s <> lit b ++ t) ->
             In x (map (fun n => lit a ++ numToString n) l1) ->
             ~ In x (map (fun n => lit b ++ numToString n) l2)).
  { intros a b l1 l2 x Hab H1 H2. apply in_map_iff in H1, H2.
    destruct H1 as [n1 [<- _]]. destruct H2 as [n2 [E _]].
    symmetry in E. now apply Hab in E. }
  apply NoDup_app; [|apply NoDup_app|].
  - apply NoDup_numbered. apply NoDup_fst_indexedFrom.
  - apply NoDup_numbered. apply List.seq_NoDup.
  - apply NoDup_numbered. apply NoDup_keys_filter. apply NoDup_fst_indexedFrom.
  - intros x. apply Hpre. intros s t. cbn. discriminate.
  - intros x H1 H2. apply in_app_or in H2. revert H1. destruct H2 as [H2|H2].
    + intros H1. revert H2. revert H1. apply Hpre.
      intros s t. cbn. discriminate.
    + intros H1. revert H2. revert H1. apply Hpre.
      intros s t. cbn. discriminate.
Qed.

(** ** The salvaged PDF text *)

Lemma singleSpaced_occursIn (w s : str) :
  occursIn w s -> singleSpaced s -> singleSpaced w.
Proof.
  intros [a [b ->]] Hs x c y -> Hc.
  destruct (Hs (a ++ x) c (y ++ b)) as [H1 H2]; [|exact Hc|].
  - now rewrite <- !app_assoc.
  - split; [exact H1|]. destruct y; [exact I | exact H2].
Qed.

Lemma collapseFrom_singleSpaced (s : str) :
  forall insep,
    singleSpaced (collapseFrom insep s)
    /\ (insep = true -> startsClean (collapseFrom insep s)).
Proof.
  induction s as [|c t IH]; intros insep.
  - split; [|intros; exact I]. intros [|a x] d y H; discriminate H.
  - cbn [collapseFrom]. destruct (is_space c) eqn:Hc.
    + destruct insep; [apply IH|].
      split; [|discriminate].
      intros [|a x] d y H Hd; inversion H; subst.
      * split; [reflexivity|]. now apply IH.
      * now apply (proj1 (IH true) x d y).
    + split; [|intros _; exact Hc].
      intros [|a x] d y H Hd; inversion H; subst.
      * congruence.
      * now apply (proj1 (IH false) x d y).
Qed.

(** [replace(/\s+/g, ' ')] makes one space of every run of whitespace. *)
Lemma replace_go_ws (aft : str) :
  (forall bef, replace_go ws_plus (constant (lit " ")) 0 bef aft
               = collapseFrom false aft)
  /\ (forall bef,
        replace_go ws_plus (constant (lit " "))
          (length (takeWhile is_space aft)) bef aft
        = collapseFrom true aft).
Proof.
  induction aft as [|c t [IH0 IH1]].
  - assert (H : forall bef,
               replace_go ws_plus (constant (lit " ")) 0 bef [] = []).
    { intros bef. cbn [replace_go].
      change ws_plus with (atLeast 1 (Chr is_space)).
      now rewrite match_at_atLeast. }
    split; intros bef; apply H.
  - assert (H0 : forall bef,
               replace_go ws_plus (constant (lit " ")) 0 bef (c :: t)
               = collapseFrom false (c :: t)).
    { intros bef. cbn [replace_go collapseFrom].
      change ws_plus with (atLeast 1 (Chr is_space)).
      rewrite match_at_atLeast. cbn [takeWhile].
      destruct (is_space c); cbn [length Nat.leb m_text].
      - change (atLeast 1 (Chr is_space)) with ws_plus.
        now rewrite IH1.
      - change (atLeast 1 (Chr is_space)) with ws_plus.
        now rewrite IH0. }
    split; [exact H0|].
    intros bef. cbn [takeWhile]. destruct (is_space c) eqn:Hc.
    + cbn [length replace_go collapseFrom]. rewrite Hc. apply IH1.
    + cbn [length]. rewrite H0. cbn [collapseFrom]. now rewrite Hc.
Qed.

Lemma replace_ws_singleSpaced (s : str) :
  singleSpaced (replace ws_plus (constant (lit " ")) s).
Proof.
  unfold replace. rewrite (proj1 (replace_go_ws s)).
  apply collapseFrom_singleSpaced.
Qed.

Lemma cleanupEscapes_plain (s : str) :
  Forall (fun c => plainChar c = true) (cleanupEscapes s).
Proof.
  unfold cleanupEscapes. cbv zeta.
  apply trim_Forall. apply replace_Forall; [|intros; now repeat constructor].
  change (chr ")") with (Chr (is_char ")"%char)).
  change (chr "(") with (Chr (is_char "("%char)).
  change (constant (lit "")) with (fun _ : rmatch => @nil ascii).
  unfold replace at 1 2 3. rewrite !replace_chr_delete.
  apply Forall_forall. intros c Hc.
  apply filter_In in Hc. destruct Hc as [Hc H3].
  apply filter_In in Hc. destruct Hc as [Hc H2].
  apply filter_In in Hc. destruct Hc as [_ H1].
  unfold plainChar, oneOf. cbn [lit list_ascii_of_string existsb].
  rewrite H1. apply negb_true_iff in H2, H3. now rewrite H2, H3.
Qed.

(** X13.  Whatever the bytes of the file, what [extractPDFTextRaw]
    resolves with, the salvaged text or the fixed message, has at least 50
    characters, holds no backslash and no parenthesis, has no whitespace
    other than single spaces, and neither starts nor ends with
    whitespace. *)
Theorem extractPDFTextRaw_clean (uint8Array : list Byte.byte) :
  let out := extractPDFTextRaw uint8Array in
  50 <= length out
  /\ Forall (fun c => plainChar c = true) out
  /\ singleSpaced out
  /\ trimmed out.
Proof.
  intros out. unfold out, extractPDFTextRaw. cbv zeta.
  set (cleaned := cleanupEscapes
                    (extractedBeforeCleanup (binaryTextOf uint8Array))).
  destruct (length cleaned <? 50) eqn:E.
  - split; [vm_compute; lia|]. split; [|split].
    + apply Forall_forall. intros c Hc.
      assert (Hall : forallb plainChar limitedMessage = true)
        by (vm_compute; reflexivity).
      rewrite forallb_forall in Hall. now apply Hall.
    + assert (Hm : collapseFrom false limitedMessage = limitedMessage)
        by (vm_compute; reflexivity).
      rewrite <- Hm. apply collapseFrom_singleSpaced.
    + split; vm_compute; reflexivity.
  - apply Nat.ltb_ge in E. split; [exact E|].
    split; [apply cleanupEscapes_plain|]. split.
    + unfold cleaned, cleanupEscapes. cbv zeta.
      eapply singleSpaced_occursIn; [apply trim_occursIn|].
      apply replace_ws_singleSpaced.
    + unfold cleaned, cleanupEscapes. cbv zeta. apply trim_trimmed.
Qed.

(** ** Grading radio buttons *)

Lemma grade_unchecked (later : list input) (isCorrect : bool) :
  Forall unchecked later -> fold_left gradeInput later isCorrect = isCorrect.
Proof.
  induction 1 as [|i later Hi _ IH]; [reflexivity|].
  cbn [fold_left]. rewrite <- IH at 2. f_equal.
  destruct i as [n v d c|n d v]; simpl in *; [now rewrite Hi | contradiction].
Qed.

(** X14.  In a question element whose controls after the checked radio
    button are radio buttons that are not checked, the checked button
    decides: when its data-correct attribute is what [displayQuiz] computes
    for its option, the question is graded correct exactly when the option
    is the stored correct answer (for a true/false question: when the
    option in lower case is); radio buttons none of which is checked are
    graded incorrect; and for a true/false question of a generated quiz
    the option True is graded correct and the option False is not. *)
Theorem checked_radio_decides (q : question) (earlier later : list input)
  (name opt : str) :
  Forall unchecked later ->
  grade later = false
  /\ (grade (earlier ++ Radio name opt (radioDataCorrect q opt) true :: later)
      = true
      <-> match type q with
          | truefalse => toLowerCase opt = correctAnswer q
          | _ => opt = correctAnswer q
          end)
  /\ (forall (this : QuizGenerator) (g : rng),
        In q (fst (generateQuiz this g)) -> type q = truefalse ->
        grade (earlier
               ++ Radio name (lit "True") (radioDataCorrect q (lit "True"))
                    true :: later) = true
        /\ grade (earlier
                  ++ Radio name (lit "False")
                       (radioDataCorrect q (lit "False")) true :: later)
           = false).
Proof.
  intros Hl.
  assert (Hg : forall o,
             grade (earlier ++ Radio name o (radioDataCorrect q o) true
                              :: later)
             = str_eqb (radioDataCorrect q o) (lit "true")).
  { intros o. unfold grade. rewrite fold_left_app. cbn [fold_left gradeInput].
    now apply grade_unchecked. }
  split; [now apply grade_unchecked|]. split.
  - rewrite Hg. unfold radioDataCorrect.
    destruct (type q);
      match goal with
      | |- context [booleanToString (str_eqb ?a ?b)] =>
          destruct (str_eqb a b) eqn:E
      end;
      (split; [intros H|intros H]);
      try (now apply str_eqb_eq in E); try reflexivity;
      try discriminate H;
      try (apply str_eqb_eq in H; congruence).
  - intros this g Hin Hty. rewrite !Hg. unfold radioDataCorrect. rewrite Hty.
    apply generateQuiz_In in Hin. destruct Hin as [H|[H|H]].
    + apply trueFalseQuestions_shape in H. destruct H as [_ [-> _]].
      split; reflexivity.
    + apply pushMultipleChoice_shape in H. destruct H as [H _]. congruence.
    + apply fillBlankQuestions_type in H. congruence.
Qed.

(** ** How a quiz is made up *)










(** ** The properties above on the sample run *)

(** X3 for the sentence about the key, at the places 0 and 7. *)
Lemma sentenceScore_earlier_not_lower_witness :
  0 <= 7
  /\ (sentenceScore 7 sampleKeySentence
      <= sentenceScore 0 sampleKeySentence)%Q.
Proof.
  assert (H : 0 <= 7) by lia.
  exact (conj H (sentenceScore_earlier_not_lower 0 7 sampleKeySentence H)).
Defined.

(** X5 for the sample text and the default N. *)
Lemma extractKeySentences_not_empty_witness :
  sentences sample <> []
  /\ 1 <= orDefault 10 None
  /\ extractKeySentences sample None <> [].
Proof.
  assert (H1 : sentences sample <> []) by (vm_compute; discriminate).
  assert (H2 : 1 <= orDefault 10 None) by (vm_compute; lia).
  exact (conj H1 (conj H2 (extractKeySentences_not_empty sample None H1 H2))).
Defined.

(** X14 for the first true/false question of the sample run, with the
    option True checked and the option False after it. *)
Lemma checked_radio_decides_witness :
  Forall unchecked [Radio (lit "tf0") (lit "False") (lit "false") false]
  /\ grade [Radio (lit "tf0") (lit "False") (lit "false") false] = false
  /\ (grade ([] ++ Radio (lit "tf0") (lit "True")
                     (radioDataCorrect sampleTrueFalse (lit "True")) true
                   :: [Radio (lit "tf0") (lit "False") (lit "false") false])
      = true
      <-> match type sampleTrueFalse with
          | truefalse =>
              toLowerCase (lit "True") = correctAnswer sampleTrueFalse
          | _ => lit "True" = correctAnswer sampleTrueFalse
          end)
  /\ (forall (this : QuizGenerator) (g : rng),
        In sampleTrueFalse (fst (generateQuiz this g)) ->
        type sampleTrueFalse = truefalse ->
        grade ([] ++ Radio (lit "tf0") (lit "True")
                       (radioDataCorrect sampleTrueFalse (lit "True")) true
                     :: [Radio (lit "tf0") (lit "False") (lit "false") false])
        = true
        /\ grade ([] ++ Radio (lit "tf0") (lit "False")
                          (radioDataCorrect sampleTrueFalse (lit "False"))
                          true
                        :: [Radio (lit "tf0") (lit "False") (lit "false")
                              false])
           = false).
Proof.
  assert (H : Forall unchecked
                [Radio (lit "tf0") (lit "False") (lit "false") false])
    by (repeat constructor).
  exact (conj H (checked_radio_decides sampleTrueFalse []
                   [Radio (lit "tf0") (lit "False") (lit "false") false]
                   (lit "tf0") (lit "True") H)).
Defined.
